(** * Minesweeper engine and CSP solver (minesweeper/minesweeper.py)

    A shallow embedding of the board engine [Game] and of the deduction
    based player [CSPAI], followed by the properties of the two that the
    specification states.

    Python integers are unbounded and are modelled by [Z].  The 2d lists
    [exposed], [counts], [mines] and the numpy arrays of the solver are
    lists of lists indexed [x][y].  Python sets are [gset]s. *)

From Stdlib Require Import ZArith Lia List.
From stdpp Require Import base numbers list gmap sets fin_sets.

Local Open Scope Z_scope.

(** ** Coordinates, ranges and the 8 neighbourhood *)

Abbreviation coord := (Z * Z)%type (only parsing).

(** [range(n)] *)
Definition range (n : Z) : list Z := seqZ 0 n.

(** [itertools.product(l1, l2)], in the order Python produces it. *)
Definition product {A B} (l1 : list A) (l2 : list B) : list (A * B) :=
  list_prod l1 l2.

(** [itertools.product([-1, 0, 1], repeat=2)] *)
Definition deltas : list (Z * Z) := product [-1; 0; 1] [-1; 0; 1].

(** ** Grids: lists of lists indexed [g[x][y]]

    Every index the source uses is checked against the board size first
    ([_is_outside_board], or the explicit comparison in [calc_equations]),
    so on a grid of the configured shape no access is out of range.  On a
    grid of another shape Python would raise [IndexError] (or wrap a
    negative index); [grid_get] yields a default there and [grid_set]
    leaves the grid alone, and the theorems below are stated for grids of
    the configured shape. *)

Abbreviation Grid A := (list (list A)) (only parsing).

Definition grid_lookup {A} (g : Grid A) (x y : Z) : option A :=
  if (x <? 0) || (y <? 0) then None
  else match g !! Z.to_nat x with
       | Some col => col !! Z.to_nat y
       | None => None
       end.

Definition grid_get {A} (d : A) (g : Grid A) (x y : Z) : A :=
  default d (grid_lookup g x y).

Definition grid_set {A} (g : Grid A) (x y : Z) (v : A) : Grid A :=
  if (x <? 0) || (y <? 0) then g
  else alter (λ col, <[Z.to_nat y := v]> col) (Z.to_nat x) g.

(** [[[v for y in range(h)] for x in range(w)]] *)
Definition grid_make {A} (w h : Z) (v : A) : Grid A :=
  replicate (Z.to_nat w) (replicate (Z.to_nat h) v).

(** A grid has shape [w] x [h]. *)
Definition grid_shape {A} (w h : Z) (g : Grid A) : Prop :=
  length g = Z.to_nat w ∧ Forall (λ col, length col = Z.to_nat h) g.

(** ** Exceptions and outcomes *)

Inductive exn : Type :=
  | OutsideBoard (x y : Z)   (* ValueError('Position (x,y) is outside the board') *)
  | AlreadyOver              (* ValueError('Game is already over') *)
  | AlreadyExposed           (* ValueError('Position already exposed') *)
  | NotOver                  (* ValueError('Game is not over') *)
  | TypeError.               (* None - 1 *)

(** What a call does: it returns, it raises, or the budget of loop
    iterations given to the model ran out before its loop ended. *)
Inductive outcome (A : Type) : Type :=
  | Returns (a : A)
  | Raises (e : exn)
  | OutOfFuel.
Arguments Returns {A} a.
Arguments Raises {A} e.
Arguments OutOfFuel {A}.

Global Instance outcome_ret : MRet outcome := λ A a, Returns a.

Global Instance outcome_bind : MBind outcome := λ A B k m,
  match m with
  | Returns a => k a
  | Raises e => Raises e
  | OutOfFuel => OutOfFuel
  end.

(** A [for] loop whose body may raise. *)
Fixpoint for_each {S A} (l : list A) (body : S → A → outcome S) (s : S) : outcome S :=
  match l with
  | [] => Returns s
  | a :: l' => s' ← body s a; for_each l' body s'
  end.

(** ** Value types *)

Module GameConfig.
Record t : Type := mk { width : Z; height : Z; num_mines : Z }.
End GameConfig.

Inductive GameStatus : Type := PLAYING | VICTORY | DEFEAT | QUIT.

Module GameResult.
Record t : Type := mk { victory : bool; num_moves : Z }.
End GameResult.

Module Square.
Record t : Type := mk { x : Z; y : Z; num_mines : Z }.

Definition pos (s : t) : coord := (x s, y s).
Definition to_tuple (s : t) : Z * Z * Z := (x s, y s, num_mines s).
Definition of_tuple (p : Z * Z * Z) : t := mk p.1.1 p.1.2 p.2.
End Square.

(** [Square.__eq__] and [Square.__hash__] compare all three fields. *)
Global Instance Square_eq_dec : EqDecision Square.t.
Proof. solve_decision. Defined.

Global Instance Square_countable : Countable Square.t.
Proof.
  apply (inj_countable' Square.to_tuple Square.of_tuple).
  by intros [].
Defined.

Global Instance GameStatus_eq_dec : EqDecision GameStatus.
Proof. solve_decision. Defined.

Module MoveResult.
(** [new_squares] is [set(new_squares)]. *)
Record t : Type := mk { status : GameStatus; new_squares : gset Square.t }.
End MoveResult.

(** ** The board engine *)

Module Game.

Record t : Type := mk {
  width : Z;
  height : Z;
  num_mines : Z;
  num_moves : Z;
  _num_exposed_squares : Z;
  _explosion : bool;
  _quit : bool;
  _num_safe_squares : Z;
  exposed : Grid bool;
  counts : Grid Z;
  mines : Grid bool
}.

Definition _is_outside_board (g : t) (x y : Z) : bool :=
  if (x <? 0) || (x >=? width g) then true
  else if (y <? 0) || (y >=? height g) then true
  else false.

Definition _test_if_count_0 (g : t) (x y : Z) : bool :=
  grid_get 0 (counts g) x y =? 0.

Definition _expose_square (g : t) (x y : Z) : t :=
  mk (width g) (height g) (num_mines g) (num_moves g)
     (_num_exposed_squares g + 1) (_explosion g) (_quit g)
     (_num_safe_squares g)
     (grid_set (exposed g) x y true) (counts g) (mines g).

Definition game_over (g : t) : bool :=
  _explosion g || _quit g
  || (_num_exposed_squares g =? _num_safe_squares g).

Definition status (g : t) : GameStatus :=
  if negb (game_over g) then PLAYING
  else if _quit g then QUIT
  else if _explosion g then DEFEAT
  else VICTORY.

Definition result (g : t) : outcome GameResult.t :=
  if negb (game_over g) then Raises NotOver
  else Returns (GameResult.mk (bool_decide (status g = VICTORY)) (num_moves g)).

Definition quit (g : t) : t :=
  mk (width g) (height g) (num_mines g) (num_moves g)
     (_num_exposed_squares g) (_explosion g) true
     (_num_safe_squares g) (exposed g) (counts g) (mines g).

(** *** [_init_counts] *)

(** Python adds the boolean to the integer: [True] counts 1. *)
Definition bool_to_Z (b : bool) : Z := if b then 1 else 0.

Definition set_counts (g : t) (c : Grid Z) : t :=
  mk (width g) (height g) (num_mines g) (num_moves g)
     (_num_exposed_squares g) (_explosion g) (_quit g)
     (_num_safe_squares g) (exposed g) c (mines g).

Definition _init_counts_cell (x y : Z) (g : t) (d : Z * Z) : t :=
  let '(dx, dy) := d in
  if (dx =? 0) && (dy =? 0) then g
  else if negb (_is_outside_board g (x + dx) (y + dy)) then
    set_counts g
      (grid_set (counts g) x y
         (grid_get 0 (counts g) x y
          + bool_to_Z (grid_get false (mines g) (x + dx) (y + dy))))
  else g.

Definition _init_counts (g : t) : t :=
  fold_left (λ g '(x, y), fold_left (_init_counts_cell x y) deltas g)
    (product (range (width g)) (range (height g))) g.

(** *** [_update]: expose a square and grow the region *)

Definition set_explosion (g : t) : t :=
  mk (width g) (height g) (num_mines g) (num_moves g)
     (_num_exposed_squares g) true (_quit g)
     (_num_safe_squares g) (exposed g) (counts g) (mines g).

(** The state of the [while] loop: the game, the list [squares] and the
    list [stack].  [stack] is kept top first: [stack.pop()] takes the
    head, [stack.append(c)] conses. *)
Abbreviation flood_state := (t * list Square.t * list coord)%type (only parsing).

(** One round of the inner [for dx, dy] loop, around the popped [(x, y)]. *)
Definition _update_neighbor (x y : Z) (st : flood_state) (d : Z * Z) : flood_state :=
  let '(g, squares, stack) := st in
  let '(dx, dy) := d in
  if (dx =? 0) && (dy =? 0) then st
  else
    let new_x := x + dx in
    let new_y := y + dy in
    if negb (_is_outside_board g new_x new_y) then
      if negb (grid_get false (exposed g) new_x new_y) then
        let g' := _expose_square g new_x new_y in
        let squares' :=
          squares ++ [Square.mk new_x new_y (grid_get 0 (counts g') new_x new_y)] in
        if _test_if_count_0 g' new_x new_y
        then (g', squares', (new_x, new_y) :: stack)
        else (g', squares', stack)
      else st
    else st.

(** [while len(stack) > 0: ...], at most [fuel] rounds. *)
Fixpoint _update_loop (fuel : nat) (st : flood_state) : outcome (t * list Square.t) :=
  let '(g, squares, stack) := st in
  match stack with
  | [] => Returns (g, squares)
  | (x, y) :: stack' =>
      match fuel with
      | O => OutOfFuel
      | S fuel' =>
          _update_loop fuel' (fold_left (_update_neighbor x y) deltas (g, squares, stack'))
      end
  end.

(** The [while] loop is given [width * height] rounds; [update_loop_total]
    shows that it never takes more. *)
Definition _update (g : t) (x y : Z) : outcome (list Square.t) * t :=
  let g1 := _expose_square g x y in
  let squares := [Square.mk x y (grid_get 0 (counts g1) x y)] in
  if grid_get false (mines g1) x y then (Returns squares, set_explosion g1)
  else if negb (grid_get 0 (counts g1) x y =? 0) then (Returns squares, g1)
  else
    match _update_loop (Z.to_nat (width g * height g)) (g1, squares, [(x, y)]) with
    | Returns (g2, squares') => (Returns squares', g2)
    | Raises e => (Raises e, g1)
    | OutOfFuel => (OutOfFuel, g1)
    end.

(** *** [select] *)

Definition incr_num_moves (g : t) : t :=
  mk (width g) (height g) (num_mines g) (num_moves g + 1)
     (_num_exposed_squares g) (_explosion g) (_quit g)
     (_num_safe_squares g) (exposed g) (counts g) (mines g).

(** The outcome of the call together with the game after it. *)
Definition select (g : t) (x y : Z) : outcome MoveResult.t * t :=
  if _is_outside_board g x y then (Raises (OutsideBoard x y), g)
  else if _explosion g then (Raises AlreadyOver, g)
  else if grid_get false (exposed g) x y then (Raises AlreadyExposed, g)
  else
    let '(r, g') := _update (incr_num_moves g) x y in
    (squares ← r; Returns (MoveResult.mk (status g') (list_to_set squares)), g').

(** [state]: [None] for an unexposed square, its count otherwise. *)
Definition state (g : t) : Grid (option Z) :=
  fold_left
    (λ st '(x, y),
       if grid_get false (exposed g) x y
       then grid_set st x y (Some (grid_get 0 (counts g) x y))
       else st)
    (product (range (width g)) (range (height g)))
    (grid_make (width g) (height g) None).

(** *** [_place_mines] and [__init__]

    [draws] is the sequence of pairs that the two calls of
    [random.randint] return, round after round; the loop stops as soon
    as [locations] holds [num_mines] coordinates, and the model is out
    of fuel when the draws end before that. *)

Definition set_mines (g : t) (m : Grid bool) : t :=
  mk (width g) (height g) (num_mines g) (num_moves g)
     (_num_exposed_squares g) (_explosion g) (_quit g)
     (_num_safe_squares g) (exposed g) (counts g) m.

Fixpoint _place_mines_loop (n : Z) (draws : list coord) (locations : gset coord)
  : outcome (gset coord) :=
  if Z.of_nat (size locations) <? n then
    match draws with
    | [] => OutOfFuel
    | (x, y) :: draws' => _place_mines_loop n draws' ({[(x, y)]} ∪ locations)
    end
  else Returns locations.

Definition _place_mines (draws : list coord) (g : t) : outcome t :=
  locations ← _place_mines_loop (num_mines g) draws ∅;
  Returns
    (fold_left (λ g location, set_mines g (grid_set (mines g) location.1 location.2 true))
       (elements locations) g).

(** [mines] is the optional layout; [if mines:] holds for a list that is
    not empty. *)
Definition __init__ (config : GameConfig.t) (mines : option (Grid bool))
    (draws : list coord) : outcome t :=
  let w := GameConfig.width config in
  let h := GameConfig.height config in
  let n := GameConfig.num_mines config in
  let g := mk w h n 0 0 false false (w * h - n)
             (grid_make w h false) (grid_make w h 0) [] in
  g' ← match mines with
       | Some (col :: cols) => Returns (set_mines g (col :: cols))
       | _ => _place_mines draws (set_mines g (grid_make w h false))
       end;
  Returns (_init_counts g').

End Game.

(** ** The CSP solver *)

Module CSPAI.

Record t : Type := mk {
  width : Z;
  height : Z;
  exposed_squares : gset coord;
  _flags : list coord
}.

Definition reset (ai : t) (config : GameConfig.t) : t :=
  mk (GameConfig.width config) (GameConfig.height config) ∅ [].

Definition update (ai : t) (result : MoveResult.t) : t :=
  mk (width ai) (height ai)
     (set_fold (λ position acc, {[Square.pos position]} ∪ acc)
        (exposed_squares ai) (MoveResult.new_squares result))
     (_flags ai).

Definition is_None {A} (o : option A) : bool :=
  match o with None => true | Some _ => false end.

(** The equations: [eqs[x, y]] is the set of unexposed neighbours of the
    exposed square [(x, y)]. *)
Definition calc_equations (ai : t) (eq_values : Grid (option Z)) : Grid (gset coord) :=
  fold_left
    (λ eqs '(x, y),
       fold_left
         (λ eqs i,
            fold_left
              (λ eqs j,
                 if negb ((i =? 0) && (j =? 0)) then
                   if (0 <=? x + i) && (x + i <? width ai)
                      && (0 <=? y + j) && (y + j <? height ai) then
                     if is_None (grid_get None eq_values (x + i) (y + j)) then
                       grid_set eqs x y ({[(x + i, y + j)]} ∪ grid_get ∅ eqs x y)
                     else eqs
                   else eqs
                 else eqs)
              [-1; 0; 1] eqs)
         [-1; 0; 1] eqs)
    (elements (exposed_squares ai))
    (grid_make (width ai) (height ai) ∅).

Abbreviation solver_state := (Grid (gset coord) * Grid (option Z))%type (only parsing).

(** First loop of [find_mine]: an equation with as many unknowns as its
    (non zero) value holds mines only. *)
Definition find_mine_collect (ai : t) (eqs : Grid (gset coord))
    (eq_values : Grid (option Z)) : gset coord :=
  fold_left
    (λ mines '(x, y),
       match grid_get None eq_values x y with
       | Some v =>
           if negb (v =? 0) then
             if v =? Z.of_nat (size (grid_get ∅ eqs x y))
             then grid_get ∅ eqs x y ∪ mines
             else mines
           else mines
       | None => mines
       end)
    (product (range (width ai)) (range (height ai))) ∅.

(** Second loop of [find_mine], for one mine [m]: take it out of every
    equation and lower that equation's value.  [None - 1] is a
    [TypeError]. *)
Definition find_mine_remove (ai : t) (st : solver_state) (m : coord)
  : outcome solver_state :=
  for_each (product (range (width ai)) (range (height ai)))
    (λ '(eqs, eq_values) '(i, j),
       if decide (m ∈ grid_get ∅ eqs i j) then
         match grid_get None eq_values i j with
         | Some v =>
             Returns (grid_set eqs i j (grid_get ∅ eqs i j ∖ {[m]}),
                      grid_set eq_values i j (Some (v - 1)))
         | None => Raises TypeError
         end
       else Returns (eqs, eq_values))
    st.

Definition find_mine (ai : t) (eqs : Grid (gset coord)) (eq_values : Grid (option Z))
    (mines_ : gset coord) : outcome (solver_state * gset coord) :=
  let mines := find_mine_collect ai eqs eq_values in
  st ← for_each (elements mines) (find_mine_remove ai) (eqs, eq_values);
  Returns (st, mines ∪ mines_).

Definition find_safe_collect (ai : t) (eqs : Grid (gset coord))
    (eq_values : Grid (option Z)) : gset coord :=
  fold_left
    (λ safe '(x, y),
       match grid_get None eq_values x y with
       | Some v => if v =? 0 then grid_get ∅ eqs x y ∪ safe else safe
       | None => safe
       end)
    (product (range (width ai)) (range (height ai))) ∅.

Definition find_safe_remove (ai : t) (eqs : Grid (gset coord)) (s : coord)
  : Grid (gset coord) :=
  fold_left
    (λ eqs '(i, j),
       if decide (s ∈ grid_get ∅ eqs i j)
       then grid_set eqs i j (grid_get ∅ eqs i j ∖ {[s]})
       else eqs)
    (product (range (width ai)) (range (height ai))) eqs.

Definition find_safe (ai : t) (eqs : Grid (gset coord)) (eq_values : Grid (option Z))
    (safe_ : gset coord) : solver_state * gset coord :=
  let safe := find_safe_collect ai eqs eq_values in
  ((fold_left (find_safe_remove ai) (elements safe) eqs, eq_values), safe ∪ safe_).

(** The [while True] loop of [find_safe_and_mine]; [fuel] bounds the
    number of passes. *)
Fixpoint find_safe_and_mine_loop (fuel : nat) (ai : t) (st : solver_state)
    (mines_ safe_ : gset coord) : outcome (gset coord * gset coord) :=
  match fuel with
  | O => OutOfFuel
  | S fuel' =>
      '(st1, mines) ← find_mine ai st.1 st.2 mines_;
      let '(st2, safe) := find_safe ai st1.1 st1.2 safe_ in
      if decide (mines = mines_ ∧ safe = safe_) then Returns (mines, safe)
      else find_safe_and_mine_loop fuel' ai st2 mines safe
  end.

Definition find_safe_and_mine (fuel : nat) (ai : t) (eqs : Grid (gset coord))
    (eq_values : Grid (option Z)) : outcome (gset coord * gset coord) :=
  find_safe_and_mine_loop fuel ai (eqs, eq_values) ∅ ∅.

End CSPAI.

(** ** Sequences of calls on a game *)

Inductive call : Type :=
  | Select (x y : Z)
  | Quit.

Global Instance call_eq_dec : EqDecision call.
Proof. solve_decision. Defined.

Definition step (g : Game.t) (c : call) : Game.t :=
  match c with
  | Select x y => (Game.select g x y).2
  | Quit => Game.quit g
  end.

Definition run (g : Game.t) (cs : list call) : Game.t := fold_left step cs g.



(** Scenario board: 3 x 3, one mine at (2,2). *)
Definition mines_3x3 : Grid bool :=
  [[false; false; false]; [false; false; false]; [false; false; true]].

Definition game_3x3 : outcome Game.t :=
  Game.__init__ (GameConfig.mk 3 3 1) (Some mines_3x3) [].


(** ** Notions used to state the properties *)

(** The squares of a [w] x [h] board. *)
Definition board (w h : Z) : list coord := product (range w) (range h).

Definition in_board (w h : Z) (c : coord) : Prop :=
  0 ≤ c.1 < w ∧ 0 ≤ c.2 < h.

(** The eight squares around [c], on or off the board. *)
Definition neighbors (c : coord) : list coord :=
  [(c.1 - 1, c.2 - 1); (c.1 - 1, c.2); (c.1 - 1, c.2 + 1);
   (c.1, c.2 - 1); (c.1, c.2 + 1);
   (c.1 + 1, c.2 - 1); (c.1 + 1, c.2); (c.1 + 1, c.2 + 1)].

Definition adjacent (c c' : coord) : Prop := c' ∈ neighbors c.

Definition is_mine (g : Game.t) (c : coord) : bool :=
  grid_get false (Game.mines g) c.1 c.2.

Definition is_exposed (g : Game.t) (c : coord) : bool :=
  grid_get false (Game.exposed g) c.1 c.2.

Definition count_at (g : Game.t) (c : coord) : Z :=
  grid_get 0 (Game.counts g) c.1 c.2.

(** Number of mines among the neighbours of [c] that are on the board. *)
Definition neighbor_mines (g : Game.t) (c : coord) : Z :=
  Z.of_nat (length (filter
    (λ c', in_board (Game.width g) (Game.height g) c' ∧ is_mine g c' = true)
    (neighbors c))).

(** Number of squares of the board that hold a mine, that are exposed. *)
Definition mine_cells (g : Game.t) : Z :=
  Z.of_nat (length (filter (λ c, is_mine g c = true)
                      (board (Game.width g) (Game.height g)))).

Definition exposed_cells (g : Game.t) : Z :=
  Z.of_nat (length (filter (λ c, is_exposed g c = true)
                      (board (Game.width g) (Game.height g)))).

(** The three 2d lists have the configured shape. *)
Definition well_shaped (g : Game.t) : Prop :=
  grid_shape (Game.width g) (Game.height g) (Game.exposed g)
  ∧ grid_shape (Game.width g) (Game.height g) (Game.counts g)
  ∧ grid_shape (Game.width g) (Game.height g) (Game.mines g).

Definition counts_correct (g : Game.t) : Prop :=
  ∀ c, in_board (Game.width g) (Game.height g) c → count_at g c = neighbor_mines g c.

(** [c] is linked to [c0] by a chain of adjacent squares taken from [S]. *)
Inductive connected (S : coord → Prop) (c0 : coord) : coord → Prop :=
  | connected_refl : S c0 → connected S c0 c0
  | connected_step c c' :
      connected S c0 c → adjacent c c' → S c' → connected S c0 c'.

(** ** Grids *)

Section grid.
Context {A : Type}.
Implicit Types (g : Grid A) (x y w h : Z) (v d : A).

Lemma grid_shape_make w h v : grid_shape w h (grid_make w h v).
Proof.
  split.
  - apply length_replicate.
  - apply Forall_replicate, length_replicate.
Qed.

Lemma grid_lookup_is_Some w h g x y :
  grid_shape w h g → 0 ≤ x < w → 0 ≤ y < h → is_Some (grid_lookup g x y).
Proof.
  intros [Hlen Hcols] Hx Hy. unfold grid_lookup.
  replace ((x <? 0) || (y <? 0)) with false by lia.
  destruct (lookup_lt_is_Some_2 g (Z.to_nat x)) as [col Hcol]; [lia|].
  rewrite Hcol. apply lookup_lt_is_Some_2.
  rewrite Forall_forall in Hcols.
  rewrite (Hcols col); [lia|]. eapply list_elem_of_lookup_2; eauto.
Qed.

Lemma grid_get_make w h v d x y :
  0 ≤ x < w → 0 ≤ y < h → grid_get d (grid_make w h v) x y = v.
Proof.
  intros Hx Hy. unfold grid_get, grid_lookup, grid_make.
  replace ((x <? 0) || (y <? 0)) with false by lia.
  rewrite lookup_replicate_2 by lia. by rewrite lookup_replicate_2 by lia.
Qed.

Lemma grid_shape_set w h g x y v :
  grid_shape w h g → grid_shape w h (grid_set g x y v).
Proof.
  intros [Hlen Hcols]. unfold grid_set.
  destruct ((x <? 0) || (y <? 0)); [done|]. split.
  - by rewrite length_alter.
  - apply Forall_alter; [done|]. intros col _ Hcol. by rewrite length_insert.
Qed.

Lemma grid_get_set_eq w h g x y v d :
  grid_shape w h g → 0 ≤ x < w → 0 ≤ y < h →
  grid_get d (grid_set g x y v) x y = v.
Proof.
  intros Hs Hx Hy.
  destruct (grid_lookup_is_Some w h g x y Hs Hx Hy) as [v0 Hv0].
  unfold grid_get, grid_lookup, grid_set in *.
  replace ((x <? 0) || (y <? 0)) with false in * by lia.
  rewrite list_lookup_alter_eq.
  destruct (g !! Z.to_nat x) as [col|]; [simpl|done].
  rewrite list_lookup_insert_eq; [done|]. by eapply lookup_lt_Some.
Qed.

Lemma grid_get_set_ne g x y v d x' y' :
  (x, y) ≠ (x', y') →
  grid_get d (grid_set g x y v) x' y' = grid_get d g x' y'.
Proof.
  intros Hne. unfold grid_get, grid_lookup, grid_set.
  destruct ((x <? 0) || (y <? 0)) eqn:Hxy; [done|].
  destruct ((x' <? 0) || (y' <? 0)) eqn:Hxy'; [done|].
  destruct (decide (Z.to_nat x = Z.to_nat x')) as [Heq|Hnx].
  - rewrite <- Heq, list_lookup_alter_eq.
    destruct (g !! Z.to_nat x) as [col|]; [simpl|done].
    rewrite list_lookup_insert_ne; [done|].
    intros Hy. apply Hne. f_equal; lia.
  - by rewrite list_lookup_alter_ne.
Qed.

Lemma grid_get_set w h g x y v d x' y' :
  grid_shape w h g → 0 ≤ x < w → 0 ≤ y < h →
  grid_get d (grid_set g x y v) x' y'
  = if decide ((x, y) = (x', y')) then v else grid_get d g x' y'.
Proof.
  intros Hs Hx Hy. case_decide as Heq.
  - inversion Heq; subst. by eapply grid_get_set_eq.
  - by apply grid_get_set_ne.
Qed.

End grid.

(** ** The board and counting on it *)

Lemma NoDup_product {A B} (l1 : list A) (l2 : list B) :
  NoDup l1 → NoDup l2 → NoDup (product l1 l2).
Proof.
  unfold product. intros H1 H2. induction H1 as [|a l1 Ha H1 IH]; simpl.
  - constructor.
  - apply NoDup_app. split_and!.
    + apply (NoDup_fmap_2 (pair a)). done.
    + intros [a' b'] Hin1 Hin2.
      apply list_elem_of_fmap in Hin1 as (b & [= -> ->] & _).
      apply list_elem_of_In, in_prod_iff in Hin2 as [Hin2 _].
      by apply Ha, list_elem_of_In.
    + done.
Qed.

Lemma elem_of_product {A B} (l1 : list A) (l2 : list B) (a : A) (b : B) :
  (a, b) ∈ product l1 l2 ↔ a ∈ l1 ∧ b ∈ l2.
Proof. unfold product. by rewrite !list_elem_of_In, in_prod_iff. Qed.

Lemma length_product {A B} (l1 : list A) (l2 : list B) :
  length (product l1 l2) = (length l1 * length l2)%nat.
Proof. apply length_prod. Qed.

Lemma elem_of_board w h c : c ∈ board w h ↔ in_board w h c.
Proof.
  destruct c as [x y]. unfold board, range, in_board.
  rewrite elem_of_product, !elem_of_seqZ. simpl. lia.
Qed.

Lemma NoDup_board w h : NoDup (board w h).
Proof. apply NoDup_product; apply NoDup_seqZ. Qed.

Lemma length_board w h :
  0 ≤ w → 0 ≤ h → Z.of_nat (length (board w h)) = w * h.
Proof.
  intros Hw Hh. unfold board, range.
  rewrite length_product, !length_seqZ. lia.
Qed.

Lemma in_board_outside g x y :
  Game._is_outside_board g x y = false ↔ in_board (Game.width g) (Game.height g) (x, y).
Proof.
  unfold Game._is_outside_board, in_board. simpl.
  destruct (x <? 0) eqn:?, (x >=? Game.width g) eqn:?,
    (y <? 0) eqn:?, (y >=? Game.height g) eqn:?; simpl; split; try done; lia.
Qed.

Section counting.
Context {A : Type}.
Implicit Types (l : list A) (P Q : A → Prop).

Lemma length_filter_iff P Q `{!∀ a, Decision (P a)} `{!∀ a, Decision (Q a)} l :
  (∀ a, a ∈ l → (P a ↔ Q a)) → length (filter P l) = length (filter Q l).
Proof.
  induction l as [|a l IH]; intros Hiff; [done|].
  rewrite !filter_cons.
  assert (P a ↔ Q a) as Ha by (apply Hiff; left).
  assert (length (filter P l) = length (filter Q l)) as Hl.
  { apply IH. intros b Hb. apply Hiff. by right. }
  destruct (decide (P a)), (decide (Q a)); simpl; tauto || lia.
Qed.

(** Switching one element of a duplicate free list on adds one to the
    count. *)
Lemma length_filter_flip P Q `{!∀ a, Decision (P a)} `{!∀ a, Decision (Q a)} l c :
  NoDup l → c ∈ l → P c → ¬ Q c → (∀ a, a ≠ c → (P a ↔ Q a)) →
  length (filter P l) = S (length (filter Q l)).
Proof.
  intros Hnd Hin HP HQ Hiff.
  induction Hnd as [|a l Ha Hnd IH]; [by apply not_elem_of_nil in Hin|].
  rewrite !filter_cons. apply elem_of_cons in Hin as [<-|Hin].
  - rewrite decide_True by done. rewrite decide_False by done. simpl. f_equal.
    apply length_filter_iff. intros b Hb. apply Hiff. by intros ->.
  - specialize (IH Hin).
    assert (a ≠ c) as Hac by (by intros ->).
    specialize (Hiff a Hac).
    destruct (decide (P a)), (decide (Q a)); simpl; tauto || lia.
Qed.

(** Two properties that exclude each other share the list. *)
Lemma length_filter_disjoint P Q `{!∀ a, Decision (P a)} `{!∀ a, Decision (Q a)} l :
  (∀ a, a ∈ l → P a → Q a → False) →
  (length (filter P l) + length (filter Q l) ≤ length l)%nat.
Proof.
  induction l as [|a l IH]; intros Hdisj; [simpl; lia|].
  rewrite !filter_cons.
  assert (length (filter P l) + length (filter Q l) ≤ length l)%nat as Hl.
  { apply IH. intros b Hb. apply Hdisj. by right. }
  specialize (Hdisj a (list_elem_of_here _ _)).
  destruct (decide (P a)), (decide (Q a)); simpl; tauto || lia.
Qed.

(** Invariants of a [for] loop over a list. *)
Lemma fold_left_invariant {S} (f : S → A → S) (I : S → Prop) l s :
  (∀ s a, a ∈ l → I s → I (f s a)) → I s → I (fold_left f l s).
Proof.
  revert s. induction l as [|a l IH]; intros s Hstep Hs; [done|]. simpl.
  apply IH.
  - intros s' b Hb. apply Hstep. by right.
  - apply Hstep; [left|done].
Qed.

(** ... that also establish [Q a] when they handle [a], for good. *)
Lemma fold_left_invariant_each {S} (f : S → A → S) (I : S → Prop)
    (Q : A → S → Prop) l s :
  (∀ s a, a ∈ l → I s → I (f s a) ∧ Q a (f s a)) →
  (∀ s a b, b ∈ l → I s → Q a s → Q a (f s b)) →
  I s → I (fold_left f l s) ∧ ∀ a, a ∈ l → Q a (fold_left f l s).
Proof.
  intros Hstep Hkeep.
  assert (∀ l' s, (∀ b, b ∈ l' → b ∈ l) → I s →
          I (fold_left f l' s)
          ∧ (∀ a, Q a s → Q a (fold_left f l' s))
          ∧ (∀ a, a ∈ l' → Q a (fold_left f l' s))) as Hgen.
  { induction l' as [|b l' IH]; intros s' Hsub Hs.
    - split_and!; [done..|]. intros a Ha. by apply not_elem_of_nil in Ha.
    - simpl.
      destruct (Hstep s' b) as [HI HQ]; [apply Hsub; left|done|].
      destruct (IH (f s' b)) as (HI' & HQ' & Hall);
        [intros; apply Hsub; by right|done|].
      split_and!; [done| |].
      + intros a Ha. apply HQ'. apply Hkeep; [apply Hsub; left|done..].
      + intros a [->|Ha]%elem_of_cons; [by apply HQ'|by apply Hall]. }
  intros Hs. destruct (Hgen l s) as (? & _ & ?); done.
Qed.
End counting.

(** ** The region growing loop of [_update] *)

(** The body of the inner [for] loop, as a function of the neighbour. *)
Definition expose_neighbor (st : Game.t * list Square.t * list (Z * Z)) (c : Z * Z)
  : Game.t * list Square.t * list (Z * Z) :=
  let '(g, squares, stack) := st in
  if negb (Game._is_outside_board g c.1 c.2) then
    if negb (grid_get false (Game.exposed g) c.1 c.2) then
      let g' := Game._expose_square g c.1 c.2 in
      let squares' :=
        squares ++ [Square.mk c.1 c.2 (grid_get 0 (Game.counts g') c.1 c.2)] in
      if Game._test_if_count_0 g' c.1 c.2
      then (g', squares', (c.1, c.2) :: stack)
      else (g', squares', stack)
    else st
  else st.

Arguments expose_neighbor : simpl never.

(** Everything of a game but its exposure, its exposure counter, its move
    counter and its explosion flag. *)
Definition same_layout (g g' : Game.t) : Prop :=
  Game.width g' = Game.width g ∧ Game.height g' = Game.height g
  ∧ Game.num_mines g' = Game.num_mines g
  ∧ Game._quit g' = Game._quit g
  ∧ Game._num_safe_squares g' = Game._num_safe_squares g
  ∧ Game.counts g' = Game.counts g ∧ Game.mines g' = Game.mines g.

Definition positions (squares : list Square.t) : list (Z * Z) :=
  Square.pos <$> squares.

Lemma update_neighbor_delta x y st d :
  Game._update_neighbor x y st d
  = if decide (d = (0, 0)) then st else expose_neighbor st (x + d.1, y + d.2).
Proof.
  destruct st as [[g squares] stack], d as [dx dy].
  unfold Game._update_neighbor, expose_neighbor. simpl.
  case_decide as Hd.
  - inversion Hd; subst. done.
  - replace ((dx =? 0) && (dy =? 0)) with false; [done|].
    symmetry. apply andb_false_iff.
    destruct (decide (dx = 0)) as [->|?]; [right|left]; [|lia].
    apply Z.eqb_neq. congruence.
Qed.

Lemma fold_update_neighbor x y (ds : list (Z * Z)) st :
  fold_left (Game._update_neighbor x y) ds st
  = fold_left expose_neighbor
      ((λ d, (x + d.1, y + d.2)) <$> filter (λ d, d ≠ (0, 0)) ds) st.
Proof.
  revert st. induction ds as [|d ds IH]; intros st; [done|]. simpl.
  rewrite update_neighbor_delta, filter_cons.
  destruct (decide (d = (0, 0))) as [Hd|Hd].
  - rewrite decide_False by (intros ?; done). apply IH.
  - rewrite decide_True by done. simpl. apply IH.
Qed.

Lemma deltas_neighbors x y :
  (λ d : Z * Z, (x + d.1, y + d.2)) <$> filter (λ d, d ≠ (0, 0)) deltas
  = neighbors (x, y).
Proof.
  assert (filter (λ d : Z * Z, d ≠ (0, 0)) deltas
          = [(-1, -1); (-1, 0); (-1, 1); (0, -1); (0, 1); (1, -1); (1, 0); (1, 1)])
    as -> by by vm_compute.
  unfold neighbors. simpl. by rewrite !Z.add_0_r.
Qed.

Lemma update_loop_unfold fuel g squares x y stack :
  Game._update_loop (S fuel) (g, squares, (x, y) :: stack)
  = Game._update_loop fuel (fold_left expose_neighbor (neighbors (x, y)) (g, squares, stack)).
Proof. cbn [Game._update_loop]. by rewrite fold_update_neighbor, deltas_neighbors. Qed.

Lemma exposed_cells_expose g c :
  grid_shape (Game.width g) (Game.height g) (Game.exposed g) →
  in_board (Game.width g) (Game.height g) c →
  is_exposed g c = false →
  exposed_cells (Game._expose_square g c.1 c.2) = exposed_cells g + 1.
Proof.
  intros Hs [Hx Hy] Hc. unfold exposed_cells. simpl.
  rewrite (length_filter_flip _ (λ c, is_exposed g c = true) _ c).
  - lia.
  - apply NoDup_board.
  - by apply elem_of_board.
  - unfold is_exposed. simpl. by eapply grid_get_set_eq.
  - by rewrite Hc.
  - intros a Ha. unfold is_exposed. simpl.
    rewrite grid_get_set_ne; [done|]. destruct a, c. simpl. congruence.
Qed.

Lemma exposed_cells_expose_xy g x y :
  grid_shape (Game.width g) (Game.height g) (Game.exposed g) →
  in_board (Game.width g) (Game.height g) (x, y) →
  is_exposed g (x, y) = false →
  exposed_cells (Game._expose_square g x y) = exposed_cells g + 1.
Proof. apply (exposed_cells_expose g (x, y)). Qed.

Lemma exposed_cells_le g :
  0 ≤ Game.width g → 0 ≤ Game.height g →
  0 ≤ exposed_cells g ≤ Game.width g * Game.height g.
Proof.
  intros Hw Hh. unfold exposed_cells.
  rewrite <- (length_board (Game.width g) (Game.height g)) by done.
  pose proof (length_filter (λ c, is_exposed g c = true)
                (board (Game.width g) (Game.height g))). lia.
Qed.

Lemma connected_mono (S S' : Z * Z → Prop) c0 c :
  (∀ c, S c → S' c) → connected S c0 c → connected S' c0 c.
Proof.
  intros Hsub. induction 1 as [|c c' _ IH Hadj Hc'].
  - by apply connected_refl, Hsub.
  - eapply connected_step; [done..|]. by apply Hsub.
Qed.

Section flood.
(** [gi] is the game [_update] was called on and [c0] the selected
    square. *)
Variables (gi : Game.t) (c0 : Z * Z).

Let w := Game.width gi.
Let h := Game.height gi.

(** What holds of the game [g], of [squares] and of the squares that
    wait for their neighbours to be looked at: those on the stack and
    those in [busy]. *)
Record flood_inv (busy : list (Z * Z)) (g : Game.t) (squares : list Square.t)
    (stack : list (Z * Z)) : Prop := {
  fi_layout : same_layout gi g;
  fi_moves : Game.num_moves g = Game.num_moves gi;
  fi_explosion : Game._explosion g = Game._explosion gi;
  fi_shape : grid_shape w h (Game.exposed g);
  fi_head : ∃ rest, squares = Square.mk c0.1 c0.2 (count_at gi c0) :: rest;
  fi_nodup : NoDup (positions squares);
  fi_fresh : ∀ s, s ∈ squares →
    in_board w h (Square.pos s) ∧ is_exposed gi (Square.pos s) = false
    ∧ Square.num_mines s = count_at gi (Square.pos s);
  fi_exposed : ∀ c, in_board w h c →
    is_exposed g c = is_exposed gi c || bool_decide (c ∈ positions squares);
  fi_stack : ∀ c, c ∈ busy ++ stack → c ∈ positions squares ∧ count_at gi c = 0;
  fi_connected : ∀ c, c ∈ positions squares →
    connected (λ c', c' ∈ positions squares) c0 c;
  fi_counter : Game._num_exposed_squares g
               = Game._num_exposed_squares gi + Z.of_nat (length squares);
  fi_cells : exposed_cells g = exposed_cells gi + Z.of_nat (length squares);
  fi_closed : ∀ c, c ∈ positions squares → count_at gi c = 0 →
    c ∈ busy ++ stack
    ∨ ∀ c', c' ∈ neighbors c → in_board w h c' → is_exposed g c' = true;
  fi_origin : ∀ c, c ∈ positions squares →
    c = c0 ∨ ∃ z, z ∈ positions squares ∧ count_at gi z = 0 ∧ adjacent z c
}.

Lemma expose_neighbor_inv p g squares stack c :
  adjacent p c →
  flood_inv [p] g squares stack →
  let '(g', squares', stack') := expose_neighbor (g, squares, stack) c in
  flood_inv [p] g' squares' stack'
  ∧ (in_board w h c → is_exposed g' c = true)
  ∧ Z.of_nat (length stack') - exposed_cells g'
    ≤ Z.of_nat (length stack) - exposed_cells g
  ∧ (∀ c', is_exposed g c' = true → is_exposed g' c' = true).
Proof.
  intros Hadj HI. unfold expose_neighbor.
  destruct HI.
  destruct fi_layout0 as (Hw & Hh & Hnm & Hq & Hsafe & Hcounts & Hmines).
  destruct (Game._is_outside_board g c.1 c.2) eqn:Hout; simpl.
  { split_and!; [by constructor| |lia|done].
    intros [Hx Hy]. destruct c as [x y].
    assert (Game._is_outside_board g x y = false) as Hin; [|simpl in *; congruence].
    apply in_board_outside. rewrite Hw, Hh. done. }
  assert (in_board w h c) as Hc.
  { destruct c as [x y]. apply in_board_outside in Hout. by rewrite Hw, Hh in Hout. }
  destruct (grid_get false (Game.exposed g) c.1 c.2) eqn:Hexp; simpl.
  { split_and!; [by constructor|done|lia|done]. }
  assert (is_exposed g c = false) as Hexp' by done.
  assert (c ∉ positions squares) as Hnew.
  { intros Hin. rewrite fi_exposed0 in Hexp' by done.
    rewrite bool_decide_eq_true_2 in Hexp' by done.
    by rewrite orb_true_r in Hexp'. }
  assert (is_exposed gi c = false) as Hexpi.
  { rewrite fi_exposed0 in Hexp' by done. by apply orb_false_iff in Hexp' as [? _]. }
  set (g' := Game._expose_square g c.1 c.2).
  set (s := Square.mk c.1 c.2 (grid_get 0 (Game.counts g') c.1 c.2)).
  assert (Square.pos s = c) as Hpos by (by destruct c).
  assert (positions (squares ++ [s]) = positions squares ++ [c]) as Hposs.
  { unfold positions. by rewrite fmap_app, <- Hpos. }
  assert (∀ c', is_exposed g' c' = if decide (c = c') then true else is_exposed g c')
    as Hexp_g'.
  { intros c'. unfold is_exposed, g'. simpl.
    destruct Hc. rewrite (grid_get_set w h) by done.
    destruct c, c'. simpl. done. }
  assert (exposed_cells g' = exposed_cells g + 1) as Hcells.
  { apply exposed_cells_expose; [by rewrite Hw, Hh|by rewrite Hw, Hh|done]. }
  assert (p ∈ positions squares ∧ count_at gi p = 0) as [Hp Hp0].
  { apply fi_stack0. left. }
  assert (∀ stack', (∀ c', c' ∈ stack' → c' = c ∧ count_at gi c = 0 ∨ c' ∈ stack) →
                    (count_at gi c = 0 → c ∈ stack') →
                    (∀ c', c' ∈ stack → c' ∈ stack') →
                    flood_inv [p] g' (squares ++ [s]) stack') as Hinv.
  { intros stack' Hstack' Hpush Hkeep. constructor.
    - by unfold same_layout, g'.
    - done.
    - done.
    - unfold g'. simpl. by apply grid_shape_set.
    - destruct fi_head0 as [rest ->]. by exists (rest ++ [s]).
    - rewrite Hposs. apply NoDup_app. split_and!; [done| |apply NoDup_singleton].
      intros c' Hc' ->%list_elem_of_singleton. done.
    - intros s' [Hs'| ->%list_elem_of_singleton]%elem_of_app; [by apply fi_fresh0|].
      rewrite Hpos. split_and!; [done..|].
      unfold s, g', count_at. simpl. by rewrite Hcounts.
    - intros c' Hc'. rewrite Hexp_g', Hposs.
      case_decide as Heq.
      + subst c'. rewrite bool_decide_eq_true_2; [by rewrite orb_true_r|].
        apply elem_of_app. right. left.
      + rewrite fi_exposed0 by done. f_equal. apply bool_decide_ext.
        rewrite elem_of_app, list_elem_of_singleton.
        split; [by left|]. intros [?|?]; [done|congruence].
    - intros c' [->%list_elem_of_singleton|Hc']%elem_of_app.
      + rewrite Hposs. split; [|done]. apply elem_of_app. by left.
      + rewrite Hposs. destruct (Hstack' c' Hc') as [[-> H0]|Hin].
        * split; [|done]. apply elem_of_app. right. left.
        * destruct (fi_stack0 c') as [? ?]; [apply elem_of_app; by right|].
          split; [|done]. apply elem_of_app. by left.
    - intros c'. rewrite Hposs.
      intros [Hc'| ->%list_elem_of_singleton]%elem_of_app.
      + eapply connected_mono; [|by apply fi_connected0].
        intros c''. simpl. rewrite elem_of_app. by left.
      + eapply connected_step; [| |].
        * eapply connected_mono; [|by apply (fi_connected0 p)].
          intros c''. simpl. rewrite elem_of_app. by left.
        * done.
        * apply elem_of_app. right. left.
    - unfold g'. simpl. rewrite fi_counter0, length_app. simpl. lia.
    - rewrite Hcells, fi_cells0, length_app. simpl. lia.
    - intros c'. rewrite Hposs.
      intros [Hc'| ->%list_elem_of_singleton]%elem_of_app Hzero.
      + destruct (fi_closed0 c' Hc' Hzero) as [Hbusy|Hcl].
        * left. apply elem_of_app in Hbusy as [Hb|Hst];
            apply elem_of_app; [by left|right; by apply Hkeep].
        * right. intros c'' Hn Hb. rewrite Hexp_g'. case_decide; [done|].
          by apply Hcl.
      + left. apply elem_of_app. right. by apply Hpush.
    - intros c'. rewrite Hposs.
      intros [Hc'| ->%list_elem_of_singleton]%elem_of_app.
      + destruct (fi_origin0 c' Hc') as [?|(z & Hz & Hz0 & Hadjz)]; [by left|].
        right. exists z. split_and!; [|done..]. apply elem_of_app. by left.
      + right. exists p. split_and!; [|done..]. apply elem_of_app. by left. }
  assert (Game._test_if_count_0 g' c.1 c.2 = bool_decide (count_at gi c = 0)) as Htest.
  { unfold Game._test_if_count_0, g', count_at. simpl. rewrite Hcounts.
    destruct (grid_get 0 (Game.counts gi) c.1 c.2 =? 0) eqn:E.
    - rewrite bool_decide_eq_true_2; [done|lia].
    - rewrite bool_decide_eq_false_2; [done|lia]. }
  rewrite Htest. case_bool_decide as Hzero.
  - split_and!.
    + apply Hinv.
      * intros c' [->|?]%elem_of_cons; [left; by destruct c|by right].
      * intros _. destruct c; left.
      * intros c' ?. by right.
    + intros _. rewrite Hexp_g'. by rewrite decide_True.
    + rewrite Hcells. simpl. lia.
    + intros c' Hc'. rewrite Hexp_g'. by case_decide.
  - split_and!.
    + apply Hinv; [by right|done|done].
    + intros _. rewrite Hexp_g'. by rewrite decide_True.
    + rewrite Hcells. lia.
    + intros c' Hc'. rewrite Hexp_g'. by case_decide.
Qed.

Lemma flood_inv_pop p g squares stack :
  flood_inv [] g squares (p :: stack) → flood_inv [p] g squares stack.
Proof. intros []. by constructor. Qed.

Lemma flood_inv_done p g squares stack :
  flood_inv [p] g squares stack →
  (∀ c, c ∈ neighbors p → in_board w h c → is_exposed g c = true) →
  flood_inv [] g squares stack.
Proof.
  intros [] Hp. constructor; try done.
  - intros c Hc. apply fi_stack0. by right.
  - intros c Hc Hzero.
    destruct (fi_closed0 c Hc Hzero) as [[->%list_elem_of_singleton|?]%elem_of_app|?];
      [by right|by left|by right].
Qed.

(** One round of the [while] loop. *)
Lemma expose_neighbors_inv p g squares stack :
  flood_inv [] g squares (p :: stack) →
  ∃ g' squares' stack',
    fold_left expose_neighbor (neighbors p) (g, squares, stack) = (g', squares', stack')
    ∧ flood_inv [] g' squares' stack'
    ∧ Z.of_nat (length stack') - exposed_cells g'
      ≤ Z.of_nat (length stack) - exposed_cells g.
Proof.
  intros HI%flood_inv_pop.
  set (I := λ st : Game.t * list Square.t * list (Z * Z),
         flood_inv [p] st.1.1 st.1.2 st.2
         ∧ Z.of_nat (length st.2) - exposed_cells st.1.1
           ≤ Z.of_nat (length stack) - exposed_cells g).
  set (Q := λ (c : Z * Z) (st : Game.t * list Square.t * list (Z * Z)),
         in_board w h c → is_exposed st.1.1 c = true).
  destruct (fold_left_invariant_each expose_neighbor I Q (neighbors p)
              (g, squares, stack)) as [[Hinv Hm] Hall].
  - intros [[g1 sq1] stk1] c Hc [HI1 Hm1]. simpl in HI1, Hm1.
    pose proof (expose_neighbor_inv p g1 sq1 stk1 c Hc HI1) as Hstep.
    unfold I, Q. destruct (expose_neighbor (g1, sq1, stk1) c) as [[g2 sq2] stk2].
    simpl. destruct Hstep as (? & ? & ? & ?). split_and!; [done|lia|auto].
  - intros [[g1 sq1] stk1] a c Hc [HI1 Hm1] Ha. simpl in HI1, Hm1.
    pose proof (expose_neighbor_inv p g1 sq1 stk1 c Hc HI1) as Hstep.
    unfold Q in *. destruct (expose_neighbor (g1, sq1, stk1) c) as [[g2 sq2] stk2].
    simpl in *. destruct Hstep as (? & ? & ? & Hmono). intros Hb. by apply Hmono, Ha.
  - split; [done|simpl; lia].
  - destruct (fold_left expose_neighbor (neighbors p) (g, squares, stack))
      as [[g' squares'] stack']. simpl in *.
    exists g', squares', stack'. split_and!; [done| |done].
    eapply flood_inv_done; [done|]. intros c Hc. by apply (Hall c).
Qed.

(** The loop ends before its budget does, and keeps the invariant. *)
Lemma update_loop_inv fuel g squares stack :
  flood_inv [] g squares stack →
  Z.of_nat (length stack) + w * h - exposed_cells g ≤ Z.of_nat fuel →
  ∃ g' squares',
    Game._update_loop fuel (g, squares, stack) = Returns (g', squares')
    ∧ flood_inv [] g' squares' [].
Proof.
  revert g squares stack.
  induction fuel as [|fuel IH]; intros g squares stack HI Hfuel.
  - destruct stack as [|p stack]; [by exists g, squares|]. exfalso.
    assert (in_board w h p) as [Hx Hy].
    { destruct (fi_stack _ _ _ _ HI p) as [Hp _]; [left|].
      apply list_elem_of_fmap in Hp as (s & -> & Hs).
      by apply (fi_fresh _ _ _ _ HI). }
    destruct (fi_layout _ _ _ _ HI) as (Hw & Hh & _).
    pose proof (exposed_cells_le g) as Hle.
    rewrite Hw, Hh in Hle. fold w h in Hle. simpl in Hfuel. lia.
  - destruct stack as [|[x y] stack]; [by exists g, squares|].
    rewrite update_loop_unfold.
    destruct (expose_neighbors_inv (x, y) g squares stack HI)
      as (g1 & sq1 & stk1 & -> & HI1 & Hm).
    apply IH; [done|]. simpl length in Hfuel. lia.
Qed.
End flood.

(** ** What a successful [select] does *)

Record select_post (g : Game.t) (c0 : Z * Z) (squares : list Square.t)
    (g' : Game.t) : Prop := {
  sp_layout : same_layout g g';
  sp_moves : Game.num_moves g' = Game.num_moves g + 1;
  sp_explosion : Game._explosion g' = Game._explosion g || is_mine g c0;
  sp_shape : well_shaped g';
  sp_head : ∃ rest, squares = Square.mk c0.1 c0.2 (count_at g c0) :: rest;
  sp_single : is_mine g c0 = true ∨ count_at g c0 ≠ 0 →
    squares = [Square.mk c0.1 c0.2 (count_at g c0)];
  sp_nodup : NoDup (positions squares);
  sp_fresh : ∀ s, s ∈ squares →
    in_board (Game.width g) (Game.height g) (Square.pos s)
    ∧ is_exposed g (Square.pos s) = false
    ∧ Square.num_mines s = count_at g (Square.pos s);
  sp_exposed : ∀ c, in_board (Game.width g) (Game.height g) c →
    is_exposed g' c = is_exposed g c || bool_decide (c ∈ positions squares);
  sp_connected : ∀ c, c ∈ positions squares →
    connected (λ c', c' ∈ positions squares) c0 c;
  sp_counter : Game._num_exposed_squares g'
               = Game._num_exposed_squares g + Z.of_nat (length squares);
  sp_cells : exposed_cells g' = exposed_cells g + Z.of_nat (length squares);
  sp_closed : is_mine g c0 = false →
    ∀ c, c ∈ positions squares → count_at g c = 0 →
    ∀ c', c' ∈ neighbors c → in_board (Game.width g) (Game.height g) c' →
    is_exposed g' c' = true;
  sp_origin : ∀ c, c ∈ positions squares →
    c = c0 ∨ ∃ z, z ∈ positions squares ∧ count_at g z = 0 ∧ adjacent z c
}.

Lemma flood_inv_start g x y :
  well_shaped g →
  in_board (Game.width g) (Game.height g) (x, y) →
  is_exposed g (x, y) = false →
  count_at g (x, y) = 0 →
  flood_inv g (x, y) [] (Game._expose_square g x y)
    [Square.mk x y (count_at g (x, y))] [(x, y)].
Proof.
  intros (Hse & Hsc & Hsm) Hin Hexp Hzero.
  assert (∀ c', is_exposed (Game._expose_square g x y) c'
                = if decide ((x, y) = c') then true else is_exposed g c') as Hexp'.
  { intros [x' y']. unfold is_exposed. simpl. destruct Hin.
    by rewrite (grid_get_set (Game.width g) (Game.height g)). }
  assert (∀ c : Z * Z, c ∈ positions [Square.mk x y (count_at g (x, y))] ↔ c = (x, y))
    as Hpos.
  { intros c. unfold positions. simpl. apply list_elem_of_singleton. }
  constructor.
  - by unfold same_layout.
  - done.
  - done.
  - simpl. by apply grid_shape_set.
  - by exists [].
  - apply NoDup_singleton.
  - intros s ->%list_elem_of_singleton. by split_and!.
  - intros c Hc. rewrite Hexp'. case_decide as Heq.
    + subst c. rewrite bool_decide_eq_true_2; [by rewrite orb_true_r|by apply Hpos].
    + rewrite bool_decide_eq_false_2; [by rewrite orb_false_r|].
      rewrite Hpos. congruence.
  - intros c ->%list_elem_of_singleton. split; [by apply Hpos|done].
  - intros c ->%Hpos. apply connected_refl. by apply Hpos.
  - simpl. lia.
  - rewrite exposed_cells_expose_xy by done. simpl. lia.
  - intros c ->%Hpos _. left. left.
  - intros c ->%Hpos. by left.
Qed.

(** [select] on a square of the board that is not exposed, in a game that
    has not exploded: the call returns, and [select_post] describes the
    records and the game after it. *)
Lemma select_returns g x y :
  well_shaped g →
  in_board (Game.width g) (Game.height g) (x, y) →
  Game._explosion g = false →
  is_exposed g (x, y) = false →
  ∃ squares g',
    Game.select g x y
    = (Returns (MoveResult.mk (Game.status g') (list_to_set squares)), g')
    ∧ Game._update (Game.incr_num_moves g) x y = (Returns squares, g')
    ∧ select_post g (x, y) squares g'.
Proof.
  intros Hshape Hin Hexpl Hexp.
  unfold Game.select.
  rewrite (proj2 (in_board_outside g x y) Hin), Hexpl.
  change (grid_get false (Game.exposed g) x y) with (is_exposed g (x, y)).
  rewrite Hexp.
  set (gi := Game.incr_num_moves g).
  assert (well_shaped gi) as Hshapei by done.
  set (s0 := Square.mk x y (count_at g (x, y))).
  assert (∀ c : Z * Z, c ∈ positions [s0] ↔ c = (x, y)) as Hpos.
  { intros c. unfold positions. simpl. apply list_elem_of_singleton. }
  assert (∀ c', is_exposed (Game._expose_square gi x y) c'
                = if decide ((x, y) = c') then true else is_exposed g c') as Hexp'.
  { intros [x' y']. unfold is_exposed. simpl. destruct Hin, Hshape as (? & _).
    by rewrite (grid_get_set (Game.width g) (Game.height g)). }
  assert (∀ g', same_layout g g' →
            Game.num_moves g' = Game.num_moves g + 1 →
            Game._explosion g' = is_mine g (x, y) →
            Game.exposed g' = Game.exposed (Game._expose_square gi x y) →
            Game._num_exposed_squares g' = Game._num_exposed_squares g + 1 →
            is_mine g (x, y) = true ∨ count_at g (x, y) ≠ 0 →
            select_post g (x, y) [s0] g') as Hsingle.
  { intros g' Hlay Hmv Hex Hexposed Hctr Hcase.
    assert (∀ c', is_exposed g' c' = if decide ((x, y) = c') then true else is_exposed g c')
      as Hexpg'.
    { intros c'. rewrite <- Hexp'. unfold is_exposed. by rewrite Hexposed. }
    destruct Hlay as (Hw & Hh & Hnm & Hq & Hsafe & Hcounts & Hmines).
    constructor.
    - by unfold same_layout.
    - done.
    - by rewrite Hexpl.
    - destruct Hshape as (Hse & Hsc & Hsm).
      unfold well_shaped. rewrite Hw, Hh, Hcounts, Hmines, Hexposed.
      split_and!; [|done..]. simpl. by apply grid_shape_set.
    - by exists [].
    - done.
    - apply NoDup_singleton.
    - intros s ->%list_elem_of_singleton. by split_and!.
    - intros c Hc. rewrite Hexpg'. case_decide as Heq.
      + subst c. rewrite bool_decide_eq_true_2; [by rewrite orb_true_r|by apply Hpos].
      + rewrite bool_decide_eq_false_2; [by rewrite orb_false_r|].
        rewrite Hpos. congruence.
    - intros c ->%Hpos. apply connected_refl. by apply Hpos.
    - simpl. lia.
    - unfold exposed_cells. rewrite Hw, Hh.
      rewrite (length_filter_flip _ (λ c, is_exposed g c = true) _ (x, y)).
      + simpl. lia.
      + apply NoDup_board.
      + by apply elem_of_board.
      + rewrite Hexpg'. by rewrite decide_True.
      + by rewrite Hexp.
      + intros a Ha. rewrite Hexpg'. rewrite decide_False; [done|congruence].
    - intros Hnomine c ->%Hpos Hzero. destruct Hcase; congruence.
    - intros c ->%Hpos. by left. }
  unfold Game._update.
  change (grid_get false (Game.mines (Game._expose_square gi x y)) x y)
    with (is_mine g (x, y)).
  change (grid_get 0 (Game.counts (Game._expose_square gi x y)) x y)
    with (count_at g (x, y)).
  fold s0.
  destruct (is_mine g (x, y)) eqn:Hmine.
  { eexists [s0], _. split_and!; [done..|].
    apply Hsingle; try done. by left. }
  destruct (count_at g (x, y) =? 0) eqn:Hzero; cbn [negb].
  2:{ eexists [s0], _. split_and!; [done..|].
      apply Hsingle; try done. right. lia. }
  apply Z.eqb_eq in Hzero.
  destruct (update_loop_inv gi (x, y)
              (Z.to_nat (Game.width gi * Game.height gi))
              (Game._expose_square gi x y) [s0] [(x, y)])
    as (g' & squares' & Hloop & HI).
  { unfold s0. change (count_at g (x, y)) with (count_at gi (x, y)).
    by apply flood_inv_start. }
  { rewrite exposed_cells_expose_xy; [|by destruct Hshapei|done..].
    destruct Hin. simpl in *.
    pose proof (exposed_cells_le gi). simpl in *. lia. }
  rewrite Hloop. exists squares', g'. split_and!; [reflexivity..|].
  destruct HI.
  destruct fi_layout0 as (Hw & Hh & Hnm & Hq & Hsafe & Hcounts & Hmines).
  constructor; try done.
  - by rewrite fi_explosion0, Hmine, Hexpl.
  - destruct Hshape as (Hse & Hsc & Hsm).
    unfold well_shaped. rewrite Hw, Hh, Hcounts, Hmines. done.
  - intros [|]; congruence.
  - intros _ c Hc Hz.
    destruct (fi_closed0 c Hc Hz) as [Hbusy|?]; [|done].
    by apply not_elem_of_nil in Hbusy.
Qed.

(** ** Construction: [_init_counts] *)

(** The body of the inner loop of [_init_counts], as a function of the
    neighbour [c'] of [c]. *)
Definition count_neighbor (c : Z * Z) (g : Game.t) (c' : Z * Z) : Game.t :=
  if negb (Game._is_outside_board g c'.1 c'.2) then
    Game.set_counts g
      (grid_set (Game.counts g) c.1 c.2
         (grid_get 0 (Game.counts g) c.1 c.2
          + Game.bool_to_Z (grid_get false (Game.mines g) c'.1 c'.2)))
  else g.

Arguments count_neighbor : simpl never.

Lemma fold_init_counts_cell x y g :
  fold_left (Game._init_counts_cell x y) deltas g
  = fold_left (count_neighbor (x, y)) (neighbors (x, y)) g.
Proof.
  rewrite <- deltas_neighbors. generalize deltas. intros ds. revert g.
  induction ds as [|[dx dy] ds IH]; intros g; [done|]. simpl.
  rewrite filter_cons. destruct (decide ((dx, dy) = (0, 0))) as [[= -> ->]|Hd].
  - rewrite decide_False by (intros ?; done). simpl. apply IH.
  - rewrite decide_True by done. simpl. rewrite <- IH. f_equal.
    replace ((dx =? 0) && (dy =? 0)) with false; [done|].
    symmetry. apply andb_false_iff.
    destruct (decide (dx = 0)) as [->|?]; [right|left]; [|lia].
    apply Z.eqb_neq. congruence.
Qed.

Lemma count_neighbors_fold c l g :
  grid_shape (Game.width g) (Game.height g) (Game.counts g) →
  in_board (Game.width g) (Game.height g) c →
  ∃ cnt,
    fold_left (count_neighbor c) l g = Game.set_counts g cnt
    ∧ grid_shape (Game.width g) (Game.height g) cnt
    ∧ grid_get 0 cnt c.1 c.2
      = count_at g c
        + Z.of_nat (length (filter
            (λ c', in_board (Game.width g) (Game.height g) c' ∧ is_mine g c' = true) l))
    ∧ ∀ c', c' ≠ c → grid_get 0 cnt c'.1 c'.2 = count_at g c'.
Proof.
  revert g. induction l as [|c' l IH]; intros g Hs Hc.
  - exists (Game.counts g).
    split_and!; [by destruct g|done|rewrite filter_nil; unfold count_at; simpl; lia|done].
  - simpl. rewrite filter_cons.
    unfold count_neighbor at 2.
    destruct (Game._is_outside_board g c'.1 c'.2) eqn:Hout; simpl.
    + destruct (IH g Hs Hc) as (cnt & -> & ? & Hcnt & ?).
      exists cnt. split_and!; [done..| |done].
      rewrite Hcnt. rewrite decide_False; [done|].
      intros [Hin _]. destruct c' as [x' y'].
      apply in_board_outside in Hin. simpl in Hout. congruence.
    + assert (in_board (Game.width g) (Game.height g) c') as Hc'.
      { destruct c' as [x' y']. by apply in_board_outside. }
      set (g1 := Game.set_counts g _).
      destruct (IH g1) as (cnt & -> & ? & Hcnt & Hother).
      { unfold g1. simpl. by apply grid_shape_set. }
      { done. }
      exists cnt. split_and!; [done..| |].
      * rewrite Hcnt. unfold count_at at 1. unfold g1 at 1. simpl.
        destruct Hc. rewrite (grid_get_set_eq (Game.width g) (Game.height g)) by done.
        change (is_mine g1) with (is_mine g).
        change (grid_get false (Game.mines g) c'.1 c'.2) with (is_mine g c').
        unfold count_at. destruct (is_mine g c') eqn:Hm.
        -- rewrite decide_True by done. simpl length. simpl Game.bool_to_Z. lia.
        -- rewrite decide_False by (intros [_ ?]; done). simpl Game.bool_to_Z. lia.
      * intros c'' Hne. rewrite Hother by done. unfold count_at, g1. simpl.
        apply grid_get_set_ne. destruct c, c''. simpl. congruence.
Qed.

Lemma init_counts_fold l g :
  NoDup l →
  (∀ c, c ∈ l → in_board (Game.width g) (Game.height g) c) →
  grid_shape (Game.width g) (Game.height g) (Game.counts g) →
  ∃ cnt,
    fold_left (λ g '(x, y), fold_left (Game._init_counts_cell x y) deltas g) l g
    = Game.set_counts g cnt
    ∧ grid_shape (Game.width g) (Game.height g) cnt
    ∧ ∀ c, grid_get 0 cnt c.1 c.2
           = if decide (c ∈ l) then count_at g c + neighbor_mines g c else count_at g c.
Proof.
  intros Hnd. revert g. induction Hnd as [|[x y] l Hc Hnd IH]; intros g Hin Hs.
  - exists (Game.counts g). split_and!; [by destruct g|done|].
    intros c. rewrite decide_False; [done|apply not_elem_of_nil].
  - cbn [fold_left]. rewrite fold_init_counts_cell.
    destruct (count_neighbors_fold (x, y) (neighbors (x, y)) g) as (cnt1 & -> & Hs1 & Hc1 & Ho1).
    { done. }
    { apply Hin. left. }
    destruct (IH (Game.set_counts g cnt1)) as (cnt & -> & Hs' & Hcnt).
    { intros c ?. apply Hin. by right. }
    { done. }
    exists cnt. split_and!; [done..|].
    intros c. rewrite Hcnt. unfold count_at. simpl.
    destruct (decide (c = (x, y))) as [->|Hne].
    + rewrite decide_False by done. rewrite decide_True by left.
      simpl in Hc1 |- *. rewrite Hc1. done.
    + rewrite Ho1 by done. unfold count_at.
      destruct (decide (c ∈ l)) as [Hl|Hl].
      * rewrite decide_True by (by right). done.
      * rewrite decide_False; [done|].
        intros [?|?]%elem_of_cons; done.
Qed.

Lemma init_counts_correct g :
  grid_shape (Game.width g) (Game.height g) (Game.counts g) →
  (∀ c, in_board (Game.width g) (Game.height g) c → count_at g c = 0) →
  ∃ cnt,
    Game._init_counts g = Game.set_counts g cnt
    ∧ grid_shape (Game.width g) (Game.height g) cnt
    ∧ counts_correct (Game.set_counts g cnt).
Proof.
  intros Hs Hzero. unfold Game._init_counts.
  destruct (init_counts_fold (board (Game.width g) (Game.height g)) g)
    as (cnt & Heq & Hs' & Hcnt).
  - apply NoDup_board.
  - intros c. apply elem_of_board.
  - done.
  - exists cnt. split_and!; [done..|].
    intros c Hc. unfold count_at. simpl. simpl in Hc.
    rewrite Hcnt, decide_True by (by apply elem_of_board).
    rewrite Hzero by done. rewrite Z.add_0_l. reflexivity.
Qed.

(** ** Construction: [_place_mines] and [__init__] *)

Lemma length_filter_set (X : gset (Z * Z)) (l : list (Z * Z)) :
  NoDup l → (∀ c, c ∈ X → c ∈ l) →
  length (filter (λ c, c ∈ X) l) = size X.
Proof.
  intros Hnd Hsub. unfold size, set_size. simpl.
  apply Permutation_length, NoDup_Permutation.
  - by apply NoDup_filter.
  - apply NoDup_elements.
  - intros c. rewrite list_elem_of_filter, elem_of_elements.
    split; [by intros [? _]|]. intros Hc. split; [done|by apply Hsub].
Qed.

Lemma size_insert_le (c : Z * Z) (X : gset (Z * Z)) :
  (size ({[c]} ∪ X) ≤ S (size X))%nat.
Proof.
  rewrite size_union_alt, size_singleton.
  assert (X ∖ {[c]} ⊆ X) as Hsub by set_solver.
  apply subseteq_size in Hsub. lia.
Qed.

(** The loop stops with exactly [n] locations, all of them drawn. *)
Lemma place_mines_loop_returns n draws locations locations' :
  Z.of_nat (size locations) ≤ n →
  Game._place_mines_loop n draws locations = Returns locations' →
  Z.of_nat (size locations') = n
  ∧ ∀ c, c ∈ locations' → c ∈ locations ∨ c ∈ draws.
Proof.
  revert locations. induction draws as [|[x y] draws IH]; intros locations Hle; simpl.
  - destruct (Z.of_nat (size locations) <? n) eqn:Hlt; [done|].
    intros [= <-]. split; [lia|by left].
  - destruct (Z.of_nat (size locations) <? n) eqn:Hlt.
    + intros Hret. apply IH in Hret as [Hsize Hin].
      * split; [done|]. intros c Hc.
        destruct (Hin c Hc) as [[->%elem_of_singleton|?]%elem_of_union|?];
          [right; left|by left|right; by right].
      * pose proof (size_insert_le (x, y) locations). lia.
    + intros [= <-]. split; [lia|by left].
Qed.

(** It stops as soon as the draws hold enough distinct squares. *)
Lemma place_mines_loop_total n draws locations :
  n ≤ Z.of_nat (size (locations ∪ list_to_set draws)) →
  ∃ locations', Game._place_mines_loop n draws locations = Returns locations'.
Proof.
  revert locations. induction draws as [|[x y] draws IH]; intros locations Hn; simpl.
  - destruct (Z.of_nat (size locations) <? n) eqn:Hlt; [|by eexists].
    exfalso. replace (locations ∪ list_to_set []) with locations in Hn by set_solver.
    lia.
  - destruct (Z.of_nat (size locations) <? n) eqn:Hlt; [|by eexists].
    apply IH.
    replace ({[(x, y)]} ∪ locations ∪ list_to_set draws)
      with (locations ∪ list_to_set ((x, y) :: draws)) by set_solver.
    done.
Qed.

Lemma place_mines_fold (l : list (Z * Z)) g :
  grid_shape (Game.width g) (Game.height g) (Game.mines g) →
  (∀ c, c ∈ l → in_board (Game.width g) (Game.height g) c) →
  ∃ m,
    fold_left (λ g location,
                 Game.set_mines g (grid_set (Game.mines g) location.1 location.2 true)) l g
    = Game.set_mines g m
    ∧ grid_shape (Game.width g) (Game.height g) m
    ∧ ∀ c, grid_get false m c.1 c.2 = if decide (c ∈ l) then true else is_mine g c.
Proof.
  revert g. induction l as [|c0 l IH]; intros g Hs Hin.
  - exists (Game.mines g). split_and!; [by destruct g|done|].
    intros c. rewrite decide_False; [done|apply not_elem_of_nil].
  - cbn [fold_left].
    destruct (IH (Game.set_mines g (grid_set (Game.mines g) c0.1 c0.2 true)))
      as (m & -> & Hs' & Hm).
    { simpl. by apply grid_shape_set. }
    { intros c ?. apply Hin. by right. }
    exists m. split_and!; [done..|].
    intros c. rewrite Hm. unfold is_mine. simpl.
    destruct (Hin c0) as [Hx Hy]; [left|].
    rewrite (grid_get_set (Game.width g) (Game.height g)) by done.
    destruct (decide (c ∈ l)) as [Hl|Hl].
    + rewrite decide_True; [done|by right].
    + destruct (decide ((c0.1, c0.2) = (c.1, c.2))) as [Heq|Hne].
      * rewrite decide_True; [done|].
        assert (c = c0) as -> by (destruct c, c0; simpl in *; congruence). left.
      * rewrite decide_False; [done|].
        intros [->|?]%elem_of_cons; done.
Qed.

(** A layout given to [Game(config, mines)]: of the configured shape,
    with [num_mines] mines; and draws of [random.randint] in their range. *)
Definition layout_mines (w h : Z) (m : list (list bool)) : Z :=
  Z.of_nat (length (filter (λ c : Z * Z, grid_get false m c.1 c.2 = true) (board w h))).

Definition valid_setup (config : GameConfig.t) (mines : option (list (list bool)))
    (draws : list (Z * Z)) : Prop :=
  0 < GameConfig.width config ∧ 0 < GameConfig.height config
  ∧ 0 ≤ GameConfig.num_mines config
      < GameConfig.width config * GameConfig.height config
  ∧ match mines with
    | Some m =>
        grid_shape (GameConfig.width config) (GameConfig.height config) m
        ∧ layout_mines (GameConfig.width config) (GameConfig.height config) m
          = GameConfig.num_mines config
    | None => True
    end
  ∧ ∀ c, c ∈ draws → in_board (GameConfig.width config) (GameConfig.height config) c.

(** The game as [__init__] leaves it. *)
Record fresh_game (config : GameConfig.t) (g : Game.t) : Prop := {
  fg_width : Game.width g = GameConfig.width config;
  fg_height : Game.height g = GameConfig.height config;
  fg_num_mines : Game.num_mines g = GameConfig.num_mines config;
  fg_moves : Game.num_moves g = 0;
  fg_counter : Game._num_exposed_squares g = 0;
  fg_explosion : Game._explosion g = false;
  fg_quit : Game._quit g = false;
  fg_safe : Game._num_safe_squares g
            = GameConfig.width config * GameConfig.height config
              - GameConfig.num_mines config;
  fg_shape : well_shaped g;
  fg_unexposed : ∀ c, is_exposed g c = false;
  fg_mine_cells : mine_cells g = GameConfig.num_mines config;
  fg_counts : counts_correct g
}.

Lemma grid_get_make_default {A} (w h : Z) (v : A) x y :
  grid_get v (grid_make w h v) x y = v.
Proof.
  unfold grid_get, grid_lookup, grid_make.
  destruct ((x <? 0) || (y <? 0)); [done|].
  destruct (replicate (Z.to_nat w) (replicate (Z.to_nat h) v) !! Z.to_nat x)
    as [col|] eqn:Hcol; [|done].
  apply lookup_replicate in Hcol as [-> _].
  destruct (replicate (Z.to_nat h) v !! Z.to_nat y) as [v'|] eqn:Hv; [|done].
  by apply lookup_replicate in Hv as [-> _].
Qed.

Lemma init_fresh config mines draws g :
  valid_setup config mines draws →
  Game.__init__ config mines draws = Returns g →
  fresh_game config g.
Proof.
  intros (Hw & Hh & Hn & Hlayout & Hdraws). unfold Game.__init__.
  set (w := GameConfig.width config) in *.
  set (h := GameConfig.height config) in *.
  set (n := GameConfig.num_mines config) in *.
  set (g0 := Game.mk w h n 0 0 false false (w * h - n)
               (grid_make w h false) (grid_make w h 0) []).
  assert (∀ m, grid_shape w h m → layout_mines w h m = n →
               fresh_game config (Game._init_counts (Game.set_mines g0 m))) as Hfresh.
  { intros m Hm Hcount.
    destruct (init_counts_correct (Game.set_mines g0 m)) as (cnt & -> & Hcnt & Hcorrect).
    { apply grid_shape_make. }
    { intros c _. unfold count_at. simpl. apply grid_get_make_default. }
    constructor; try done.
    - split_and!; simpl; [apply grid_shape_make|done..].
    - intros c. unfold is_exposed. simpl. apply grid_get_make_default. }
  destruct mines as [[|col cols]|].
  - destruct Hlayout as [[Hlen _] _]. simpl in Hlen. lia.
  - destruct Hlayout as [Hshape Hcount]. simpl. intros [= <-]. by apply Hfresh.
  - unfold Game._place_mines. simpl Game.num_mines.
    destruct (Game._place_mines_loop n draws ∅) as [locations| |] eqn:Hloop; [|done..].
    simpl. intros [= <-].
    apply place_mines_loop_returns in Hloop as [Hsize Hsub];
      [|rewrite size_empty; lia].
    destruct (place_mines_fold (elements locations)
                (Game.set_mines g0 (grid_make w h false))) as (m & -> & Hm & Hget).
    { apply grid_shape_make. }
    { intros c Hc%elem_of_elements. simpl.
      destruct (Hsub c Hc) as [?%not_elem_of_empty|?]; [done|by apply Hdraws]. }
    apply Hfresh; [done|].
    rewrite <- Hsize. unfold layout_mines. f_equal.
    rewrite <- (length_filter_set locations (board w h)).
    + apply length_filter_iff. intros c _. rewrite Hget.
      unfold is_mine. simpl. rewrite grid_get_make_default.
      case_decide as Hc; rewrite elem_of_elements in Hc; [done|].
      split; [done|]. intros ?. done.
    + apply NoDup_board.
    + intros c Hc. apply elem_of_board.
      destruct (Hsub c Hc) as [?%not_elem_of_empty|?]; [done|by apply Hdraws].
Qed.

(** ** The invariant of a game in play *)

Definition mine_exposed (g : Game.t) : Prop :=
  ∃ c, in_board (Game.width g) (Game.height g) c
       ∧ is_exposed g c = true ∧ is_mine g c = true.

Record game_inv (g : Game.t) : Prop := {
  inv_size : 0 < Game.width g ∧ 0 < Game.height g;
  inv_shape : well_shaped g;
  inv_counts : counts_correct g;
  inv_mines : mine_cells g = Game.num_mines g;
  inv_safe : Game._num_safe_squares g
             = Game.width g * Game.height g - Game.num_mines g;
  inv_counter : Game._num_exposed_squares g = exposed_cells g;
  inv_explosion : Game._explosion g = true ↔ mine_exposed g
}.

Lemma fresh_game_inv config mines draws g :
  valid_setup config mines draws → fresh_game config g → game_inv g.
Proof.
  intros (Hw & Hh & Hn & _) []. constructor.
  - by rewrite fg_width0, fg_height0.
  - done.
  - done.
  - by rewrite fg_num_mines0.
  - by rewrite fg_width0, fg_height0, fg_num_mines0.
  - rewrite fg_counter0. unfold exposed_cells.
    rewrite (proj2 (length_zero_iff_nil _)); [done|].
    induction (board (Game.width g) (Game.height g)) as [|c l IH]; [done|].
    rewrite filter_cons, decide_False; [done|]. by rewrite fg_unexposed0.
  - rewrite fg_explosion0. split; [done|].
    intros (c & _ & Hc & _). by rewrite fg_unexposed0 in Hc.
Qed.

(** Around a square that counts no mine there is none. *)
Lemma zero_count_neighbors_safe g z c :
  counts_correct g →
  in_board (Game.width g) (Game.height g) z →
  count_at g z = 0 →
  adjacent z c →
  in_board (Game.width g) (Game.height g) c →
  is_mine g c = false.
Proof.
  intros Hcounts Hz Hzero Hadj Hc.
  rewrite Hcounts in Hzero by done. unfold neighbor_mines in Hzero.
  destruct (is_mine g c) eqn:Hm; [|done]. exfalso.
  assert (c ∈ filter (λ c', in_board (Game.width g) (Game.height g) c'
                            ∧ is_mine g c' = true) (neighbors z)) as Hin.
  { apply list_elem_of_filter. by split_and!. }
  destruct (filter _ (neighbors z)); [by apply not_elem_of_nil in Hin|].
  simpl in Hzero. lia.
Qed.

Lemma same_layout_counts g g' :
  same_layout g g' → counts_correct g → counts_correct g'.
Proof.
  intros (Hw & Hh & _ & _ & _ & Hc & Hm) Hcounts c.
  unfold count_at, neighbor_mines, is_mine. rewrite Hw, Hh, Hc, Hm. apply Hcounts.
Qed.

Lemma same_layout_mine_cells g g' :
  same_layout g g' → mine_cells g' = mine_cells g.
Proof.
  intros (Hw & Hh & _ & _ & _ & Hc & Hm).
  unfold mine_cells, is_mine. by rewrite Hw, Hh, Hm.
Qed.

Lemma same_layout_is_mine g g' c :
  same_layout g g' → is_mine g' c = is_mine g c.
Proof. intros (_ & _ & _ & _ & _ & _ & Hm). unfold is_mine. by rewrite Hm. Qed.

(** The squares a [select] exposes besides the selected one hold no
    mine. *)
Lemma select_post_safe g c0 squares g' c :
  counts_correct g → select_post g c0 squares g' →
  c ∈ positions squares → c ≠ c0 → is_mine g c = false.
Proof.
  intros Hcounts Hpost Hc Hne.
  assert (∀ c, c ∈ positions squares → in_board (Game.width g) (Game.height g) c)
    as Hboard.
  { intros c' (s & -> & Hs)%list_elem_of_fmap. by apply (sp_fresh _ _ _ _ Hpost). }
  destruct (sp_origin _ _ _ _ Hpost c Hc) as [?|(z & Hz & Hz0 & Hadj)]; [done|].
  eapply zero_count_neighbors_safe; eauto.
Qed.

Lemma select_preserves_inv g x y :
  game_inv g → game_inv (Game.select g x y).2.
Proof.
  intros Hinv.
  destruct (Game._is_outside_board g x y) eqn:Hout.
  { unfold Game.select. by rewrite Hout. }
  destruct (Game._explosion g) eqn:Hexpl.
  { unfold Game.select. by rewrite Hout, Hexpl. }
  destruct (is_exposed g (x, y)) eqn:Hexp.
  { unfold Game.select. rewrite Hout, Hexpl.
    change (grid_get false (Game.exposed g) x y) with (is_exposed g (x, y)).
    by rewrite Hexp. }
  apply in_board_outside in Hout.
  destruct (select_returns g x y) as (squares & g' & -> & _ & Hpost);
    [by destruct Hinv|done..|].
  simpl. destruct Hinv.
  pose proof (sp_layout _ _ _ _ Hpost) as Hlay.
  destruct (Hlay) as (Hw & Hh & Hnm & Hq & Hsafe & Hcounts & Hmines).
  assert ((x, y) ∈ positions squares) as Hhead.
  { destruct (sp_head _ _ _ _ Hpost) as [rest ->]. left. }
  constructor.
  - by rewrite Hw, Hh.
  - by apply (sp_shape _ _ _ _ Hpost).
  - by eapply same_layout_counts.
  - by rewrite (same_layout_mine_cells g g'), Hnm.
  - by rewrite Hw, Hh, Hnm, Hsafe.
  - rewrite (sp_counter _ _ _ _ Hpost), (sp_cells _ _ _ _ Hpost). lia.
  - rewrite (sp_explosion _ _ _ _ Hpost), Hexpl. simpl. split.
    + intros Hmine. exists (x, y). rewrite Hw, Hh. split_and!; [done| |].
      * rewrite (sp_exposed _ _ _ _ Hpost) by done.
        rewrite bool_decide_eq_true_2 by done. apply orb_true_r.
      * by rewrite (same_layout_is_mine g g').
    + intros (c & Hc & Hcexp & Hcmine). rewrite Hw, Hh in Hc.
      rewrite (same_layout_is_mine g g') in Hcmine by done.
      rewrite (sp_exposed _ _ _ _ Hpost) in Hcexp by done.
      apply orb_true_iff in Hcexp as [Hcexp|Hcin].
      * assert (mine_exposed g) as Hme by (by exists c).
        apply inv_explosion0 in Hme. congruence.
      * apply bool_decide_eq_true in Hcin.
        destruct (decide (c = (x, y))) as [->|Hne]; [done|].
        rewrite (select_post_safe g (x, y) squares g' c) in Hcmine; done.
Qed.

Lemma quit_preserves_inv g : game_inv g → game_inv (Game.quit g).
Proof. intros []. by constructor. Qed.

Lemma step_preserves_inv g c : game_inv g → game_inv (step g c).
Proof.
  destruct c as [x y|]; [apply select_preserves_inv|apply quit_preserves_inv].
Qed.

Lemma run_preserves_inv g cs : game_inv g → game_inv (run g cs).
Proof.
  revert g. induction cs as [|c cs IH]; intros g Hinv; [done|].
  apply IH. by apply step_preserves_inv.
Qed.

(** [select] in the three cases in which it raises, and otherwise. *)
Lemma select_cases g x y :
  well_shaped g →
  (¬ in_board (Game.width g) (Game.height g) (x, y)
   ∧ Game.select g x y = (Raises (OutsideBoard x y), g))
  ∨ (in_board (Game.width g) (Game.height g) (x, y)
     ∧ Game._explosion g = true
     ∧ Game.select g x y = (Raises AlreadyOver, g))
  ∨ (in_board (Game.width g) (Game.height g) (x, y)
     ∧ Game._explosion g = false
     ∧ is_exposed g (x, y) = true
     ∧ Game.select g x y = (Raises AlreadyExposed, g))
  ∨ (in_board (Game.width g) (Game.height g) (x, y)
     ∧ Game._explosion g = false
     ∧ is_exposed g (x, y) = false
     ∧ ∃ squares g',
         Game.select g x y
         = (Returns (MoveResult.mk (Game.status g') (list_to_set squares)), g')
         ∧ select_post g (x, y) squares g').
Proof.
  intros Hshape.
  destruct (Game._is_outside_board g x y) eqn:Hout.
  { left. split.
    - intros Hin%in_board_outside. congruence.
    - unfold Game.select. by rewrite Hout. }
  right. pose proof Hout as Hin. apply in_board_outside in Hin.
  destruct (Game._explosion g) eqn:Hexpl.
  { left. split_and!; [done..|]. unfold Game.select. by rewrite Hout, Hexpl. }
  right. destruct (is_exposed g (x, y)) eqn:Hexp.
  { left. split_and!; [done..|]. unfold Game.select. rewrite Hout, Hexpl.
    change (grid_get false (Game.exposed g) x y) with (is_exposed g (x, y)).
    by rewrite Hexp. }
  right. split_and!; [done..|].
  destruct (select_returns g x y) as (squares & g' & Hsel & _ & Hpost); [done..|].
  by exists squares, g'.
Qed.

(** ** Games reached from a construction *)

Definition reachable (g : Game.t) : Prop :=
  ∃ config mines draws g0 cs,
    valid_setup config mines draws
    ∧ Game.__init__ config mines draws = Returns g0
    ∧ g = run g0 cs.

Lemma reachable_inv g : reachable g → game_inv g.
Proof.
  intros (config & mines & draws & g0 & cs & Hvalid & Hinit & ->).
  apply run_preserves_inv. eapply fresh_game_inv; [done|]. by eapply init_fresh.
Qed.

Lemma update_loop_not_raises fuel st e : Game._update_loop fuel st ≠ Raises e.
Proof.
  revert st. induction fuel as [|fuel IH]; intros [[g squares] [|[x y] stack]]; try done.
  cbn [Game._update_loop]. apply IH.
Qed.

Lemma run_app g cs cs' : run g (cs ++ cs') = run (run g cs) cs'.
Proof. apply fold_left_app. Qed.

Lemma step_quit_flag g c :
  game_inv g →
  Game._quit (step g c) = Game._quit g || bool_decide (c = Quit).
Proof.
  intros Hinv. destruct c as [x y|]; simpl; [|by rewrite orb_true_r].
  rewrite orb_false_r.
  destruct (select_cases g x y) as [[_ ->]|[(_ & _ & ->)|[(_ & _ & _ & ->)|
    (_ & _ & _ & squares & g' & -> & Hpost)]]]; [by destruct Hinv|done..|].
  simpl. by destruct (sp_layout _ _ _ _ Hpost) as (_ & _ & _ & -> & _).
Qed.

Lemma run_quit_flag g cs :
  game_inv g →
  Game._quit (run g cs) = Game._quit g || bool_decide (Quit ∈ cs).
Proof.
  revert g. induction cs as [|c cs IH]; intros g Hinv.
  - change (run g []) with g.
    rewrite bool_decide_eq_false_2; [by rewrite orb_false_r|apply not_elem_of_nil].
  - change (run g (c :: cs)) with (run (step g c) cs).
    rewrite IH by (by apply step_preserves_inv).
    rewrite step_quit_flag by done. rewrite <- orb_assoc. f_equal.
    destruct (decide (c = Quit)) as [->|Hc].
    + rewrite bool_decide_eq_true_2 by done.
      symmetry. apply bool_decide_eq_true_2. left.
    + rewrite bool_decide_eq_false_2 by done. simpl.
      apply bool_decide_ext. rewrite elem_of_cons.
      split; [by right|]. intros [?|?]; [congruence|done].
Qed.



Lemma status_cases g :
  (Game.status g = PLAYING ∧ Game.game_over g = false
   ∧ Game._explosion g = false ∧ Game._quit g = false
   ∧ Game._num_exposed_squares g ≠ Game._num_safe_squares g)
  ∨ (Game.status g = QUIT ∧ Game.game_over g = true ∧ Game._quit g = true)
  ∨ (Game.status g = DEFEAT ∧ Game.game_over g = true
     ∧ Game._quit g = false ∧ Game._explosion g = true)
  ∨ (Game.status g = VICTORY ∧ Game.game_over g = true
     ∧ Game._quit g = false ∧ Game._explosion g = false
     ∧ Game._num_exposed_squares g = Game._num_safe_squares g).
Proof.
  unfold Game.status, Game.game_over.
  destruct (Game._explosion g), (Game._quit g),
    (Z.eqb_spec (Game._num_exposed_squares g) (Game._num_safe_squares g)); simpl;
    first [ by (left; split_and!)
          | by (right; left; split_and!)
          | by (right; right; left; split_and!)
          | by (right; right; right; split_and!) ].
Qed.

(** While no mine is exposed the exposed squares hold no mine, so there
    are at most [width * height - num_mines] of them. *)
Lemma exposed_cells_bound g :
  game_inv g → Game._explosion g = false →
  exposed_cells g ≤ Game.width g * Game.height g - Game.num_mines g.
Proof.
  intros [] Hexpl. rewrite <- inv_mines0. unfold exposed_cells, mine_cells.
  rewrite <- (length_board (Game.width g) (Game.height g)) by lia.
  pose proof (length_filter_disjoint (λ c, is_exposed g c = true)
                (λ c, is_mine g c = true)
                (board (Game.width g) (Game.height g))) as Hdisj.
  destruct Hdisj; [|lia..].
  intros c Hc%elem_of_board Hexp Hmine.
  assert (mine_exposed g) as Hme by (by exists c).
  apply inv_explosion0 in Hme. congruence.
Qed.

(** ** Concrete boards *)

Definition config_3x3 : GameConfig.t := GameConfig.mk 3 3 1.

(** The 3 x 3 game as constructed. *)
Definition game_3x3_start : Game.t :=
  Game.mk 3 3 1 0 0 false false 8 (grid_make 3 3 false)
    [[0; 0; 0]; [0; 1; 1]; [0; 1; 0]] mines_3x3.

(** ... and after [select(0, 0)]. *)
Definition game_3x3_after : Game.t :=
  Game.mk 3 3 1 1 8 false false 8
    [[true; true; true]; [true; true; true]; [true; true; false]]
    [[0; 0; 0]; [0; 1; 1]; [0; 1; 0]] mines_3x3.

Definition squares_3x3 : list Square.t :=
  [Square.mk 0 0 0; Square.mk 1 0 0; Square.mk 2 0 0; Square.mk 0 1 0;
   Square.mk 0 2 0; Square.mk 1 1 1; Square.mk 2 1 1; Square.mk 1 2 1].

(** The four records of the scenario as the specification tells it. *)
Definition squares_3x3_told : list Square.t :=
  [Square.mk 0 0 0; Square.mk 1 0 0; Square.mk 0 1 0; Square.mk 1 1 1].

(** A 2 x 1 board with its mine at (0,0). *)
Definition config_2x1 : GameConfig.t := GameConfig.mk 2 1 1.
Definition mines_2x1 : list (list bool) := [[true]; [false]].
Definition game_2x1_start : Game.t :=
  Game.mk 2 1 1 0 0 false false 1 [[false]; [false]] [[0]; [1]] mines_2x1.

(** A 3 x 1 board with its mine at (0,0), after [select(1, 0)] and
    [select(0, 0)]: the second call exposed the mine. *)
Definition config_3x1 : GameConfig.t := GameConfig.mk 3 1 1.
Definition mines_3x1 : list (list bool) := [[true]; [false]; [false]].
Definition game_3x1_start : Game.t :=
  Game.mk 3 1 1 0 0 false false 2 [[false]; [false]; [false]] [[0]; [1]; [0]] mines_3x1.
Definition game_3x1_lost : Game.t :=
  Game.mk 3 1 1 2 2 true false 2 [[true]; [true]; [false]] [[0]; [1]; [0]] mines_3x1.

(** A 4 x 3 board with its mine at (3,1), after [select(2, 1)], which
    exposed (2,1) alone (its count is 1); and the same game after
    [select(0, 0)], whose region reaches the columns x = 0, 1 and 2. *)
Definition config_4x3 : GameConfig.t := GameConfig.mk 4 3 1.
Definition mines_4x3 : list (list bool) :=
  [[false; false; false]; [false; false; false]; [false; false; false];
   [false; true; false]].
Definition game_4x3_start : Game.t :=
  Game.mk 4 3 1 0 0 false false 11
    [[false; false; false]; [false; false; false]; [false; false; false];
     [false; false; false]]
    [[0; 0; 0]; [0; 0; 0]; [1; 1; 1]; [1; 0; 1]] mines_4x3.
Definition game_4x3_mid : Game.t :=
  Game.mk 4 3 1 1 1 false false 11
    [[false; false; false]; [false; false; false]; [false; true; false];
     [false; false; false]]
    [[0; 0; 0]; [0; 0; 0]; [1; 1; 1]; [1; 0; 1]] mines_4x3.
Definition game_4x3_after : Game.t :=
  Game.mk 4 3 1 2 9 false false 11
    [[true; true; true]; [true; true; true]; [true; true; true];
     [false; false; false]]
    [[0; 0; 0]; [0; 0; 0]; [1; 1; 1]; [1; 0; 1]] mines_4x3.
Definition squares_4x3 : list Square.t :=
  [Square.mk 0 0 0; Square.mk 0 1 0; Square.mk 1 0 0; Square.mk 1 1 0;
   Square.mk 0 2 0; Square.mk 1 2 0; Square.mk 2 0 1; Square.mk 2 2 1].

Ltac solve_shape := split; [reflexivity|repeat constructor].

Lemma game_3x3_init : Game.__init__ config_3x3 (Some mines_3x3) [] = Returns game_3x3_start.
Proof. by vm_compute. Qed.

Lemma game_2x1_init : Game.__init__ config_2x1 (Some mines_2x1) [] = Returns game_2x1_start.
Proof. by vm_compute. Qed.

Lemma game_3x1_init : Game.__init__ config_3x1 (Some mines_3x1) [] = Returns game_3x1_start.
Proof. by vm_compute. Qed.

Lemma game_3x1_run : run game_3x1_start [Select 1 0; Select 0 0] = game_3x1_lost.
Proof. by vm_compute. Qed.

Lemma game_4x3_init : Game.__init__ config_4x3 (Some mines_4x3) [] = Returns game_4x3_start.
Proof. vm_compute. reflexivity. Qed.

Lemma game_4x3_run : run game_4x3_start [Select 2 1] = game_4x3_mid.
Proof. vm_compute. reflexivity. Qed.

Lemma select_4x3 :
  Game.select game_4x3_mid 0 0
  = (Returns (MoveResult.mk PLAYING (list_to_set squares_4x3)), game_4x3_after).
Proof. vm_compute. reflexivity. Qed.

Lemma well_shaped_4x3 : well_shaped game_4x3_mid.
Proof. split_and!; solve_shape. Defined.

Lemma valid_setup_3x3 : valid_setup config_3x3 (Some mines_3x3) [].
Proof.
  unfold valid_setup. simpl. split_and!; try lia.
  - solve_shape.
  - by vm_compute.
  - intros c Hc. by apply not_elem_of_nil in Hc.
Defined.

Lemma valid_setup_2x1 : valid_setup config_2x1 (Some mines_2x1) [].
Proof.
  unfold valid_setup. simpl. split_and!; try lia.
  - solve_shape.
  - by vm_compute.
  - intros c Hc. by apply not_elem_of_nil in Hc.
Defined.

Lemma valid_setup_3x1 : valid_setup config_3x1 (Some mines_3x1) [].
Proof.
  unfold valid_setup. simpl. split_and!; try lia.
  - solve_shape.
  - by vm_compute.
  - intros c Hc. by apply not_elem_of_nil in Hc.
Defined.

Lemma select_3x3 :
  Game.select game_3x3_start 0 0
  = (Returns (MoveResult.mk VICTORY (list_to_set squares_3x3)), game_3x3_after).
Proof. by vm_compute. Qed.

Lemma well_shaped_3x3 : well_shaped game_3x3_start.
Proof. split_and!; solve_shape. Defined.

Lemma reachable_3x3 : reachable game_3x3_start.
Proof.
  exists config_3x3, (Some mines_3x3), [], game_3x3_start, [].
  split_and!; [apply valid_setup_3x3|by vm_compute|done].
Defined.

(** ** The properties of the board engine *)

Lemma positions_inj (squares : list Square.t) s s' :
  NoDup (positions squares) → s ∈ squares → s' ∈ squares →
  Square.pos s = Square.pos s' → s = s'.
Proof.
  unfold positions. induction squares as [|s0 squares IH]; intros Hnd Hs Hs' Heq.
  - by apply not_elem_of_nil in Hs.
  - rewrite fmap_cons in Hnd. apply NoDup_cons in Hnd as [Hs0 Hnd].
    apply elem_of_cons in Hs as [->|Hs], Hs' as [->|Hs'].
    + done.
    + exfalso. apply Hs0. rewrite Heq. by apply list_elem_of_fmap_2.
    + exfalso. apply Hs0. rewrite <- Heq. by apply list_elem_of_fmap_2.
    + by apply IH.
Qed.

Lemma positions_NoDup (squares : list Square.t) :
  NoDup (positions squares) → NoDup squares.
Proof. apply NoDup_fmap_1. Qed.

(** C2, as the code has it.  On the 3 x 3 board with its one mine at
    (2,2), [select(0, 0)] on the new game returns the eight records of the
    squares without a mine, (0,0), (1,0), (2,0), (0,1), (0,2) with count 0
    and (1,1), (2,1), (1,2) with count 1; only (2,2) stays unexposed; the
    status returned is VICTORY and eight squares are exposed. *)
Theorem scenario_3x3_select :
  Game.__init__ config_3x3 (Some mines_3x3) [] = Returns game_3x3_start
  ∧ ∃ r g',
      Game.select game_3x3_start 0 0 = (Returns r, g')
      ∧ MoveResult.new_squares r = list_to_set squares_3x3
      ∧ MoveResult.status r = VICTORY
      ∧ Game.status g' = VICTORY
      ∧ Game.exposed g'
        = [[true; true; true]; [true; true; true]; [true; true; false]]
      ∧ Game._num_exposed_squares g' = 8.
Proof.
  split; [apply game_3x3_init|].
  eexists _, _. split; [apply select_3x3|]. by split_and!.
Qed.

(** C2, as the specification tells it: four records, (2,1) and (1,2)
    unexposed, status PLAYING, four squares exposed.  The code does not do
    that. *)
Lemma scenario_3x3_as_told_fails :
  ¬ ∃ r g',
      Game.select game_3x3_start 0 0 = (Returns r, g')
      ∧ MoveResult.new_squares r = list_to_set squares_3x3_told
      ∧ is_exposed g' (2, 2) = false
      ∧ is_exposed g' (2, 1) = false
      ∧ is_exposed g' (1, 2) = false
      ∧ MoveResult.status r = PLAYING
      ∧ Game._num_exposed_squares g' = 4.
Proof.
  intros (r & g' & Hsel & _ & _ & _ & _ & Hstatus & _).
  rewrite select_3x3 in Hsel. injection Hsel as <- <-. done.
Qed.

(** C10.  When [select] raises, the game is as it was before the call:
    exposure, move counter and explosion flag included. *)
Theorem select_raises_unchanged g x y e :
  (Game.select g x y).1 = Raises e → (Game.select g x y).2 = g.
Proof.
  unfold Game.select.
  destruct (Game._is_outside_board g x y); [done|].
  destruct (Game._explosion g); [done|].
  destruct (grid_get false (Game.exposed g) x y); [done|].
  unfold Game._update.
  destruct (grid_get false _ x y); [done|].
  destruct (negb _); [done|].
  destruct (Game._update_loop _ _) as [[g2 squares]|e'|] eqn:Hloop; [done| |done].
  by apply update_loop_not_raises in Hloop.
Qed.

Lemma select_raises_unchanged_witness :
  (Game.select game_3x3_start 3 0).1 = Raises (OutsideBoard 3 0)
  ∧ (Game.select game_3x3_start 3 0).2 = game_3x3_start.
Proof.
  split; [reflexivity|].
  apply (select_raises_unchanged game_3x3_start 3 0 (OutsideBoard 3 0)). reflexivity.
Defined.

(** C7.  In a game reached from a construction, [select(x, y)] raises the
    outside-the-board error exactly when [(x, y)] is off the board; on the
    board it raises the already-over error exactly when a mine is exposed;
    else it raises the already-exposed error exactly when the square is
    exposed; and else it returns a [MoveResult]. *)
Theorem select_raises_iff g x y :
  reachable g →
  ((Game.select g x y).1 = Raises (OutsideBoard x y)
   ↔ ¬ in_board (Game.width g) (Game.height g) (x, y))
  ∧ (in_board (Game.width g) (Game.height g) (x, y) →
     ((Game.select g x y).1 = Raises AlreadyOver ↔ mine_exposed g))
  ∧ (in_board (Game.width g) (Game.height g) (x, y) → ¬ mine_exposed g →
     ((Game.select g x y).1 = Raises AlreadyExposed ↔ is_exposed g (x, y) = true))
  ∧ (in_board (Game.width g) (Game.height g) (x, y) → ¬ mine_exposed g →
     is_exposed g (x, y) = false →
     ∃ r, (Game.select g x y).1 = Returns r).
Proof.
  intros Hinv%reachable_inv.
  pose proof (inv_explosion _ Hinv) as Hexpl.
  destruct (select_cases g x y) as [[Hout ->]|[(Hin & Hover & ->)|[(Hin & Hnot & Hexp & ->)|
    (Hin & Hnot & Hexp & squares & g' & -> & Hpost)]]]; [by destruct Hinv|simpl..].
  - split_and!; [done|done..].
  - apply Hexpl in Hover. split_and!; [split; done|done..].
  - assert (¬ mine_exposed g) by (rewrite <- Hexpl; congruence).
    split_and!; [split; done|split; done|done|congruence].
  - assert (¬ mine_exposed g) by (rewrite <- Hexpl; congruence).
    split_and!; [split; done|split; done|split; [done|congruence]|by eexists].
Qed.

Lemma select_raises_iff_witness :
  reachable game_3x3_start
  ∧ ((Game.select game_3x3_start 3 0).1 = Raises (OutsideBoard 3 0)
     ↔ ¬ in_board (Game.width game_3x3_start) (Game.height game_3x3_start) (3, 0)).
Proof.
  split; [apply reachable_3x3|].
  apply (select_raises_iff game_3x3_start 3 0 reachable_3x3).
Defined.

(** The last clause of C5 as the specification words it: a returned
    square on the boundary of the returned region, that is one with a
    neighbouring position that is not returned, has a count other than 0
    or lies on an edge of the grid. *)
Definition on_edge (g : Game.t) (c : Z * Z) : Prop :=
  c.1 = 0 ∨ c.1 = Game.width g - 1 ∨ c.2 = 0 ∨ c.2 = Game.height g - 1.

Definition boundary_as_told (g : Game.t) (r : MoveResult.t) : Prop :=
  ∀ s c', s ∈ MoveResult.new_squares r →
    adjacent (Square.pos s) c' →
    (¬ ∃ s', s' ∈ MoveResult.new_squares r ∧ Square.pos s' = c') →
    Square.num_mines s ≠ 0 ∨ on_edge g (Square.pos s).

(** C5, as the code has it.  [select] on a square of the board that holds
    no mine and counts none, in a game with its lists of the configured
    shape and no explosion, the square not exposed: the call returns the
    records that [_update] collects and the status after the call; the
    record of the selected square is among them; no two records share a
    coordinate; every record is a square of the board that was not exposed
    before the call, carries the count the board has for it, and is
    exposed after the call; a square of the board is exposed after the
    call exactly when it was before or is the square of a record; every
    record's square is linked to the selected one by a chain of adjacent
    squares of the records; every record other than the selected square's
    is next to a record with count 0; and around a record with count 0
    every neighbour on the board is the square of a record or was exposed
    before the call: the region stops only at squares with a count, at
    the edge of the grid, or at squares that earlier calls exposed. *)
Theorem select_zero_region g x y :
  well_shaped g →
  in_board (Game.width g) (Game.height g) (x, y) →
  Game._explosion g = false →
  is_exposed g (x, y) = false →
  is_mine g (x, y) = false →
  count_at g (x, y) = 0 →
  ∃ r g' squares,
    Game.select g x y = (Returns r, g')
    ∧ Game._update (Game.incr_num_moves g) x y = (Returns squares, g')
    ∧ MoveResult.new_squares r = list_to_set squares
    ∧ MoveResult.status r = Game.status g'
    ∧ NoDup (positions squares)
    ∧ Square.mk x y 0 ∈ MoveResult.new_squares r
    ∧ (∀ s s', s ∈ MoveResult.new_squares r → s' ∈ MoveResult.new_squares r →
         Square.pos s = Square.pos s' → s = s')
    ∧ (∀ s, s ∈ MoveResult.new_squares r →
         in_board (Game.width g) (Game.height g) (Square.pos s)
         ∧ is_exposed g (Square.pos s) = false
         ∧ Square.num_mines s = count_at g (Square.pos s)
         ∧ is_exposed g' (Square.pos s) = true)
    ∧ (∀ c, in_board (Game.width g) (Game.height g) c →
         is_exposed g' c = true
         ↔ is_exposed g c = true
           ∨ ∃ s, s ∈ MoveResult.new_squares r ∧ Square.pos s = c)
    ∧ (∀ s, s ∈ MoveResult.new_squares r →
         connected (λ c, ∃ s', s' ∈ MoveResult.new_squares r ∧ Square.pos s' = c)
           (x, y) (Square.pos s))
    ∧ (∀ s, s ∈ MoveResult.new_squares r →
         Square.pos s = (x, y)
         ∨ ∃ z, z ∈ MoveResult.new_squares r ∧ Square.num_mines z = 0
                ∧ adjacent (Square.pos z) (Square.pos s))
    ∧ (∀ s c', s ∈ MoveResult.new_squares r → Square.num_mines s = 0 →
         adjacent (Square.pos s) c' →
         in_board (Game.width g) (Game.height g) c' →
         is_exposed g c' = true
         ∨ ∃ s', s' ∈ MoveResult.new_squares r ∧ Square.pos s' = c').
Proof.
  intros Hshape Hin Hexpl Hexp Hmine Hzero.
  destruct (select_returns g x y) as (squares & g' & Hsel & Hupd & Hpost); [done..|].
  eexists _, g', squares. split; [exact Hsel|]. simpl.
  assert (∀ s, s ∈ (list_to_set squares : gset Square.t) ↔ s ∈ squares) as Hset.
  { intros s. apply elem_of_list_to_set. }
  assert (∀ c, c ∈ positions squares
               ↔ ∃ s, s ∈ (list_to_set squares : gset Square.t) ∧ Square.pos s = c)
    as Hpos.
  { intros c. unfold positions. rewrite list_elem_of_fmap. split.
    - intros (s & -> & Hs). exists s. by rewrite Hset.
    - intros (s & Hs%Hset & <-). by exists s. }
  assert (∀ c, in_board (Game.width g) (Game.height g) c →
               is_exposed g' c = true
               ↔ is_exposed g c = true
                 ∨ ∃ s, s ∈ (list_to_set squares : gset Square.t) ∧ Square.pos s = c)
    as Hexposed.
  { intros c Hc. rewrite (sp_exposed _ _ _ _ Hpost c Hc), orb_true_iff,
      bool_decide_eq_true, Hpos. done. }
  split_and!; [done|done|done|by apply (sp_nodup _ _ _ _ Hpost)|..].
  - apply Hset. destruct (sp_head _ _ _ _ Hpost) as [rest ->].
    simpl. rewrite Hzero. left.
  - intros s s' Hs%Hset Hs'%Hset. apply (positions_inj squares); [|done..].
    by apply (sp_nodup _ _ _ _ Hpost).
  - intros s Hs. pose proof Hs as Hs'%Hset.
    destruct (sp_fresh _ _ _ _ Hpost s Hs') as (Hb & Hf & Hn).
    split_and!; [done..|]. apply Hexposed; [done|]. right. by exists s.
  - done.
  - intros s Hs%Hset.
    eapply connected_mono; [|apply (sp_connected _ _ _ _ Hpost)].
    + simpl. intros c Hc. by apply Hpos.
    + by apply list_elem_of_fmap_2.
  - intros s Hs%Hset.
    destruct (sp_origin _ _ _ _ Hpost (Square.pos s)) as [Heq|(z & Hz & Hz0 & Hadj)];
      [by apply list_elem_of_fmap_2|by left|].
    right. apply Hpos in Hz as (sz & Hsz & <-). exists sz. split_and!; [done| |done].
    apply Hset in Hsz. by rewrite (proj2 (proj2 (sp_fresh _ _ _ _ Hpost sz Hsz))).
  - intros s c' Hs%Hset Hs0 Hadj Hb. apply Hexposed; [done|].
    apply (sp_closed _ _ _ _ Hpost Hmine (Square.pos s)); [|..|done|done].
    + by apply list_elem_of_fmap_2.
    + by rewrite <- (proj2 (proj2 (sp_fresh _ _ _ _ Hpost s Hs))).
Qed.

Lemma select_zero_region_witness :
  well_shaped game_4x3_mid
  ∧ in_board (Game.width game_4x3_mid) (Game.height game_4x3_mid) (0, 0)
  ∧ Game._explosion game_4x3_mid = false
  ∧ is_exposed game_4x3_mid (0, 0) = false
  ∧ is_mine game_4x3_mid (0, 0) = false
  ∧ count_at game_4x3_mid (0, 0) = 0
  ∧ ∃ r g' squares,
      Game.select game_4x3_mid 0 0 = (Returns r, g')
      ∧ Game._update (Game.incr_num_moves game_4x3_mid) 0 0 = (Returns squares, g')
      ∧ MoveResult.new_squares r = list_to_set squares
      ∧ NoDup (positions squares)
      ∧ Square.mk 0 0 0 ∈ MoveResult.new_squares r
      ∧ (∀ s, s ∈ MoveResult.new_squares r → is_exposed g' (Square.pos s) = true).
Proof.
  assert (in_board (Game.width game_4x3_mid) (Game.height game_4x3_mid) (0, 0))
    as Hin by (vm_compute; repeat split; discriminate).
  split_and!; [apply well_shaped_4x3|exact Hin|reflexivity..|].
  destruct (select_zero_region game_4x3_mid 0 0 well_shaped_4x3 Hin
              eq_refl eq_refl eq_refl eq_refl)
    as (r & g' & squares & Hsel & Hupd & Hset & _ & Hnd & Hhead & _ & Hrec & _).
  exists r, g', squares.
  split_and!; [exact Hsel|exact Hupd|exact Hset|exact Hnd|exact Hhead|].
  intros s Hs. exact (proj2 (proj2 (proj2 (Hrec s Hs)))).
Defined.

(** C5, as the specification tells it, fails on the 4 x 3 board with its
    mine at (3,1) once (2,1) is exposed: [select(0, 0)] is a call on an
    unexposed square without a mine and with count 0; it returns the
    record of (1,1) with count 0; (1,1) is on no edge of the grid; and its
    neighbour (2,1), exposed by the earlier call, is not returned.  So
    (1,1) is on the boundary of the returned region, has count 0 and is on
    no edge. *)
Lemma zero_region_boundary_fails :
  Game.__init__ config_4x3 (Some mines_4x3) [] = Returns game_4x3_start
  ∧ run game_4x3_start [Select 2 1] = game_4x3_mid
  ∧ well_shaped game_4x3_mid
  ∧ in_board (Game.width game_4x3_mid) (Game.height game_4x3_mid) (0, 0)
  ∧ Game._explosion game_4x3_mid = false
  ∧ is_exposed game_4x3_mid (0, 0) = false
  ∧ is_mine game_4x3_mid (0, 0) = false
  ∧ count_at game_4x3_mid (0, 0) = 0
  ∧ ∃ r g',
      Game.select game_4x3_mid 0 0 = (Returns r, g')
      ∧ Square.mk 1 1 0 ∈ MoveResult.new_squares r
      ∧ adjacent (1, 1) (2, 1)
      ∧ (¬ ∃ s', s' ∈ MoveResult.new_squares r ∧ Square.pos s' = (2, 1))
      ∧ ¬ on_edge game_4x3_mid (1, 1)
      ∧ ¬ boundary_as_told game_4x3_mid r.
Proof.
  assert (Square.mk 1 1 0 ∈ (list_to_set squares_4x3 : gset Square.t)) as Hin.
  { apply elem_of_list_to_set. unfold squares_4x3. do 3 right. left. }
  assert (adjacent (1, 1) (2, 1)) as Hadj.
  { unfold adjacent, neighbors. simpl. do 6 right. left. }
  assert (¬ ∃ s', s' ∈ (list_to_set squares_4x3 : gset Square.t)
                  ∧ Square.pos s' = (2, 1)) as Hout.
  { intros (s' & Hs'%elem_of_list_to_set & Hpos). unfold squares_4x3 in Hs'.
    repeat (apply elem_of_cons in Hs' as [->|Hs']); try discriminate Hpos.
    by apply not_elem_of_nil in Hs'. }
  assert (¬ on_edge game_4x3_mid (1, 1)) as Hedge.
  { unfold on_edge. simpl. lia. }
  split_and!; [apply game_4x3_init|apply game_4x3_run|apply well_shaped_4x3
              |vm_compute; repeat split; discriminate|reflexivity..|].
  eexists _, _. split; [apply select_4x3|]. simpl.
  split_and!; [exact Hin|exact Hadj|exact Hout|exact Hedge|].
  intros Htold. destruct (Htold (Square.mk 1 1 0) (2, 1) Hin Hadj Hout) as [Hn|He].
  - by apply Hn.
  - by apply Hedge.
Qed.

Lemma select_returns_inv g x y r g' :
  well_shaped g →
  Game.select g x y = (Returns r, g') →
  in_board (Game.width g) (Game.height g) (x, y)
  ∧ Game._explosion g = false
  ∧ is_exposed g (x, y) = false
  ∧ ∃ squares,
      r = MoveResult.mk (Game.status g') (list_to_set squares)
      ∧ select_post g (x, y) squares g'.
Proof.
  intros Hshape Hsel.
  destruct (select_cases g x y Hshape) as [[_ Heq]|[(_ & _ & Heq)|[(_ & _ & _ & Heq)|
    (Hin & Hnot & Hexp & squares & g'' & Heq & Hpost)]]];
    rewrite Heq in Hsel; try done.
  injection Hsel as <- <-. split_and!; [done..|]. by exists squares.
Qed.

Lemma step_exposed_counter g c :
  game_inv g →
  Game._num_exposed_squares g ≤ Game._num_exposed_squares (step g c).
Proof.
  intros Hinv. destruct c as [x y|]; simpl; [|lia].
  destruct (select_cases g x y) as [[_ ->]|[(_ & _ & ->)|[(_ & _ & _ & ->)|
    (_ & _ & _ & squares & g' & -> & Hpost)]]]; [by destruct Hinv|simpl; lia..|].
  simpl. rewrite (sp_counter _ _ _ _ Hpost). lia.
Qed.

(** C6.  In a game reached from a construction: a [select] that returns
    adds to the exposed-square counter exactly the number of records it
    returns, which is at least one; no call lowers the counter; and while
    the status is PLAYING or VICTORY the counter is at most
    [width * height - num_mines]. *)
Theorem exposed_counter_invariant g :
  reachable g →
  (∀ x y r g', Game.select g x y = (Returns r, g') →
     (0 < size (MoveResult.new_squares r))%nat
     ∧ Game._num_exposed_squares g'
       = Game._num_exposed_squares g + Z.of_nat (size (MoveResult.new_squares r)))
  ∧ (∀ c, Game._num_exposed_squares g ≤ Game._num_exposed_squares (step g c))
  ∧ (Game.status g = PLAYING ∨ Game.status g = VICTORY →
     Game._num_exposed_squares g
     ≤ Game.width g * Game.height g - Game.num_mines g).
Proof.
  intros Hinv%reachable_inv. split_and!.
  - intros x y r g' Hsel.
    apply select_returns_inv in Hsel as (_ & _ & _ & squares & -> & Hpost);
      [|by destruct Hinv].
    simpl. rewrite size_list_to_set by apply positions_NoDup, (sp_nodup _ _ _ _ Hpost).
    split; [|apply (sp_counter _ _ _ _ Hpost)].
    destruct (sp_head _ _ _ _ Hpost) as [rest ->]. simpl. lia.
  - intros c. by apply step_exposed_counter.
  - intros Hstatus. rewrite (inv_counter _ Hinv).
    apply exposed_cells_bound; [done|].
    destruct (status_cases g) as [(? & _ & ? & _)|[(? & _)|[(? & _)|(? & _ & _ & ? & _)]]];
      [done| | |done]; destruct Hstatus; congruence.
Qed.

Lemma exposed_counter_invariant_witness :
  reachable game_3x3_start
  ∧ (Game.status game_3x3_start = PLAYING ∨ Game.status game_3x3_start = VICTORY →
     Game._num_exposed_squares game_3x3_start
     ≤ Game.width game_3x3_start * Game.height game_3x3_start
       - Game.num_mines game_3x3_start).
Proof.
  split; [apply reachable_3x3|].
  apply (exposed_counter_invariant game_3x3_start reachable_3x3).
Defined.

(** C3, as the code has it.  In a game constructed and then driven by the
    calls [cs]: from PLAYING a [select] that returns on a mine gives
    DEFEAT; from PLAYING a [select] that returns gives VICTORY exactly
    when the square holds no mine and the exposed-square counter has
    reached [width * height - num_mines]; the status is QUIT exactly when
    [quit] is among the calls; [quit] leaves mines, exposure, counts and
    the move counter alone; and in status DEFEAT [select] raises and
    leaves the game alone. *)
Theorem status_transitions config mines draws g0 cs :
  valid_setup config mines draws →
  Game.__init__ config mines draws = Returns g0 →
  let g := run g0 cs in
  (∀ x y r g', Game.status g = PLAYING → Game.select g x y = (Returns r, g') →
     is_mine g (x, y) = true →
     MoveResult.status r = DEFEAT ∧ Game.status g' = DEFEAT)
  ∧ (∀ x y r g', Game.status g = PLAYING → Game.select g x y = (Returns r, g') →
       (Game.status g' = VICTORY
        ↔ is_mine g (x, y) = false
          ∧ Game._num_exposed_squares g'
            = Game.width g * Game.height g - Game.num_mines g))
  ∧ (Game.status g = QUIT ↔ Quit ∈ cs)
  ∧ (Game.mines (Game.quit g) = Game.mines g
     ∧ Game.exposed (Game.quit g) = Game.exposed g
     ∧ Game.counts (Game.quit g) = Game.counts g
     ∧ Game.num_moves (Game.quit g) = Game.num_moves g)
  ∧ (∀ x y, Game.status g = DEFEAT → ∃ e, Game.select g x y = (Raises e, g)).
Proof.
  intros Hvalid Hinit g.
  assert (game_inv g0) as Hinv0.
  { eapply fresh_game_inv; [done|]. by eapply init_fresh. }
  assert (game_inv g) as Hinv by (by apply run_preserves_inv).
  assert (∀ x y r g', Game.status g = PLAYING → Game.select g x y = (Returns r, g') →
            MoveResult.status r = Game.status g'
            ∧ Game._quit g' = false
            ∧ Game._explosion g' = is_mine g (x, y)
            ∧ Game._num_safe_squares g'
              = Game.width g * Game.height g - Game.num_mines g) as Hsel.
  { intros x y r g' Hplay Hsel.
    apply select_returns_inv in Hsel as (_ & Hexpl & _ & squares & -> & Hpost);
      [|by destruct Hinv].
    destruct (sp_layout _ _ _ _ Hpost) as (_ & _ & _ & Hq & Hsafe & _).
    destruct (status_cases g) as [(_ & _ & _ & Hquit & _)|[(? & _)|[(? & _)|(? & _)]]];
      try congruence.
    split_and!; [done|congruence| |].
    - by rewrite (sp_explosion _ _ _ _ Hpost), Hexpl.
    - rewrite Hsafe. apply (inv_safe _ Hinv). }
  split_and!.
  - intros x y r g' Hplay Hs Hmine.
    destruct (Hsel x y r g' Hplay Hs) as (-> & Hq & Hex & _).
    rewrite Hmine in Hex.
    destruct (status_cases g') as [(_ & _ & ? & _)|[(_ & _ & ?)|[(? & _)|(_ & _ & _ & ? & _)]]];
      [congruence..|done|congruence].
  - intros x y r g' Hplay Hs.
    destruct (Hsel x y r g' Hplay Hs) as (_ & Hq & Hex & Hsafe).
    rewrite <- Hsafe, <- Hex.
    destruct (status_cases g') as [(-> & _ & ? & _ & ?)|[(_ & _ & ?)|
      [(-> & _ & _ & ?)|(-> & _ & _ & ? & ?)]]]; [|congruence| |].
    + split; [done|]. intros [_ ?]. done.
    + split; [done|]. intros [? _]. congruence.
    + done.
  - assert (Game._quit g = bool_decide (Quit ∈ cs)) as Hq.
    { unfold g. rewrite run_quit_flag by done.
      by rewrite (fg_quit _ _ (init_fresh _ _ _ _ Hvalid Hinit)). }
    destruct (status_cases g) as [(-> & _ & _ & Hquit & _)|[(-> & _ & Hquit)|
      [(-> & _ & Hquit & _)|(-> & _ & Hquit & _)]]]; rewrite Hq in Hquit.
    + apply bool_decide_eq_false in Hquit. split; done.
    + apply bool_decide_eq_true in Hquit. split; done.
    + apply bool_decide_eq_false in Hquit. split; done.
    + apply bool_decide_eq_false in Hquit. split; done.
  - done.
  - done.
  - done.
  - done.
  - intros x y Hdefeat.
    destruct (status_cases g) as [(? & _)|[(? & _)|[(_ & _ & _ & Hex)|(? & _)]]];
      try congruence.
    destruct (select_cases g x y) as [[_ ->]|[(_ & _ & ->)|[(_ & ? & _)|
      (_ & ? & _)]]]; [by destruct Hinv|by eexists..|congruence|congruence].
Qed.

Lemma status_transitions_witness :
  valid_setup config_2x1 (Some mines_2x1) []
  ∧ Game.__init__ config_2x1 (Some mines_2x1) [] = Returns game_2x1_start
  ∧ (Game.status (run game_2x1_start [Quit]) = QUIT ↔ Quit ∈ [Quit]).
Proof.
  split_and!; [apply valid_setup_2x1|by vm_compute|].
  apply (status_transitions config_2x1 (Some mines_2x1) [] game_2x1_start [Quit]
           valid_setup_2x1).
  by vm_compute.
Defined.

(** C3, as the specification tells it, fails twice on the 2 x 1 board with
    its mine at (0,0).  Selecting the mine first brings the exposed-square
    counter to [width * height - num_mines] and the status is DEFEAT, not
    VICTORY; and after [quit] the status is QUIT and [select(1, 0)] still
    exposes a square and counts a move. *)
Lemma status_law_fails :
  Game.__init__ config_2x1 (Some mines_2x1) [] = Returns game_2x1_start
  ∧ Game.status game_2x1_start = PLAYING
  ∧ (let g' := (Game.select game_2x1_start 0 0).2 in
     Game._num_exposed_squares g' = Game.width g' * Game.height g' - Game.num_mines g'
     ∧ Game.status g' = DEFEAT)
  ∧ (let g := Game.quit game_2x1_start in
     let g' := (Game.select g 1 0).2 in
     Game.status g = QUIT
     ∧ Game.exposed g' ≠ Game.exposed g
     ∧ Game.num_moves g' ≠ Game.num_moves g).
Proof. by vm_compute. Qed.



(** C4.  For a configuration with [0 <= num_mines < width * height], a
    layout of the configured shape with [num_mines] mines if one is given,
    and draws within the board that hold [num_mines] distinct squares if
    none is: the construction returns a game in which exactly [num_mines]
    squares hold a mine and every square's count is the number of mines
    among its neighbours on the board. *)
Theorem construction_postcondition config mines draws :
  valid_setup config mines draws →
  (mines = None →
   GameConfig.num_mines config ≤ Z.of_nat (size (list_to_set draws : gset (Z * Z)))) →
  ∃ g,
    Game.__init__ config mines draws = Returns g
    ∧ mine_cells g = GameConfig.num_mines config
    ∧ ∀ c, in_board (Game.width g) (Game.height g) c → count_at g c = neighbor_mines g c.
Proof.
  intros Hvalid Hdraws.
  assert (∃ g, Game.__init__ config mines draws = Returns g) as [g Hg].
  { unfold Game.__init__. destruct Hvalid as (Hw & _ & _ & Hlayout & _).
    destruct mines as [[|col cols]|].
    - destruct Hlayout as [[Hlen _] _]. simpl in Hlen. lia.
    - by eexists.
    - unfold Game._place_mines. simpl Game.num_mines.
      destruct (place_mines_loop_total (GameConfig.num_mines config) draws ∅)
        as [locations ->]; [|by eexists].
      replace (∅ ∪ list_to_set draws) with (list_to_set draws : gset (Z * Z))
        by set_solver.
      by apply Hdraws. }
  exists g. split; [done|].
  destruct (init_fresh _ _ _ _ Hvalid Hg). by split.
Qed.

Lemma construction_postcondition_witness :
  valid_setup config_3x3 None [(0, 0); (0, 0); (2, 2)]
  ∧ (@None (list (list bool)) = None →
     GameConfig.num_mines config_3x3
     ≤ Z.of_nat (size (list_to_set [(0, 0); (0, 0); (2, 2)] : gset (Z * Z))))
  ∧ ∃ g,
      Game.__init__ config_3x3 None [(0, 0); (0, 0); (2, 2)] = Returns g
      ∧ mine_cells g = GameConfig.num_mines config_3x3.
Proof.
  assert (valid_setup config_3x3 None [(0, 0); (0, 0); (2, 2)]) as Hvalid.
  { unfold valid_setup. simpl. split_and!; try lia.
    intros c Hc. repeat (apply elem_of_cons in Hc as [->|Hc]); try by vm_compute.
    by apply not_elem_of_nil in Hc. }
  assert (GameConfig.num_mines config_3x3
          ≤ Z.of_nat (size (list_to_set [(0, 0); (0, 0); (2, 2)] : gset (Z * Z))))
    as Hdraws by (by vm_compute).
  split_and!; [exact Hvalid|by intros _|].
  destruct (construction_postcondition config_3x3 None [(0, 0); (0, 0); (2, 2)]
              Hvalid (λ _, Hdraws)) as (g & Hg & Hm & _).
  exists g. split; [exact Hg|exact Hm].
Defined.

(** ** The solver: the state the player sees, and the equations *)

Definition eq_at (eqs : list (list (gset (Z * Z)))) (c : Z * Z) : gset (Z * Z) :=
  grid_get ∅ eqs c.1 c.2.

Definition val_at (vals : list (list (option Z))) (c : Z * Z) : option Z :=
  grid_get None vals c.1 c.2.

(** The unknowns of all equations together. *)
Definition unknowns (w h : Z) (eqs : list (list (gset (Z * Z)))) : gset (Z * Z) :=
  ⋃ (eq_at eqs <$> board w h).

(** The body of the two inner loops of [calc_equations], as a function of
    the neighbour [u] of the exposed square [c]. *)
Definition add_unknown (ai : CSPAI.t) (vals : list (list (option Z))) (c : Z * Z)
    (eqs : list (list (gset (Z * Z)))) (u : Z * Z) : list (list (gset (Z * Z))) :=
  if (0 <=? u.1) && (u.1 <? CSPAI.width ai) && (0 <=? u.2) && (u.2 <? CSPAI.height ai) then
    if CSPAI.is_None (grid_get None vals u.1 u.2) then
      grid_set eqs c.1 c.2 ({[u]} ∪ grid_get ∅ eqs c.1 c.2)
    else eqs
  else eqs.

Arguments add_unknown : simpl never.

Lemma fold_left_nested {S A B} (f : S → A * B → S) (l1 : list A) (l2 : list B) s :
  fold_left (λ s i, fold_left (λ s j, f s (i, j)) l2 s) l1 s
  = fold_left f (product l1 l2) s.
Proof.
  unfold product. revert s. induction l1 as [|a l1 IH]; intros s; [done|].
  cbn [fold_left list_prod]. rewrite fold_left_app, <- IH. f_equal.
  clear IH. revert s. induction l2 as [|b l2 IH]; intros s; [done|].
  simpl. apply IH.
Qed.

Lemma fold_left_ext {S A} (f f' : S → A → S) (l : list A) s :
  (∀ s a, f s a = f' s a) → fold_left f l s = fold_left f' l s.
Proof.
  intros Hext. revert s. induction l as [|a l IH]; intros s; [done|].
  simpl. by rewrite Hext, IH.
Qed.

Lemma fold_left_deltas {S} (f F : S → Z * Z → S) x y :
  (∀ s d, F s d = if decide (d = (0, 0)) then s else f s (x + d.1, y + d.2)) →
  ∀ s, fold_left F deltas s = fold_left f (neighbors (x, y)) s.
Proof.
  intros HF s. rewrite <- deltas_neighbors. generalize deltas. intros ds. revert s.
  induction ds as [|d ds IH]; intros s; [done|]. cbn [fold_left].
  rewrite HF, filter_cons. destruct (decide (d = (0, 0))) as [Hd|Hd].
  - rewrite decide_False by (intros ?; done). apply IH.
  - rewrite decide_True by done. simpl. apply IH.
Qed.

Lemma NoDup_neighbors c : NoDup (neighbors c).
Proof.
  unfold neighbors.
  repeat (apply NoDup_cons; split;
          [rewrite ?elem_of_cons, elem_of_nil; intros H;
           repeat (destruct H as [H|H]; [inversion H; lia|]); done|]).
  apply NoDup_nil. done.
Qed.

Lemma in_board_test (w h : Z) (u : Z * Z) :
  (0 <=? u.1) && (u.1 <? w) && (0 <=? u.2) && (u.2 <? h) = bool_decide (in_board w h u).
Proof.
  unfold in_board. case_bool_decide as Hin.
  - destruct Hin. rewrite !andb_true_iff. split_and!; lia.
  - apply not_true_is_false. rewrite !andb_true_iff. intros [[[??]?]?]. apply Hin. lia.
Qed.

Lemma state_fold g (l : list (Z * Z)) st :
  NoDup l →
  (∀ c, c ∈ l → in_board (Game.width g) (Game.height g) c) →
  grid_shape (Game.width g) (Game.height g) st →
  let st' :=
    fold_left
      (λ st '(x, y),
         if grid_get false (Game.exposed g) x y
         then grid_set st x y (Some (grid_get 0 (Game.counts g) x y))
         else st) l st in
  grid_shape (Game.width g) (Game.height g) st'
  ∧ ∀ c, val_at st' c
         = if decide (c ∈ l)
           then (if is_exposed g c then Some (count_at g c) else val_at st c)
           else val_at st c.
Proof.
  intros Hnd. revert st.
  induction Hnd as [|[x y] l Hc Hnd IH]; intros st Hin Hs; cbv zeta.
  - cbn [fold_left]. split; [done|]. intros c.
    rewrite decide_False; [done|apply not_elem_of_nil].
  - cbn [fold_left].
    destruct (Hin (x, y)) as [Hx Hy]; [left|]. simpl in Hx, Hy.
    set (st1 := if grid_get false (Game.exposed g) x y
                then grid_set st x y (Some (grid_get 0 (Game.counts g) x y)) else st).
    assert (grid_shape (Game.width g) (Game.height g) st1) as Hs1.
    { unfold st1. destruct (grid_get false _ x y); [by apply grid_shape_set|done]. }
    destruct (IH st1) as [Hs' Hval]; [intros; apply Hin; by right|done|].
    split; [done|]. intros c. rewrite Hval.
    assert (∀ c, val_at st1 c
                 = if decide (c = (x, y))
                   then (if is_exposed g c then Some (count_at g c) else val_at st c)
                   else val_at st c) as Hst1.
    { intros c'. unfold st1, val_at, is_exposed, count_at. case_decide as Heq.
      - subst c'. simpl. destruct (grid_get false _ x y); [|done].
        by rewrite (grid_get_set_eq (Game.width g) (Game.height g)).
      - destruct (grid_get false _ x y); [|done].
        apply grid_get_set_ne. destruct c'. simpl. congruence. }
    destruct (decide (c ∈ l)) as [Hl|Hl].
    + rewrite decide_True by (by right).
      destruct (is_exposed g c); [done|]. rewrite Hst1.
      rewrite decide_False; [done|]. by intros ->.
    + rewrite Hst1. destruct (decide (c = (x, y))) as [->|Hne].
      * rewrite decide_True by left. done.
      * rewrite decide_False; [done|]. intros [?|?]%elem_of_cons; done.
Qed.

(** What the player sees: the count of an exposed square, [None] for the
    others. *)
Lemma state_spec g :
  grid_shape (Game.width g) (Game.height g) (Game.state g)
  ∧ ∀ c, in_board (Game.width g) (Game.height g) c →
         val_at (Game.state g) c
         = if is_exposed g c then Some (count_at g c) else None.
Proof.
  destruct (state_fold g (board (Game.width g) (Game.height g))
              (grid_make (Game.width g) (Game.height g) None)) as [Hs Hval].
  - apply NoDup_board.
  - intros c. apply elem_of_board.
  - apply grid_shape_make.
  - split; [done|]. intros c Hc. unfold Game.state. rewrite Hval.
    rewrite decide_True by (by apply elem_of_board).
    unfold val_at. by rewrite grid_get_make_default.
Qed.

Lemma add_unknown_fold ai vals c (l : list (Z * Z)) eqs :
  grid_shape (CSPAI.width ai) (CSPAI.height ai) eqs →
  in_board (CSPAI.width ai) (CSPAI.height ai) c →
  let eqs' := fold_left (add_unknown ai vals c) l eqs in
  grid_shape (CSPAI.width ai) (CSPAI.height ai) eqs'
  ∧ eq_at eqs' c
    = list_to_set (filter (λ u, in_board (CSPAI.width ai) (CSPAI.height ai) u
                                ∧ val_at vals u = None) l)
      ∪ eq_at eqs c
  ∧ ∀ c', c' ≠ c → eq_at eqs' c' = eq_at eqs c'.
Proof.
  revert eqs. induction l as [|u l IH]; intros eqs Hs Hc; cbv zeta.
  - cbn [fold_left]. split_and!; [done| |done]. rewrite filter_nil. set_solver.
  - cbn [fold_left]. rewrite filter_cons.
    set (eqs1 := add_unknown ai vals c eqs u).
    assert (grid_shape (CSPAI.width ai) (CSPAI.height ai) eqs1
            ∧ eq_at eqs1 c
              = (if decide (in_board (CSPAI.width ai) (CSPAI.height ai) u
                            ∧ val_at vals u = None)
                 then {[u]} ∪ eq_at eqs c else eq_at eqs c)
            ∧ ∀ c', c' ≠ c → eq_at eqs1 c' = eq_at eqs c') as (Hs1 & Hc1 & Ho1).
    { unfold eqs1, add_unknown. rewrite in_board_test.
      case_bool_decide as Hu; simpl.
      - unfold val_at. destruct (grid_get None vals u.1 u.2) eqn:Hv; simpl.
        + rewrite decide_False by (intros [_ ?]; done). done.
        + rewrite decide_True by done. split_and!.
          * by apply grid_shape_set.
          * unfold eq_at. destruct Hc.
            by rewrite (grid_get_set_eq (CSPAI.width ai) (CSPAI.height ai)).
          * intros c' Hne. unfold eq_at. apply grid_get_set_ne.
            destruct c, c'. simpl. congruence.
      - rewrite decide_False by (intros [? _]; done). done. }
    destruct (IH eqs1 Hs1 Hc) as (Hs' & Hc' & Ho').
    split_and!; [done| |].
    + rewrite Hc', Hc1. case_decide; [|done].
      rewrite list_to_set_cons. set_solver.
    + intros c' Hne. rewrite Ho' by done. by apply Ho1.
Qed.

Lemma calc_equations_fold ai vals (l : list (Z * Z)) eqs :
  NoDup l →
  (∀ c, c ∈ l → in_board (CSPAI.width ai) (CSPAI.height ai) c) →
  grid_shape (CSPAI.width ai) (CSPAI.height ai) eqs →
  let eqs' := fold_left (λ eqs c, fold_left (add_unknown ai vals c) (neighbors c) eqs) l eqs in
  grid_shape (CSPAI.width ai) (CSPAI.height ai) eqs'
  ∧ ∀ c, eq_at eqs' c
         = if decide (c ∈ l)
           then list_to_set
                  (filter (λ u, in_board (CSPAI.width ai) (CSPAI.height ai) u
                                ∧ val_at vals u = None) (neighbors c))
                ∪ eq_at eqs c
           else eq_at eqs c.
Proof.
  intros Hnd. revert eqs.
  induction Hnd as [|c0 l Hc0 Hnd IH]; intros eqs Hin Hs; cbv zeta.
  - cbn [fold_left]. split; [done|]. intros c.
    rewrite decide_False; [done|apply not_elem_of_nil].
  - cbn [fold_left].
    destruct (add_unknown_fold ai vals c0 (neighbors c0) eqs) as (Hs1 & Hc1 & Ho1);
      [done|apply Hin; left|].
    destruct (IH (fold_left (add_unknown ai vals c0) (neighbors c0) eqs))
      as [Hs' Heq]; [intros; apply Hin; by right|done|].
    split; [done|]. intros c. rewrite Heq.
    destruct (decide (c = c0)) as [->|Hne].
    + rewrite decide_False by done. rewrite decide_True by left. done.
    + rewrite Ho1 by done. destruct (decide (c ∈ l)) as [Hl|Hl].
      * rewrite decide_True by (by right). done.
      * rewrite decide_False; [done|]. intros [?|?]%elem_of_cons; done.
Qed.

Lemma calc_equations_unfold ai vals :
  CSPAI.calc_equations ai vals
  = fold_left (λ eqs c, fold_left (add_unknown ai vals c) (neighbors c) eqs)
      (elements (CSPAI.exposed_squares ai))
      (grid_make (CSPAI.width ai) (CSPAI.height ai) ∅).
Proof.
  unfold CSPAI.calc_equations.
  apply fold_left_ext. intros eqs [x y].
  set (F := λ (eqs : list (list (gset (Z * Z)))) (d : Z * Z),
         if negb ((d.1 =? 0) && (d.2 =? 0))
         then add_unknown ai vals (x, y) eqs (x + d.1, y + d.2)
         else eqs).
  etrans; [exact (fold_left_nested F [-1; 0; 1] [-1; 0; 1] eqs)|].
  apply (fold_left_deltas (add_unknown ai vals (x, y)) F x y).
  intros s [dx dy]. unfold F. simpl. case_decide as Hd.
  - inversion Hd; subst. done.
  - replace ((dx =? 0) && (dy =? 0)) with false; [done|].
    symmetry. apply andb_false_iff.
    destruct (decide (dx = 0)) as [->|?]; [right|left]; [|lia].
    apply Z.eqb_neq. congruence.
Qed.

(** The equations [calc_equations] builds: for an exposed square of the
    player's record, its neighbours on the board that show [None]; the
    empty set elsewhere. *)
Lemma calc_equations_spec ai vals :
  (∀ c, c ∈ CSPAI.exposed_squares ai → in_board (CSPAI.width ai) (CSPAI.height ai) c) →
  grid_shape (CSPAI.width ai) (CSPAI.height ai) (CSPAI.calc_equations ai vals)
  ∧ ∀ c, eq_at (CSPAI.calc_equations ai vals) c
         = if decide (c ∈ CSPAI.exposed_squares ai)
           then list_to_set
                  (filter (λ u, in_board (CSPAI.width ai) (CSPAI.height ai) u
                                ∧ val_at vals u = None) (neighbors c))
           else ∅.
Proof.
  intros Hin. rewrite calc_equations_unfold.
  destruct (calc_equations_fold ai vals (elements (CSPAI.exposed_squares ai))
              (grid_make (CSPAI.width ai) (CSPAI.height ai) ∅)) as [Hs Heq].
  - apply NoDup_elements.
  - intros c Hc%elem_of_elements. by apply Hin.
  - apply grid_shape_make.
  - split; [done|]. intros c. rewrite Heq.
    assert (eq_at (grid_make (CSPAI.width ai) (CSPAI.height ai) ∅) c = ∅) as ->.
    { unfold eq_at. apply grid_get_make_default. }
    destruct (decide (c ∈ elements (CSPAI.exposed_squares ai))) as [Hc|Hc];
      rewrite elem_of_elements in Hc.
    + rewrite decide_True by done. set_solver.
    + by rewrite decide_False.
Qed.

(** ** The solver: one pass *)

(** The two arrays have the player's shape, and an equation that still
    has unknowns has a value (so that lowering it is no [TypeError]). *)
Definition solver_ok (ai : CSPAI.t) (eqs : list (list (gset (Z * Z))))
    (vals : list (list (option Z))) : Prop :=
  grid_shape (CSPAI.width ai) (CSPAI.height ai) eqs
  ∧ grid_shape (CSPAI.width ai) (CSPAI.height ai) vals
  ∧ ∀ c, in_board (CSPAI.width ai) (CSPAI.height ai) c →
         eq_at eqs c ≠ ∅ → is_Some (val_at vals c).

(** The body of the second loop of [find_mine], at one square. *)
Definition remove_mine_at (m : Z * Z)
  : list (list (gset (Z * Z))) * list (list (option Z)) → Z * Z
    → outcome (list (list (gset (Z * Z))) * list (list (option Z))) :=
  λ '(eqs, eq_values) '(i, j),
  if decide (m ∈ grid_get ∅ eqs i j) then
    match grid_get None eq_values i j with
    | Some v =>
        Returns (grid_set eqs i j (grid_get ∅ eqs i j ∖ {[m]}),
                 grid_set eq_values i j (Some (v - 1)))
    | None => Raises TypeError
    end
  else Returns (eqs, eq_values).

Lemma find_mine_remove_unfold ai st m :
  CSPAI.find_mine_remove ai st m
  = for_each (board (CSPAI.width ai) (CSPAI.height ai)) (remove_mine_at m) st.
Proof. reflexivity. Qed.

Lemma remove_mine_at_fold w h m (l : list (Z * Z)) eqs vals :
  NoDup l →
  (∀ c, c ∈ l → in_board w h c) →
  grid_shape w h eqs → grid_shape w h vals →
  (∀ c, c ∈ l → m ∈ eq_at eqs c → is_Some (val_at vals c)) →
  ∃ eqs' vals',
    for_each l (remove_mine_at m) (eqs, vals) = Returns (eqs', vals')
    ∧ grid_shape w h eqs' ∧ grid_shape w h vals'
    ∧ ∀ c, eq_at eqs' c = (if decide (c ∈ l) then eq_at eqs c ∖ {[m]} else eq_at eqs c)
           ∧ val_at vals' c
             = (if decide (c ∈ l ∧ m ∈ eq_at eqs c)
                then (λ v, v - 1) <$> val_at vals c else val_at vals c).
Proof.
  intros Hnd. revert eqs vals.
  induction Hnd as [|[i j] l Hc Hnd IH]; intros eqs vals Hin Hse Hsv Hsome.
  - exists eqs, vals. split_and!; [done..|]. intros c.
    rewrite decide_False by apply not_elem_of_nil.
    rewrite decide_False; [done|]. intros [?%not_elem_of_nil _]. done.
  - cbn [for_each]. destruct (Hin (i, j)) as [Hi Hj]; [left|]. simpl in Hi, Hj.
    assert (∃ eqs1 vals1,
              remove_mine_at m (eqs, vals) (i, j) = Returns (eqs1, vals1)
              ∧ grid_shape w h eqs1 ∧ grid_shape w h vals1
              ∧ ∀ c, eq_at eqs1 c
                     = (if decide (c = (i, j)) then eq_at eqs c ∖ {[m]} else eq_at eqs c)
                     ∧ val_at vals1 c
                       = (if decide (c = (i, j) ∧ m ∈ eq_at eqs c)
                          then (λ v, v - 1) <$> val_at vals c else val_at vals c))
      as (eqs1 & vals1 & -> & Hse1 & Hsv1 & Hst1).
    { unfold remove_mine_at.
      change (grid_get ∅ eqs i j) with (eq_at eqs (i, j)).
      change (grid_get None vals i j) with (val_at vals (i, j)).
      destruct (decide (m ∈ eq_at eqs (i, j))) as [Hm|Hm].
      - destruct (Hsome (i, j)) as [v Hv]; [left|done|]. rewrite Hv.
        eexists _, _. split_and!; [done|by apply grid_shape_set..|].
        intros c. unfold eq_at, val_at.
        rewrite !(grid_get_set w h) by done.
        destruct (decide ((i, j) = (c.1, c.2))) as [Heq|Hne].
        + assert (c = (i, j)) as -> by (destruct c; simpl in *; congruence).
          rewrite decide_True by done. rewrite decide_True by done.
          split; [done|]. unfold val_at in Hv. simpl in Hv |- *. by rewrite Hv.
        + assert (c ≠ (i, j)) by (intros ->; done).
          rewrite decide_False by done.
          rewrite decide_False; [done|]. by intros [? _].
      - exists eqs, vals. split_and!; [done..|]. intros c.
        destruct (decide (c = (i, j))) as [->|Hne].
        + rewrite decide_False by (by intros [_ ?]). split; [|done]. set_solver.
        + rewrite decide_False by (by intros [? _]). done. }
    simpl.
    destruct (IH eqs1 vals1) as (eqs' & vals' & -> & Hse' & Hsv' & Hst');
      [intros; apply Hin; by right|done..| |].
    { intros c Hcl Hm. destruct (Hst1 c) as [He Hv]. rewrite He in Hm. rewrite Hv.
      assert (c ≠ (i, j)) by (by intros ->).
      rewrite decide_False in Hm by done.
      rewrite decide_False by (by intros [? _]).
      apply Hsome; [by right|done]. }
    exists eqs', vals'. split_and!; [done..|]. intros c.
    destruct (Hst' c) as [He' Hv'], (Hst1 c) as [He1 Hv1].
    rewrite He', Hv', He1, Hv1.
    destruct (decide (c = (i, j))) as [->|Hne].
    + rewrite (decide_False (P := (i, j) ∈ l)) by done.
      rewrite (decide_True (P := (i, j) ∈ (i, j) :: l)) by left.
      split; [done|].
      rewrite (decide_False (P := (i, j) ∈ l ∧ _)) by (by intros [? _]).
      destruct (decide (m ∈ eq_at eqs (i, j))).
      * rewrite decide_True by done. rewrite decide_True; [done|split; [left|done]].
      * rewrite decide_False by (by intros [_ ?]).
        rewrite decide_False; [done|by intros [_ ?]].
    + destruct (decide (c ∈ l)) as [Hl|Hl].
      * rewrite (decide_True (P := c ∈ (i, j) :: l)) by (by right).
        split; [done|].
        rewrite (decide_False (P := c = (i, j) ∧ _)) by (by intros [? _]).
        destruct (decide (m ∈ eq_at eqs c)).
        -- rewrite decide_True by done. rewrite decide_True; [done|split; [by right|done]].
        -- rewrite decide_False by (by intros [_ ?]).
           rewrite decide_False; [done|by intros [_ ?]].
      * rewrite (decide_False (P := c ∈ (i, j) :: l))
          by (intros [?|?]%elem_of_cons; done).
        split; [done|].
        rewrite (decide_False (P := c ∈ l ∧ _)) by (by intros [? _]).
        rewrite (decide_False (P := c = (i, j) ∧ _)) by (by intros [? _]).
        rewrite decide_False; [done|]. intros [[?|?]%elem_of_cons _]; done.
Qed.

Lemma fmap_sub_0 (o : option Z) : (λ v, v - Z.of_nat 0) <$> o = o.
Proof. destruct o as [v|]; [|done]. simpl. f_equal. lia. Qed.

(** All the mines found are taken out of every equation of the board, and
    each equation's value goes down by the number of its unknowns among
    them. *)
Lemma remove_mines_fold ai (l : list (Z * Z)) eqs vals :
  NoDup l → solver_ok ai eqs vals →
  ∃ eqs' vals',
    for_each l (CSPAI.find_mine_remove ai) (eqs, vals) = Returns (eqs', vals')
    ∧ solver_ok ai eqs' vals'
    ∧ ∀ c, in_board (CSPAI.width ai) (CSPAI.height ai) c →
           eq_at eqs' c = eq_at eqs c ∖ list_to_set l
           ∧ val_at vals' c
             = (λ v, v - Z.of_nat (size (eq_at eqs c ∩ list_to_set l))) <$> val_at vals c.
Proof.
  intros Hnd. revert eqs vals.
  induction Hnd as [|m l Hm Hnd IH]; intros eqs vals (Hse & Hsv & Hsome).
  - exists eqs, vals. split_and!; [done..|]. intros c Hc. split; [set_solver|].
    replace (eq_at eqs c ∩ list_to_set []) with (∅ : gset (Z * Z)) by set_solver.
    rewrite size_empty. by rewrite fmap_sub_0.
  - cbn [for_each]. rewrite find_mine_remove_unfold.
    destruct (remove_mine_at_fold (CSPAI.width ai) (CSPAI.height ai) m
                (board (CSPAI.width ai) (CSPAI.height ai)) eqs vals)
      as (eqs1 & vals1 & -> & Hse1 & Hsv1 & Hst1).
    { apply NoDup_board. }
    { intros c. apply elem_of_board. }
    { done. }
    { done. }
    { intros c Hc%elem_of_board Hin. apply Hsome; [done|]. set_solver. }
    simpl.
    assert (∀ c, in_board (CSPAI.width ai) (CSPAI.height ai) c →
                 eq_at eqs1 c = eq_at eqs c ∖ {[m]}
                 ∧ val_at vals1 c
                   = (if decide (m ∈ eq_at eqs c)
                      then (λ v, v - 1) <$> val_at vals c else val_at vals c)) as Hst1'.
    { intros c Hc. destruct (Hst1 c) as [He Hv]. rewrite He, Hv.
      rewrite decide_True by (by apply elem_of_board). split; [done|].
      destruct (decide (m ∈ eq_at eqs c)).
      - rewrite decide_True; [done|]. split; [by apply elem_of_board|done].
      - rewrite decide_False; [done|]. by intros [_ ?]. }
    destruct (IH eqs1 vals1) as (eqs' & vals' & -> & Hok' & Hst').
    { split_and!; [done..|]. intros c Hc Hne.
      destruct (Hst1' c Hc) as [He Hv]. rewrite Hv.
      assert (is_Some (val_at vals c)) as [v Hval].
      { apply Hsome; [done|]. rewrite He in Hne. set_solver. }
      rewrite Hval. by case_decide. }
    exists eqs', vals'. split_and!; [done..|]. intros c Hc.
    destruct (Hst' c Hc) as [He' Hv'], (Hst1' c Hc) as [He1 Hv1].
    rewrite He', Hv', He1, Hv1, ?list_to_set_cons. split; [set_solver|].
    destruct (decide (m ∈ eq_at eqs c)) as [Hin|Hin].
    + assert (eq_at eqs c ∩ ({[m]} ∪ list_to_set l)
              = {[m]} ∪ (eq_at eqs c ∖ {[m]}) ∩ list_to_set l) as ->.
      { apply set_eq. intros u. rewrite !elem_of_intersection, !elem_of_union,
          elem_of_intersection, elem_of_difference, !elem_of_singleton.
        destruct (decide (u = m)) as [->|?]; naive_solver. }
      rewrite (size_union ({[m]} : gset (Z * Z))
                 ((eq_at eqs c ∖ {[m]}) ∩ list_to_set l)) by set_solver.
      rewrite size_singleton.
      destruct (val_at vals c) as [v|]; [|done]. simpl. f_equal. lia.
    + replace (eq_at eqs c ∖ {[m]}) with (eq_at eqs c) by set_solver.
      replace (eq_at eqs c ∩ ({[m]} ∪ list_to_set l))
        with (eq_at eqs c ∩ list_to_set l) by set_solver.
      done.
Qed.

(** The body of the loop of [find_safe_remove], at one square. *)
Definition remove_safe_at (s : Z * Z)
  : list (list (gset (Z * Z))) → Z * Z → list (list (gset (Z * Z))) :=
  λ eqs '(i, j),
  if decide (s ∈ grid_get ∅ eqs i j)
  then grid_set eqs i j (grid_get ∅ eqs i j ∖ {[s]})
  else eqs.

Lemma remove_safe_at_fold w h s (l : list (Z * Z)) eqs :
  NoDup l →
  (∀ c, c ∈ l → in_board w h c) →
  grid_shape w h eqs →
  grid_shape w h (fold_left (remove_safe_at s) l eqs)
  ∧ ∀ c, eq_at (fold_left (remove_safe_at s) l eqs) c
         = if decide (c ∈ l) then eq_at eqs c ∖ {[s]} else eq_at eqs c.
Proof.
  intros Hnd. revert eqs. induction Hnd as [|[i j] l Hc Hnd IH]; intros eqs Hin Hs.
  - cbn [fold_left]. split; [done|]. intros c.
    by rewrite decide_False by apply not_elem_of_nil.
  - cbn [fold_left]. destruct (Hin (i, j)) as [Hi Hj]; [left|]. simpl in Hi, Hj.
    assert (grid_shape w h (remove_safe_at s eqs (i, j))
            ∧ ∀ c, eq_at (remove_safe_at s eqs (i, j)) c
                   = if decide (c = (i, j)) then eq_at eqs c ∖ {[s]} else eq_at eqs c)
      as [Hs1 He1].
    { unfold remove_safe_at.
      change (grid_get ∅ eqs i j) with (eq_at eqs (i, j)).
      destruct (decide (s ∈ eq_at eqs (i, j))) as [Hin'|Hin'].
      - split; [by apply grid_shape_set|]. intros c. unfold eq_at.
        rewrite (grid_get_set w h) by done.
        destruct (decide ((i, j) = (c.1, c.2))) as [Heq|Hne].
        + assert (c = (i, j)) as -> by (destruct c; simpl in *; congruence).
          by rewrite decide_True.
        + rewrite decide_False; [done|]. by intros ->.
      - split; [done|]. intros c. case_decide as Heq; [|done]. subst c. set_solver. }
    destruct (IH (remove_safe_at s eqs (i, j))) as [Hs' He'];
      [intros; apply Hin; by right|done|].
    split; [done|]. intros c. rewrite He', He1.
    destruct (decide (c = (i, j))) as [->|Hne].
    + rewrite decide_False by done. by rewrite decide_True by left.
    + destruct (decide (c ∈ l)).
      * by rewrite decide_True by (by right).
      * rewrite decide_False; [done|]. intros [?|?]%elem_of_cons; done.
Qed.

Lemma remove_safes_fold ai (l : list (Z * Z)) eqs :
  grid_shape (CSPAI.width ai) (CSPAI.height ai) eqs →
  grid_shape (CSPAI.width ai) (CSPAI.height ai) (fold_left (CSPAI.find_safe_remove ai) l eqs)
  ∧ ∀ c, in_board (CSPAI.width ai) (CSPAI.height ai) c →
         eq_at (fold_left (CSPAI.find_safe_remove ai) l eqs) c
         = eq_at eqs c ∖ list_to_set l.
Proof.
  revert eqs. induction l as [|s l IH]; intros eqs Hs.
  - cbn [fold_left]. split; [done|]. intros c _. set_solver.
  - cbn [fold_left].
    destruct (remove_safe_at_fold (CSPAI.width ai) (CSPAI.height ai) s
                (board (CSPAI.width ai) (CSPAI.height ai)) eqs) as [Hs1 He1].
    { apply NoDup_board. }
    { intros c. apply elem_of_board. }
    { done. }
    change (fold_left (remove_safe_at s) (board (CSPAI.width ai) (CSPAI.height ai)) eqs)
      with (CSPAI.find_safe_remove ai eqs s) in Hs1, He1.
    destruct (IH (CSPAI.find_safe_remove ai eqs s) Hs1) as [Hs' He'].
    split; [done|]. intros c Hc. rewrite He' by done. rewrite He1.
    rewrite decide_True by (by apply elem_of_board).
    rewrite list_to_set_cons. set_solver.
Qed.

(** What an equation gives to the mines, and to the safe squares. *)
Definition saturated (eqs : list (list (gset (Z * Z)))) (vals : list (list (option Z)))
    (c : Z * Z) : gset (Z * Z) :=
  match val_at vals c with
  | Some v =>
      if negb (v =? 0) then
        if v =? Z.of_nat (size (eq_at eqs c)) then eq_at eqs c else ∅
      else ∅
  | None => ∅
  end.

Definition exhausted (eqs : list (list (gset (Z * Z)))) (vals : list (list (option Z)))
    (c : Z * Z) : gset (Z * Z) :=
  match val_at vals c with
  | Some v => if v =? 0 then eq_at eqs c else ∅
  | None => ∅
  end.

Lemma elem_of_fold_union (F : Z * Z → gset (Z * Z)) (l : list (Z * Z))
    (acc : gset (Z * Z)) x :
  x ∈ fold_left (λ acc c, F c ∪ acc) l acc ↔ x ∈ acc ∨ ∃ c, c ∈ l ∧ x ∈ F c.
Proof.
  revert acc. induction l as [|c l IH]; intros acc; cbn [fold_left].
  - split; [by left|]. intros [?|(c & ?%not_elem_of_nil & _)]; done.
  - rewrite IH, elem_of_union. split.
    + intros [[?|?]|(c' & ? & ?)]; [right; exists c; split; [left|done]|by left|].
      right. exists c'. split; [by right|done].
    + intros [?|(c' & [->|?]%elem_of_cons & ?)]; [left; by right|left; by left|].
      right. by exists c'.
Qed.

Lemma find_mine_collect_spec ai eqs vals x :
  x ∈ CSPAI.find_mine_collect ai eqs vals
  ↔ ∃ c, in_board (CSPAI.width ai) (CSPAI.height ai) c ∧ x ∈ saturated eqs vals c.
Proof.
  unfold CSPAI.find_mine_collect.
  rewrite (fold_left_ext _ (λ acc c, saturated eqs vals c ∪ acc)).
  - rewrite elem_of_fold_union. split.
    + intros [?%not_elem_of_empty|(c & Hc%elem_of_board & ?)]; [done|by exists c].
    + intros (c & Hc%elem_of_board & ?). right. by exists c.
  - intros acc [i j]. unfold saturated, val_at, eq_at. simpl.
    destruct (grid_get None vals i j) as [v|]; [|set_solver].
    destruct (negb (v =? 0)); [|set_solver].
    destruct (v =? _); set_solver.
Qed.

Lemma find_safe_collect_spec ai eqs vals x :
  x ∈ CSPAI.find_safe_collect ai eqs vals
  ↔ ∃ c, in_board (CSPAI.width ai) (CSPAI.height ai) c ∧ x ∈ exhausted eqs vals c.
Proof.
  unfold CSPAI.find_safe_collect.
  rewrite (fold_left_ext _ (λ acc c, exhausted eqs vals c ∪ acc)).
  - rewrite elem_of_fold_union. split.
    + intros [?%not_elem_of_empty|(c & Hc%elem_of_board & ?)]; [done|by exists c].
    + intros (c & Hc%elem_of_board & ?). right. by exists c.
  - intros acc [i j]. unfold exhausted, val_at, eq_at. simpl.
    destruct (grid_get None vals i j) as [v|]; [|set_solver].
    destruct (v =? 0); set_solver.
Qed.

Lemma elem_of_unknowns w h eqs x :
  x ∈ unknowns w h eqs ↔ ∃ c, in_board w h c ∧ x ∈ eq_at eqs c.
Proof.
  unfold unknowns. rewrite elem_of_union_list. split.
  - intros (X & (c & -> & Hc%elem_of_board)%list_elem_of_fmap & Hx). by exists c.
  - intros (c & Hc%elem_of_board & Hx). exists (eq_at eqs c).
    split; [by apply list_elem_of_fmap_2|done].
Qed.

Lemma saturated_subseteq eqs vals c : saturated eqs vals c ⊆ eq_at eqs c.
Proof.
  unfold saturated. destruct (val_at vals c) as [v|]; [|set_solver].
  destruct (negb (v =? 0)); [|set_solver]. destruct (v =? _); set_solver.
Qed.

Lemma exhausted_subseteq eqs vals c : exhausted eqs vals c ⊆ eq_at eqs c.
Proof.
  unfold exhausted. destruct (val_at vals c) as [v|]; [|set_solver].
  destruct (v =? 0); set_solver.
Qed.

Lemma find_mine_collect_unknowns ai eqs vals :
  CSPAI.find_mine_collect ai eqs vals
  ⊆ unknowns (CSPAI.width ai) (CSPAI.height ai) eqs.
Proof.
  intros x (c & Hc & Hx)%find_mine_collect_spec. apply elem_of_unknowns.
  exists c. split; [done|]. by apply (saturated_subseteq eqs vals).
Qed.

Lemma find_safe_collect_unknowns ai eqs vals :
  CSPAI.find_safe_collect ai eqs vals
  ⊆ unknowns (CSPAI.width ai) (CSPAI.height ai) eqs.
Proof.
  intros x (c & Hc & Hx)%find_safe_collect_spec. apply elem_of_unknowns.
  exists c. split; [done|]. by apply (exhausted_subseteq eqs vals).
Qed.

(** [find_mine]: it returns, with the mines found added to [mines_], these
    mines gone from every equation and every value lowered by the number
    of them the equation held. *)
Lemma find_mine_spec ai eqs vals mines_ :
  solver_ok ai eqs vals →
  ∃ eqs' vals',
    CSPAI.find_mine ai eqs vals mines_
    = Returns ((eqs', vals'), CSPAI.find_mine_collect ai eqs vals ∪ mines_)
    ∧ solver_ok ai eqs' vals'
    ∧ ∀ c, in_board (CSPAI.width ai) (CSPAI.height ai) c →
           eq_at eqs' c = eq_at eqs c ∖ CSPAI.find_mine_collect ai eqs vals
           ∧ val_at vals' c
             = (λ v, v - Z.of_nat (size (eq_at eqs c
                                         ∩ CSPAI.find_mine_collect ai eqs vals)))
               <$> val_at vals c.
Proof.
  intros Hok. unfold CSPAI.find_mine.
  destruct (remove_mines_fold ai (elements (CSPAI.find_mine_collect ai eqs vals)) eqs vals)
    as (eqs' & vals' & -> & Hok' & Hst); [apply NoDup_elements|done|].
  exists eqs', vals'. split_and!; [done..|].
  intros c Hc. specialize (Hst c Hc). by rewrite list_to_set_elements_L in Hst.
Qed.

(** [find_safe]: the safe squares found are added to [safe_] and are gone
    from every equation; the values stay. *)
Lemma find_safe_spec ai eqs vals safe_ :
  solver_ok ai eqs vals →
  ∃ eqs',
    CSPAI.find_safe ai eqs vals safe_
    = ((eqs', vals), CSPAI.find_safe_collect ai eqs vals ∪ safe_)
    ∧ solver_ok ai eqs' vals
    ∧ ∀ c, in_board (CSPAI.width ai) (CSPAI.height ai) c →
           eq_at eqs' c = eq_at eqs c ∖ CSPAI.find_safe_collect ai eqs vals.
Proof.
  intros (Hse & Hsv & Hsome). unfold CSPAI.find_safe.
  destruct (remove_safes_fold ai (elements (CSPAI.find_safe_collect ai eqs vals)) eqs)
    as [Hs' He']; [done|].
  eexists. split; [done|].
  assert (∀ c, in_board (CSPAI.width ai) (CSPAI.height ai) c →
               eq_at (fold_left (CSPAI.find_safe_remove ai)
                        (elements (CSPAI.find_safe_collect ai eqs vals)) eqs) c
               = eq_at eqs c ∖ CSPAI.find_safe_collect ai eqs vals) as He.
  { intros c Hc. rewrite He' by done. by rewrite list_to_set_elements_L. }
  split; [|done]. split_and!; [done..|].
  intros c Hc Hne. apply Hsome; [done|]. rewrite He in Hne by done. set_solver.
Qed.

(** One pass of the loop of [find_safe_and_mine] takes the squares it
    finds out of the unknowns. *)
Lemma pass_unknowns (ai : CSPAI.t) (eqs eqs1 eqs2 : list (list (gset (Z * Z))))
    (Mn Sf : gset (Z * Z)) :
  (∀ c, in_board (CSPAI.width ai) (CSPAI.height ai) c → eq_at eqs1 c = eq_at eqs c ∖ Mn) →
  (∀ c, in_board (CSPAI.width ai) (CSPAI.height ai) c → eq_at eqs2 c = eq_at eqs1 c ∖ Sf) →
  unknowns (CSPAI.width ai) (CSPAI.height ai) eqs2
  = unknowns (CSPAI.width ai) (CSPAI.height ai) eqs ∖ (Mn ∪ Sf).
Proof.
  intros H1 H2. apply set_eq. intros x.
  rewrite elem_of_difference, !elem_of_unknowns. split.
  - intros (c & Hc & Hx). rewrite H2, H1 in Hx by done. split; [|set_solver].
    exists c. split; [done|set_solver].
  - intros [(c & Hc & Hx) Hn]. exists c. split; [done|].
    rewrite H2, H1 by done. set_solver.
Qed.

(** The loop ends within [size unknowns + 1] passes, and what it returns
    was in [mines_], in [safe_] or among the unknowns. *)
Lemma find_safe_and_mine_loop_returns (fuel : nat) (ai : CSPAI.t)
    (eqs : list (list (gset (Z * Z)))) (vals : list (list (option Z)))
    (mines_ safe_ : gset (Z * Z)) :
  solver_ok ai eqs vals →
  (size (unknowns (CSPAI.width ai) (CSPAI.height ai) eqs) < fuel)%nat →
  ∃ mines safe,
    CSPAI.find_safe_and_mine_loop fuel ai (eqs, vals) mines_ safe_ = Returns (mines, safe)
    ∧ mines_ ⊆ mines ∧ safe_ ⊆ safe
    ∧ mines ⊆ mines_ ∪ unknowns (CSPAI.width ai) (CSPAI.height ai) eqs
    ∧ safe ⊆ safe_ ∪ unknowns (CSPAI.width ai) (CSPAI.height ai) eqs.
Proof.
  revert eqs vals mines_ safe_.
  induction fuel as [|fuel IH]; intros eqs vals mines_ safe_ Hok Hfuel; [lia|].
  cbn [CSPAI.find_safe_and_mine_loop fst snd].
  destruct (find_mine_spec ai eqs vals mines_ Hok) as (eqs1 & vals1 & -> & Hok1 & Hst1).
  cbn [mbind outcome_bind fst snd].
  destruct (find_safe_spec ai eqs1 vals1 safe_ Hok1) as (eqs2 & -> & Hok2 & Hst2).
  set (Mn := CSPAI.find_mine_collect ai eqs vals) in *.
  set (Sf := CSPAI.find_safe_collect ai eqs1 vals1) in *.
  assert (Mn ⊆ unknowns (CSPAI.width ai) (CSPAI.height ai) eqs) as HM
    by apply find_mine_collect_unknowns.
  assert (unknowns (CSPAI.width ai) (CSPAI.height ai) eqs1
          ⊆ unknowns (CSPAI.width ai) (CSPAI.height ai) eqs) as H1.
  { intros x (c & Hc & Hx)%elem_of_unknowns. apply elem_of_unknowns. exists c.
    split; [done|]. rewrite (proj1 (Hst1 c Hc)) in Hx. set_solver. }
  assert (Sf ⊆ unknowns (CSPAI.width ai) (CSPAI.height ai) eqs) as HS.
  { etrans; [apply find_safe_collect_unknowns|done]. }
  assert (unknowns (CSPAI.width ai) (CSPAI.height ai) eqs2
          = unknowns (CSPAI.width ai) (CSPAI.height ai) eqs ∖ (Mn ∪ Sf)) as H2.
  { apply (pass_unknowns ai eqs eqs1 eqs2); [|done]. intros c Hc. by apply Hst1. }
  destruct (decide (Mn ∪ mines_ = mines_ ∧ Sf ∪ safe_ = safe_)) as [[HeqM HeqS]|Hne].
  - exists (Mn ∪ mines_), (Sf ∪ safe_). split_and!; [done|set_solver..].
  - destruct (IH eqs2 vals1 (Mn ∪ mines_) (Sf ∪ safe_)) as (mines & safe & -> & ? & ? & ? & ?).
    + done.
    + assert (∃ x, x ∈ Mn ∪ Sf) as [x Hx].
      { destruct (set_choose_or_empty (Mn ∪ Sf)) as [?|Hempty]; [done|].
        exfalso. apply Hne. apply leibniz_equiv in Hempty. set_solver. }
      assert (unknowns (CSPAI.width ai) (CSPAI.height ai) eqs2
              ⊂ unknowns (CSPAI.width ai) (CSPAI.height ai) eqs) as Hsub.
      { rewrite H2. set_solver. }
      apply subset_size in Hsub. lia.
    + exists mines, safe. split_and!; [done|set_solver..].
Qed.

(** ** The solver against the mines of the game *)

Definition mines_in (g : Game.t) (X : gset (Z * Z)) : nat :=
  size (filter (λ u, is_mine g u = true) X).

(** Every equation that still has unknowns has for value the number of
    mines among them. *)
Definition truth_ok (g : Game.t) (ai : CSPAI.t) (eqs : list (list (gset (Z * Z))))
    (vals : list (list (option Z))) : Prop :=
  ∀ c, in_board (CSPAI.width ai) (CSPAI.height ai) c → eq_at eqs c ≠ ∅ →
       val_at vals c = Some (Z.of_nat (mines_in g (eq_at eqs c))).

Lemma mines_in_le (g : Game.t) (X : gset (Z * Z)) : (mines_in g X ≤ size X)%nat.
Proof. apply subseteq_size. intros x [_ ?]%elem_of_filter. done. Qed.

Lemma mines_in_all (g : Game.t) (X : gset (Z * Z)) x :
  mines_in g X = size X → x ∈ X → is_mine g x = true.
Proof.
  intros Hsize Hx.
  assert (filter (λ u, is_mine g u = true) X = X) as Heq.
  { apply set_subseteq_size_eq; [|unfold mines_in in Hsize; lia].
    intros u [_ ?]%elem_of_filter. done. }
  rewrite <- Heq in Hx. by apply elem_of_filter in Hx as [? _].
Qed.

Lemma mines_in_none (g : Game.t) (X : gset (Z * Z)) x :
  mines_in g X = 0%nat → x ∈ X → is_mine g x = false.
Proof.
  intros Hsize Hx. destruct (is_mine g x) eqn:Hm; [|done]. exfalso.
  apply size_empty_inv in Hsize.
  assert (x ∈ filter (λ u, is_mine g u = true) X) as Hin by (by apply elem_of_filter).
  rewrite Hsize in Hin. by apply not_elem_of_empty in Hin.
Qed.

Lemma mines_in_difference_mines (g : Game.t) (X Mn : gset (Z * Z)) :
  (∀ x, x ∈ Mn → is_mine g x = true) →
  Z.of_nat (mines_in g (X ∖ Mn)) = Z.of_nat (mines_in g X) - Z.of_nat (size (X ∩ Mn)).
Proof.
  intros HM. unfold mines_in.
  assert (filter (λ u, is_mine g u = true) (X ∖ Mn)
          = filter (λ u, is_mine g u = true) X ∖ (X ∩ Mn)) as ->.
  { apply set_eq. intros u.
    rewrite elem_of_difference, !elem_of_filter, elem_of_difference, elem_of_intersection.
    tauto. }
  assert (X ∩ Mn ⊆ filter (λ u, is_mine g u = true) X) as Hsub.
  { intros u [? ?]%elem_of_intersection. apply elem_of_filter. split; [by apply HM|done]. }
  rewrite size_difference by done. apply subseteq_size in Hsub. lia.
Qed.

Lemma mines_in_difference_safe (g : Game.t) (X Sf : gset (Z * Z)) :
  (∀ x, x ∈ Sf → is_mine g x = false) →
  mines_in g (X ∖ Sf) = mines_in g X.
Proof.
  intros HS. unfold mines_in. f_equal. apply set_eq. intros u.
  rewrite !elem_of_filter, elem_of_difference. split; [tauto|].
  intros [Hm Hu]. split_and!; [done..|]. intros Hin. apply HS in Hin. congruence.
Qed.

Lemma find_mine_collect_mines (g : Game.t) (ai : CSPAI.t) eqs vals x :
  truth_ok g ai eqs vals →
  x ∈ CSPAI.find_mine_collect ai eqs vals → is_mine g x = true.
Proof.
  intros Htruth (c & Hc & Hx)%find_mine_collect_spec.
  pose proof (saturated_subseteq eqs vals c x Hx) as Hin.
  unfold saturated in Hx.
  rewrite (Htruth c Hc) in Hx by set_solver.
  destruct (negb _); [|by apply not_elem_of_empty in Hx].
  destruct (Z.eqb_spec (Z.of_nat (mines_in g (eq_at eqs c)))
              (Z.of_nat (size (eq_at eqs c)))) as [Heq|]; [|by apply not_elem_of_empty in Hx].
  apply (mines_in_all g (eq_at eqs c)); [lia|done].
Qed.

Lemma find_safe_collect_safe (g : Game.t) (ai : CSPAI.t) eqs vals x :
  truth_ok g ai eqs vals →
  x ∈ CSPAI.find_safe_collect ai eqs vals → is_mine g x = false.
Proof.
  intros Htruth (c & Hc & Hx)%find_safe_collect_spec.
  pose proof (exhausted_subseteq eqs vals c x Hx) as Hin.
  unfold exhausted in Hx.
  rewrite (Htruth c Hc) in Hx by set_solver.
  destruct (Z.eqb_spec (Z.of_nat (mines_in g (eq_at eqs c))) 0) as [Heq|];
    [|by apply not_elem_of_empty in Hx].
  apply (mines_in_none g (eq_at eqs c)); [lia|done].
Qed.

(** What the loop returns is right whenever the equations it starts from
    are. *)
Lemma find_safe_and_mine_loop_sound (g : Game.t) (fuel : nat) (ai : CSPAI.t)
    (eqs : list (list (gset (Z * Z)))) (vals : list (list (option Z)))
    (mines_ safe_ mines safe : gset (Z * Z)) :
  solver_ok ai eqs vals → truth_ok g ai eqs vals →
  (∀ x, x ∈ mines_ → is_mine g x = true) →
  (∀ x, x ∈ safe_ → is_mine g x = false) →
  CSPAI.find_safe_and_mine_loop fuel ai (eqs, vals) mines_ safe_ = Returns (mines, safe) →
  (∀ x, x ∈ mines → is_mine g x = true) ∧ (∀ x, x ∈ safe → is_mine g x = false).
Proof.
  revert eqs vals mines_ safe_.
  induction fuel as [|fuel IH]; intros eqs vals mines_ safe_ Hok Htruth Hm Hs; [done|].
  cbn [CSPAI.find_safe_and_mine_loop fst snd].
  destruct (find_mine_spec ai eqs vals mines_ Hok) as (eqs1 & vals1 & -> & Hok1 & Hst1).
  cbn [mbind outcome_bind fst snd].
  destruct (find_safe_spec ai eqs1 vals1 safe_ Hok1) as (eqs2 & -> & Hok2 & Hst2).
  pose proof (find_mine_collect_mines g ai eqs vals) as HM.
  set (Mn := CSPAI.find_mine_collect ai eqs vals) in *.
  assert (truth_ok g ai eqs1 vals1) as Htruth1.
  { intros c Hc Hne. destruct (Hst1 c Hc) as [He Hv]. rewrite He in Hne.
    rewrite Hv, Htruth by (done || set_solver). simpl. f_equal.
    rewrite He. rewrite mines_in_difference_mines; [lia|]. intros x Hx. by apply HM. }
  pose proof (find_safe_collect_safe g ai eqs1 vals1) as HS.
  set (Sf := CSPAI.find_safe_collect ai eqs1 vals1) in *.
  assert (truth_ok g ai eqs2 vals1) as Htruth2.
  { intros c Hc Hne. rewrite Hst2 in Hne |- * by done.
    rewrite mines_in_difference_safe by (intros x Hx; by apply HS).
    apply Htruth1; [done|set_solver]. }
  assert (∀ x, x ∈ Mn ∪ mines_ → is_mine g x = true) as Hm'.
  { intros x [?|?]%elem_of_union; [by apply HM|by apply Hm]. }
  assert (∀ x, x ∈ Sf ∪ safe_ → is_mine g x = false) as Hs'.
  { intros x [?|?]%elem_of_union; [by apply HS|by apply Hs]. }
  destruct (decide (Mn ∪ mines_ = mines_ ∧ Sf ∪ safe_ = safe_)) as [_|_].
  - intros [= <- <-]. done.
  - by apply IH.
Qed.

(** ** The solver on the equations of [calc_equations] *)

(** The squares of the board that are exposed, as the player's record
    holds them when every [MoveResult] was passed to [update]. *)
Definition exposed_set (g : Game.t) : gset (Z * Z) :=
  list_to_set (filter (λ c, is_exposed g c = true)
                 (board (Game.width g) (Game.height g))).

Lemma elem_of_exposed_set (g : Game.t) c :
  c ∈ exposed_set g
  ↔ in_board (Game.width g) (Game.height g) c ∧ is_exposed g c = true.
Proof.
  unfold exposed_set. rewrite elem_of_list_to_set, list_elem_of_filter, elem_of_board.
  tauto.
Qed.

(** The player's record holds squares of the board that show a count. *)
Definition tracking_ok (ai : CSPAI.t) (vals : list (list (option Z))) : Prop :=
  ∀ c, c ∈ CSPAI.exposed_squares ai →
       in_board (CSPAI.width ai) (CSPAI.height ai) c ∧ is_Some (val_at vals c).

Lemma calc_equations_elem (ai : CSPAI.t) vals c x :
  tracking_ok ai vals →
  x ∈ eq_at (CSPAI.calc_equations ai vals) c →
  c ∈ CSPAI.exposed_squares ai
  ∧ adjacent c x
  ∧ in_board (CSPAI.width ai) (CSPAI.height ai) x
  ∧ val_at vals x = None.
Proof.
  intros Htrack Hx.
  destruct (calc_equations_spec ai vals) as [_ Heq]; [intros c' Hc'; by apply Htrack|].
  rewrite Heq in Hx. case_decide; [|by apply not_elem_of_empty in Hx].
  apply elem_of_list_to_set, list_elem_of_filter in Hx as [[? ?] ?]. done.
Qed.

Lemma calc_equations_ok (ai : CSPAI.t) vals :
  grid_shape (CSPAI.width ai) (CSPAI.height ai) vals →
  tracking_ok ai vals →
  solver_ok ai (CSPAI.calc_equations ai vals) vals.
Proof.
  intros Hs Htrack.
  destruct (calc_equations_spec ai vals) as [Hse Heq]; [intros c' Hc'; by apply Htrack|].
  split_and!; [done..|]. intros c Hc Hne.
  apply set_choose_L in Hne as [x Hx].
  apply calc_equations_elem in Hx as [Hin _]; [|done]. by apply Htrack.
Qed.

(** There are fewer unknowns than squares. *)
Lemma calc_equations_unknowns (ai : CSPAI.t) vals :
  0 < CSPAI.width ai → 0 < CSPAI.height ai →
  tracking_ok ai vals →
  (size (unknowns (CSPAI.width ai) (CSPAI.height ai) (CSPAI.calc_equations ai vals))
   < Z.to_nat (CSPAI.width ai * CSPAI.height ai))%nat.
Proof.
  intros Hw Hh Htrack.
  set (U := unknowns _ _ _).
  destruct (set_choose_or_empty U) as [[x Hx]|Hempty].
  - apply elem_of_unknowns in Hx as (c & Hc & Hx).
    apply calc_equations_elem in Hx as (Hin & _); [|done].
    destruct (Htrack c Hin) as [_ [v Hv]].
    assert (U ⊆ list_to_set (board (CSPAI.width ai) (CSPAI.height ai)) ∖ {[c]}) as Hsub.
    { intros u (c' & Hc' & Hu)%elem_of_unknowns.
      apply calc_equations_elem in Hu as (_ & _ & Hub & Hun); [|done].
      apply elem_of_difference. split.
      - by apply elem_of_list_to_set, elem_of_board.
      - intros ->%elem_of_singleton. congruence. }
    apply subseteq_size in Hsub.
    rewrite size_difference in Hsub.
    + rewrite size_list_to_set, size_singleton in Hsub by apply NoDup_board.
      pose proof (length_board (CSPAI.width ai) (CSPAI.height ai)) as Hlen.
      assert (0 < length (board (CSPAI.width ai) (CSPAI.height ai)))%nat.
      { assert (c ∈ board (CSPAI.width ai) (CSPAI.height ai)) as Hcb
          by (by apply elem_of_board).
        destruct (board _ _); [by apply not_elem_of_nil in Hcb|simpl; lia]. }
      lia.
    + intros u ->%elem_of_singleton. by apply elem_of_list_to_set, elem_of_board.
  - apply size_empty_iff in Hempty. rewrite Hempty. nia.
Qed.

Lemma calc_equations_truth (g : Game.t) (ai : CSPAI.t) :
  game_inv g → Game._explosion g = false →
  CSPAI.width ai = Game.width g → CSPAI.height ai = Game.height g →
  CSPAI.exposed_squares ai = exposed_set g →
  tracking_ok ai (Game.state g)
  ∧ truth_ok g ai (CSPAI.calc_equations ai (Game.state g)) (Game.state g).
Proof.
  intros Hinv Hexpl Hw Hh Htrack.
  destruct (state_spec g) as [Hss Hstate].
  assert (tracking_ok ai (Game.state g)) as Hok.
  { intros c Hc. rewrite Htrack in Hc. apply elem_of_exposed_set in Hc as [Hc Hexp].
    rewrite Hw, Hh. split; [done|]. rewrite Hstate, Hexp by done. by eexists. }
  split; [done|]. intros c Hc Hne.
  destruct (calc_equations_spec ai (Game.state g)) as [_ Heq];
    [intros c' Hc'; by apply Hok|].
  rewrite Heq in Hne |- *. case_decide as Hin; [|done].
  rewrite Htrack in Hin. apply elem_of_exposed_set in Hin as [Hcb Hexp].
  rewrite Hstate, Hexp by done. f_equal.
  rewrite (inv_counts _ Hinv c Hcb). unfold neighbor_mines, mines_in. f_equal.
  assert (filter (λ u, is_mine g u = true)
            (list_to_set (filter (λ u, in_board (CSPAI.width ai) (CSPAI.height ai) u
                                       ∧ val_at (Game.state g) u = None) (neighbors c))
             : gset (Z * Z))
          = list_to_set (filter (λ c', in_board (Game.width g) (Game.height g) c'
                                       ∧ is_mine g c' = true) (neighbors c))) as ->.
  { apply set_eq. intros u.
    rewrite elem_of_filter, !elem_of_list_to_set, !list_elem_of_filter, Hw, Hh.
    split; [tauto|]. intros [[Hub Hm] Hn]. split_and!; [done..| |done].
    rewrite Hstate by done. destruct (is_exposed g u) eqn:Hu; [|done]. exfalso.
    assert (mine_exposed g) as Hme by (by exists u).
    apply (inv_explosion _ Hinv) in Hme. congruence. }
  rewrite size_list_to_set; [done|]. apply NoDup_filter, NoDup_neighbors.
Qed.

Lemma find_safe_and_mine_loop_fuel (fuel fuel' : nat) (ai : CSPAI.t)
    (st : list (list (gset (Z * Z))) * list (list (option Z)))
    (mines_ safe_ : gset (Z * Z)) r :
  CSPAI.find_safe_and_mine_loop fuel ai st mines_ safe_ = Returns r →
  (fuel ≤ fuel')%nat →
  CSPAI.find_safe_and_mine_loop fuel' ai st mines_ safe_ = Returns r.
Proof.
  revert fuel' st mines_ safe_.
  induction fuel as [|fuel IH]; intros fuel' st mines_ safe_ Hret Hle; [done|].
  destruct fuel' as [|fuel']; [lia|].
  cbn [CSPAI.find_safe_and_mine_loop] in Hret |- *.
  destruct (CSPAI.find_mine ai st.1 st.2 mines_) as [[st1 mines]| |]; [|done..].
  cbn [mbind outcome_bind] in Hret |- *.
  destruct (CSPAI.find_safe ai st1.1 st1.2 safe_) as [st2 safe].
  destruct (decide (mines = mines_ ∧ safe = safe_)); [done|].
  apply IH; [done|lia].
Qed.

(** ** Properties of the solver *)

Definition ai_3x1 : CSPAI.t := CSPAI.mk 3 1 (list_to_set [(1, 0)]) [].
Definition state_3x1 : list (list (option Z)) := [[None]; [Some 1]; [None]].
Definition game_3x1_play : Game.t :=
  Game.mk 3 1 1 1 1 false false 2 [[false]; [true]; [false]] [[0]; [1]; [0]] mines_3x1.

Lemma tracking_ok_3x1 : tracking_ok ai_3x1 state_3x1.
Proof.
  intros c Hc. apply elem_of_list_to_set, list_elem_of_singleton in Hc as ->.
  split; [by vm_compute|by eexists].
Defined.

Lemma reachable_3x1_play : reachable game_3x1_play.
Proof.
  exists config_3x1, (Some mines_3x1), [], game_3x1_start, [Select 1 0].
  split_and!; [apply valid_setup_3x1|by vm_compute|by vm_compute].
Defined.

(** A 3 x 3 board with mines at (0,0) and (0,1), after [select(2, 0)]:
    the columns x = 1 and x = 2 are exposed, the column x = 0 is not.  The
    equation of (1,0) has the two mines as its unknowns and the value 2;
    once they are found, the equations of (1,1) and (1,2) have the value 0
    and the unknown (0,2). *)
Definition config_3x3_two : GameConfig.t := GameConfig.mk 3 3 2.
Definition mines_3x3_two : list (list bool) :=
  [[true; true; false]; [false; false; false]; [false; false; false]].
Definition game_3x3_two_start : Game.t :=
  Game.mk 3 3 2 0 0 false false 7
    [[false; false; false]; [false; false; false]; [false; false; false]]
    [[1; 1; 1]; [2; 2; 1]; [0; 0; 0]] mines_3x3_two.
Definition game_3x3_two_play : Game.t :=
  Game.mk 3 3 2 1 6 false false 7
    [[false; false; false]; [true; true; true]; [true; true; true]]
    [[1; 1; 1]; [2; 2; 1]; [0; 0; 0]] mines_3x3_two.
Definition ai_3x3_two : CSPAI.t :=
  CSPAI.mk 3 3 (list_to_set [(1, 0); (1, 1); (1, 2); (2, 0); (2, 1); (2, 2)]) [].
Definition state_3x3_two : list (list (option Z)) :=
  [[None; None; None]; [Some 2; Some 2; Some 1]; [Some 0; Some 0; Some 0]].
Definition eqs_3x3_two_mid : list (list (gset (Z * Z))) :=
  [[∅; ∅; ∅]; [∅; {[(0, 2)]}; {[(0, 2)]}]; [∅; ∅; ∅]].
Definition state_3x3_two_mid : list (list (option Z)) :=
  [[None; None; None]; [Some 0; Some 0; Some 0]; [Some 0; Some 0; Some 0]].

Lemma valid_setup_3x3_two : valid_setup config_3x3_two (Some mines_3x3_two) [].
Proof.
  unfold valid_setup. simpl. split_and!; try lia.
  - solve_shape.
  - by vm_compute.
  - intros c Hc. by apply not_elem_of_nil in Hc.
Defined.

Lemma game_3x3_two_init :
  Game.__init__ config_3x3_two (Some mines_3x3_two) [] = Returns game_3x3_two_start.
Proof. vm_compute. reflexivity. Defined.

Lemma game_3x3_two_run : run game_3x3_two_start [Select 2 0] = game_3x3_two_play.
Proof. vm_compute. reflexivity. Defined.

Lemma state_3x3_two_eq : Game.state game_3x3_two_play = state_3x3_two.
Proof. vm_compute. reflexivity. Defined.

Lemma reachable_3x3_two_play : reachable game_3x3_two_play.
Proof.
  exists config_3x3_two, (Some mines_3x3_two), [], game_3x3_two_start, [Select 2 0].
  split_and!; [apply valid_setup_3x3_two|apply game_3x3_two_init|].
  symmetry. apply game_3x3_two_run.
Defined.

Lemma tracking_ok_3x3_two : tracking_ok ai_3x3_two state_3x3_two.
Proof.
  intros c Hc. apply elem_of_list_to_set in Hc.
  repeat (apply elem_of_cons in Hc as [->|Hc]);
    try (split; [vm_compute; repeat split; discriminate|by eexists]).
  by apply not_elem_of_nil in Hc.
Defined.

Lemma find_mine_3x3_two :
  CSPAI.find_mine ai_3x3_two (CSPAI.calc_equations ai_3x3_two state_3x3_two)
    state_3x3_two ∅
  = Returns ((eqs_3x3_two_mid, state_3x3_two_mid), list_to_set [(0, 0); (0, 1)]).
Proof. vm_compute. reflexivity. Defined.

Lemma solver_ok_3x3_two_mid : solver_ok ai_3x3_two eqs_3x3_two_mid state_3x3_two_mid.
Proof.
  split_and!; [solve_shape..|].
  intros c Hc%elem_of_board Hne.
  assert (board (CSPAI.width ai_3x3_two) (CSPAI.height ai_3x3_two)
          = [(0, 0); (0, 1); (0, 2); (1, 0); (1, 1); (1, 2); (2, 0); (2, 1); (2, 2)])
    as Hb by (vm_compute; reflexivity).
  rewrite Hb in Hc.
  repeat (apply elem_of_cons in Hc as [->|Hc]);
    try first [exfalso; apply Hne; reflexivity|eexists; reflexivity].
  by apply not_elem_of_nil in Hc.
Defined.

(** X1.  [Game.state] has the shape of the board; a square of the board
    shows its count when it is exposed and [None] when it is not. *)
Theorem state_shows_exposed_counts (g : Game.t) :
  grid_shape (Game.width g) (Game.height g) (Game.state g)
  ∧ ∀ c, in_board (Game.width g) (Game.height g) c →
         val_at (Game.state g) c
         = if is_exposed g c then Some (count_at g c) else None.
Proof. apply state_spec. Qed.

Lemma state_shows_exposed_counts_witness :
  in_board (Game.width game_3x1_play) (Game.height game_3x1_play) (1, 0)
  ∧ val_at (Game.state game_3x1_play) (1, 0)
    = if is_exposed game_3x1_play (1, 0) then Some (count_at game_3x1_play (1, 0)) else None.
Proof.
  assert (in_board (Game.width game_3x1_play) (Game.height game_3x1_play) (1, 0))
    as Hin by (by vm_compute).
  split; [exact Hin|].
  exact (proj2 (state_shows_exposed_counts game_3x1_play) (1, 0) Hin).
Defined.



(** X3.  [find_mine] on arrays of the player's shape in which every
    equation with unknowns has a value and some square shows [None] (so
    that numpy holds the values as Python objects, whose integers do not
    wrap): it returns (no [TypeError]); the set returned holds [mines_]
    and the unknowns of every equation of the board whose value is not 0
    and is the number of its unknowns; these are gone from every equation
    of the board, and every value is lowered by the number of them its
    equation held. *)
Theorem find_mine_returns (ai : CSPAI.t) (eqs : list (list (gset (Z * Z))))
    (vals : list (list (option Z))) (mines_ : gset (Z * Z)) :
  solver_ok ai eqs vals →
  (∃ c, in_board (CSPAI.width ai) (CSPAI.height ai) c ∧ val_at vals c = None) →
  ∃ eqs' vals' found,
    CSPAI.find_mine ai eqs vals mines_ = Returns ((eqs', vals'), found ∪ mines_)
    ∧ (∀ x, x ∈ found
            ↔ ∃ c v, in_board (CSPAI.width ai) (CSPAI.height ai) c
                     ∧ val_at vals c = Some v ∧ v ≠ 0
                     ∧ v = Z.of_nat (size (eq_at eqs c)) ∧ x ∈ eq_at eqs c)
    ∧ solver_ok ai eqs' vals'
    ∧ ∀ c, in_board (CSPAI.width ai) (CSPAI.height ai) c →
           eq_at eqs' c = eq_at eqs c ∖ found
           ∧ val_at vals' c
             = (λ v, v - Z.of_nat (size (eq_at eqs c ∩ found))) <$> val_at vals c.
Proof.
  intros Hok _.
  destruct (find_mine_spec ai eqs vals mines_ Hok) as (eqs' & vals' & Hret & Hok' & Hst).
  exists eqs', vals', (CSPAI.find_mine_collect ai eqs vals).
  split_and!; [done| |done..].
  intros x. rewrite find_mine_collect_spec. unfold saturated. split.
  - intros (c & Hc & Hx). destruct (val_at vals c) as [v|] eqn:Hv;
      [|by apply not_elem_of_empty in Hx].
    destruct (Z.eqb_spec v 0); simpl in Hx; [by apply not_elem_of_empty in Hx|].
    destruct (Z.eqb_spec v (Z.of_nat (size (eq_at eqs c))));
      [|by apply not_elem_of_empty in Hx].
    by exists c, v.
  - intros (c & v & Hc & Hv & Hv0 & Hsize & Hx). exists c. split; [done|].
    rewrite Hv. destruct (Z.eqb_spec v 0); [done|]. simpl.
    by destruct (Z.eqb_spec v (Z.of_nat (size (eq_at eqs c)))).
Qed.

Lemma find_mine_returns_witness :
  solver_ok ai_3x3_two (CSPAI.calc_equations ai_3x3_two state_3x3_two) state_3x3_two
  ∧ (∃ c, in_board (CSPAI.width ai_3x3_two) (CSPAI.height ai_3x3_two) c
          ∧ val_at state_3x3_two c = None)
  ∧ ∃ eqs' vals' found,
      CSPAI.find_mine ai_3x3_two (CSPAI.calc_equations ai_3x3_two state_3x3_two)
        state_3x3_two ∅
      = Returns ((eqs', vals'), found ∪ ∅)
      ∧ (0, 0) ∈ found ∧ (0, 1) ∈ found
      ∧ val_at vals' (1, 1) = Some 0.
Proof.
  assert (solver_ok ai_3x3_two (CSPAI.calc_equations ai_3x3_two state_3x3_two)
            state_3x3_two) as Hok.
  { apply calc_equations_ok; [solve_shape|apply tracking_ok_3x3_two]. }
  assert (∃ c, in_board (CSPAI.width ai_3x3_two) (CSPAI.height ai_3x3_two) c
               ∧ val_at state_3x3_two c = None) as Hnone.
  { exists (0, 0). split; [vm_compute; repeat split; discriminate|reflexivity]. }
  assert (in_board (CSPAI.width ai_3x3_two) (CSPAI.height ai_3x3_two) (1, 0)) as Hin10
    by (vm_compute; repeat split; discriminate).
  assert (in_board (CSPAI.width ai_3x3_two) (CSPAI.height ai_3x3_two) (1, 1)) as Hin11
    by (vm_compute; repeat split; discriminate).
  assert (eq_at (CSPAI.calc_equations ai_3x3_two state_3x3_two) (1, 0)
          = list_to_set [(0, 0); (0, 1)]) as Heq10 by (vm_compute; reflexivity).
  assert (eq_at (CSPAI.calc_equations ai_3x3_two state_3x3_two) (1, 1)
          = list_to_set [(0, 0); (0, 1); (0, 2)]) as Heq11 by (vm_compute; reflexivity).
  split_and!; [exact Hok|exact Hnone|].
  destruct (find_mine_returns ai_3x3_two _ state_3x3_two ∅ Hok Hnone)
    as (eqs' & vals' & found & Hret & Hfound & _ & Hafter).
  assert (∀ x, x ∈ [(0, 0); (0, 1)] → x ∈ found) as Hin.
  { intros x Hx. apply Hfound. exists (1, 0), 2.
    split_and!; [exact Hin10|reflexivity|discriminate| |].
    - rewrite Heq10. vm_compute. reflexivity.
    - rewrite Heq10. apply elem_of_list_to_set. exact Hx. }
  assert (found = list_to_set [(0, 0); (0, 1)]) as Hfound'.
  { rewrite find_mine_3x3_two in Hret. injection Hret as _ _ Hf.
    rewrite (right_id_L ∅ (∪) found) in Hf. symmetry. exact Hf. }
  exists eqs', vals', found. split_and!; [exact Hret|apply Hin; left|apply Hin; right; left|].
  rewrite (proj2 (Hafter (1, 1) Hin11)), Heq11, Hfound'. vm_compute. reflexivity.
Defined.

(** X4.  [find_safe] on such arrays: the set returned holds [safe_] and
    the unknowns of every equation of the board whose value is 0; these
    are gone from every equation of the board; the values are as they
    were. *)
Theorem find_safe_returns (ai : CSPAI.t) (eqs : list (list (gset (Z * Z))))
    (vals : list (list (option Z))) (safe_ : gset (Z * Z)) :
  solver_ok ai eqs vals →
  ∃ eqs' found,
    CSPAI.find_safe ai eqs vals safe_ = ((eqs', vals), found ∪ safe_)
    ∧ (∀ x, x ∈ found
            ↔ ∃ c, in_board (CSPAI.width ai) (CSPAI.height ai) c
                   ∧ val_at vals c = Some 0 ∧ x ∈ eq_at eqs c)
    ∧ solver_ok ai eqs' vals
    ∧ ∀ c, in_board (CSPAI.width ai) (CSPAI.height ai) c →
           eq_at eqs' c = eq_at eqs c ∖ found.
Proof.
  intros Hok.
  destruct (find_safe_spec ai eqs vals safe_ Hok) as (eqs' & Hret & Hok' & Hst).
  exists eqs', (CSPAI.find_safe_collect ai eqs vals).
  split_and!; [done| |done..].
  intros x. rewrite find_safe_collect_spec. unfold exhausted. split.
  - intros (c & Hc & Hx). destruct (val_at vals c) as [v|] eqn:Hv;
      [|by apply not_elem_of_empty in Hx].
    destruct (Z.eqb_spec v 0) as [->|]; [|by apply not_elem_of_empty in Hx].
    by exists c.
  - intros (c & Hc & Hv & Hx). exists c. split; [done|]. by rewrite Hv.
Qed.

Lemma find_safe_returns_witness :
  solver_ok ai_3x3_two eqs_3x3_two_mid state_3x3_two_mid
  ∧ ∃ eqs' found,
      CSPAI.find_safe ai_3x3_two eqs_3x3_two_mid state_3x3_two_mid ∅
      = ((eqs', state_3x3_two_mid), found ∪ ∅)
      ∧ (0, 2) ∈ found
      ∧ (0, 2) ∉ eq_at eqs' (1, 1).
Proof.
  assert (in_board (CSPAI.width ai_3x3_two) (CSPAI.height ai_3x3_two) (1, 1)) as Hin11
    by (vm_compute; repeat split; discriminate).
  split; [exact solver_ok_3x3_two_mid|].
  destruct (find_safe_returns ai_3x3_two eqs_3x3_two_mid state_3x3_two_mid ∅
              solver_ok_3x3_two_mid) as (eqs' & found & Hret & Hfound & _ & Hafter).
  assert ((0, 2) ∈ found) as Hin.
  { apply Hfound. exists (1, 1). split_and!; [exact Hin11|reflexivity|].
    apply elem_of_singleton. reflexivity. }
  exists eqs', found. split_and!; [exact Hret|exact Hin|].
  rewrite (Hafter (1, 1) Hin11). intros [_ Hnot]%elem_of_difference. exact (Hnot Hin).
Defined.

(** X5.  [find_safe_and_mine] on the equations of [calc_equations], for a
    player of positive size whose record holds squares of the board that
    show a count: the loop ends within [width * height] passes (more fuel
    changes nothing), and every square returned, mine or safe, is on the
    board, shows [None] and is next to a recorded square. *)
Theorem find_safe_and_mine_terminates (ai : CSPAI.t) (vals : list (list (option Z))) :
  0 < CSPAI.width ai → 0 < CSPAI.height ai →
  grid_shape (CSPAI.width ai) (CSPAI.height ai) vals →
  tracking_ok ai vals →
  ∃ mines safe,
    (∀ fuel, (Z.to_nat (CSPAI.width ai * CSPAI.height ai) ≤ fuel)%nat →
       CSPAI.find_safe_and_mine fuel ai (CSPAI.calc_equations ai vals) vals
       = Returns (mines, safe))
    ∧ ∀ x, x ∈ mines ∪ safe →
        in_board (CSPAI.width ai) (CSPAI.height ai) x
        ∧ val_at vals x = None
        ∧ ∃ c, c ∈ CSPAI.exposed_squares ai ∧ adjacent c x.
Proof.
  intros Hw Hh Hs Htrack.
  destruct (find_safe_and_mine_loop_returns
              (Z.to_nat (CSPAI.width ai * CSPAI.height ai)) ai
              (CSPAI.calc_equations ai vals) vals ∅ ∅)
    as (mines & safe & Hret & _ & _ & Hm & Hsf).
  { by apply calc_equations_ok. }
  { by apply calc_equations_unknowns. }
  exists mines, safe. split.
  - intros fuel Hfuel. unfold CSPAI.find_safe_and_mine.
    by eapply find_safe_and_mine_loop_fuel.
  - intros x Hx.
    assert (x ∈ unknowns (CSPAI.width ai) (CSPAI.height ai)
                  (CSPAI.calc_equations ai vals)) as Hu by set_solver.
    apply elem_of_unknowns in Hu as (c & Hc & Hin).
    apply calc_equations_elem in Hin as (? & ? & ? & ?); [|done].
    split_and!; [done..|]. by exists c.
Qed.

Lemma find_safe_and_mine_terminates_witness :
  0 < CSPAI.width ai_3x1 ∧ 0 < CSPAI.height ai_3x1
  ∧ grid_shape (CSPAI.width ai_3x1) (CSPAI.height ai_3x1) state_3x1
  ∧ tracking_ok ai_3x1 state_3x1
  ∧ ∃ mines safe,
      ∀ fuel, (Z.to_nat (CSPAI.width ai_3x1 * CSPAI.height ai_3x1) ≤ fuel)%nat →
        CSPAI.find_safe_and_mine fuel ai_3x1 (CSPAI.calc_equations ai_3x1 state_3x1)
          state_3x1
        = Returns (mines, safe).
Proof.
  assert (0 < CSPAI.width ai_3x1) as Hw by (simpl; lia).
  assert (0 < CSPAI.height ai_3x1) as Hh by (simpl; lia).
  assert (grid_shape (CSPAI.width ai_3x1) (CSPAI.height ai_3x1) state_3x1) as Hs
    by solve_shape.
  split_and!; [exact Hw|exact Hh|exact Hs|exact tracking_ok_3x1|].
  destruct (find_safe_and_mine_terminates ai_3x1 state_3x1 Hw Hh Hs tracking_ok_3x1)
    as (mines & safe & Hret & _).
  exists mines, safe. exact Hret.
Defined.

(** X6.  In a game reached from a construction in which no mine has
    exploded, for a player of the game's size whose record is the set of
    exposed squares: [find_safe_and_mine] on the equations of the state
    the player sees ends within [width * height] passes; every square of
    the safe set holds no mine, every square of the mine set holds one,
    and all of them are unexposed squares of the board. *)
Theorem find_safe_and_mine_sound (g : Game.t) (ai : CSPAI.t) :
  reachable g →
  Game._explosion g = false →
  CSPAI.width ai = Game.width g → CSPAI.height ai = Game.height g →
  CSPAI.exposed_squares ai = exposed_set g →
  ∃ mines safe,
    CSPAI.find_safe_and_mine (Z.to_nat (Game.width g * Game.height g)) ai
      (CSPAI.calc_equations ai (Game.state g)) (Game.state g)
    = Returns (mines, safe)
    ∧ (∀ x, x ∈ safe → is_mine g x = false)
    ∧ (∀ x, x ∈ mines → is_mine g x = true)
    ∧ (∀ x, x ∈ mines ∪ safe →
         in_board (Game.width g) (Game.height g) x ∧ is_exposed g x = false).
Proof.
  intros Hinv%reachable_inv Hexpl Hw Hh Htrack.
  destruct (calc_equations_truth g ai Hinv Hexpl Hw Hh Htrack) as [Hok Htruth].
  destruct (state_spec g) as [Hss Hstate].
  destruct (inv_size _ Hinv) as [Hwpos Hhpos].
  destruct (find_safe_and_mine_terminates ai (Game.state g))
    as (mines & safe & Hret & Hin); [by rewrite ?Hw, ?Hh..|done|].
  specialize (Hret (Z.to_nat (Game.width g * Game.height g))).
  rewrite Hw, Hh in Hret. specialize (Hret (le_n _)).
  exists mines, safe. split; [done|].
  destruct (find_safe_and_mine_loop_sound g
              (Z.to_nat (Game.width g * Game.height g)) ai
              (CSPAI.calc_equations ai (Game.state g)) (Game.state g) ∅ ∅ mines safe)
    as [Hm Hs]; [|done|by intros x ?%not_elem_of_empty..|done|].
  { apply calc_equations_ok; [by rewrite Hw, Hh|done]. }
  split_and!; [done..|].
  intros x Hx. destruct (Hin x Hx) as (Hb & Hnone & _). rewrite Hw, Hh in Hb.
  split; [done|]. rewrite Hstate in Hnone by done.
  by destruct (is_exposed g x).
Qed.

Lemma find_safe_and_mine_sound_witness :
  reachable game_3x3_two_play
  ∧ Game._explosion game_3x3_two_play = false
  ∧ CSPAI.width ai_3x3_two = Game.width game_3x3_two_play
  ∧ CSPAI.height ai_3x3_two = Game.height game_3x3_two_play
  ∧ CSPAI.exposed_squares ai_3x3_two = exposed_set game_3x3_two_play
  ∧ CSPAI.find_safe_and_mine
      (Z.to_nat (Game.width game_3x3_two_play * Game.height game_3x3_two_play))
      ai_3x3_two
      (CSPAI.calc_equations ai_3x3_two (Game.state game_3x3_two_play))
      (Game.state game_3x3_two_play)
    = Returns (list_to_set [(0, 0); (0, 1)], list_to_set [(0, 2)])
  ∧ (∀ x, x ∈ [(0, 2)] → is_mine game_3x3_two_play x = false)
  ∧ (∀ x, x ∈ [(0, 0); (0, 1)] → is_mine game_3x3_two_play x = true).
Proof.
  assert (CSPAI.exposed_squares ai_3x3_two = exposed_set game_3x3_two_play) as Htrack
    by (vm_compute; reflexivity).
  assert (CSPAI.find_safe_and_mine
            (Z.to_nat (Game.width game_3x3_two_play * Game.height game_3x3_two_play))
            ai_3x3_two
            (CSPAI.calc_equations ai_3x3_two (Game.state game_3x3_two_play))
            (Game.state game_3x3_two_play)
          = Returns (list_to_set [(0, 0); (0, 1)], list_to_set [(0, 2)])) as Hrun
    by (vm_compute; reflexivity).
  split_and!;
    [exact reachable_3x3_two_play|reflexivity|reflexivity|reflexivity
    |exact Htrack|exact Hrun| |].
  all: destruct (find_safe_and_mine_sound game_3x3_two_play ai_3x3_two
                   reachable_3x3_two_play eq_refl eq_refl eq_refl Htrack)
         as (mines & safe & Hret & Hs & Hm & _).
  all: rewrite Hrun in Hret; injection Hret as <- <-.
  - intros x Hx. apply Hs.
    exact (proj2 (elem_of_list_to_set (C:=gset (Z * Z)) x [(0, 2)]) Hx).
  - intros x Hx. apply Hm.
    exact (proj2 (elem_of_list_to_set (C:=gset (Z * Z)) x [(0, 0); (0, 1)]) Hx).
Defined.

(** ** More properties of the board engine *)

(** X7.  [select] on an unexposed square of the board that holds a mine
    or has a count other than 0, in a game with lists of the configured
    shape and no explosion: the call returns one record, the square with
    its count; that square alone becomes exposed; the counter of exposed
    squares and the move counter go up by one; and the explosion flag is
    set exactly when the square holds a mine. *)
Theorem select_single_record (g : Game.t) (x y : Z) :
  well_shaped g →
  in_board (Game.width g) (Game.height g) (x, y) →
  Game._explosion g = false →
  is_exposed g (x, y) = false →
  is_mine g (x, y) = true ∨ count_at g (x, y) ≠ 0 →
  ∃ r g',
    Game.select g x y = (Returns r, g')
    ∧ MoveResult.new_squares r = {[Square.mk x y (count_at g (x, y))]}
    ∧ MoveResult.status r = Game.status g'
    ∧ (∀ c, in_board (Game.width g) (Game.height g) c →
            is_exposed g' c = is_exposed g c || bool_decide (c = (x, y)))
    ∧ Game._num_exposed_squares g' = Game._num_exposed_squares g + 1
    ∧ Game.num_moves g' = Game.num_moves g + 1
    ∧ Game._explosion g' = is_mine g (x, y).
Proof.
  intros Hshape Hin Hexpl Hexp Hcase.
  destruct (select_returns g x y) as (squares & g' & -> & _ & Hpost); [done..|].
  pose proof (sp_single _ _ _ _ Hpost Hcase) as Hsq. simpl in Hsq. subst squares.
  eexists _, g'. split; [done|]. simpl. split_and!.
  - set_solver.
  - done.
  - intros c Hc. rewrite (sp_exposed _ _ _ _ Hpost) by done. f_equal.
    apply bool_decide_ext. unfold positions. simpl. apply list_elem_of_singleton.
  - rewrite (sp_counter _ _ _ _ Hpost). simpl. lia.
  - apply (sp_moves _ _ _ _ Hpost).
  - by rewrite (sp_explosion _ _ _ _ Hpost), Hexpl.
Qed.

Lemma select_single_record_witness :
  well_shaped game_3x1_start
  ∧ in_board (Game.width game_3x1_start) (Game.height game_3x1_start) (1, 0)
  ∧ Game._explosion game_3x1_start = false
  ∧ is_exposed game_3x1_start (1, 0) = false
  ∧ (is_mine game_3x1_start (1, 0) = true ∨ count_at game_3x1_start (1, 0) ≠ 0)
  ∧ ∃ r g',
      Game.select game_3x1_start 1 0 = (Returns r, g')
      ∧ MoveResult.new_squares r = {[Square.mk 1 0 (count_at game_3x1_start (1, 0))]}.
Proof.
  assert (well_shaped game_3x1_start) as Hs by (split_and!; solve_shape).
  assert (in_board (Game.width game_3x1_start) (Game.height game_3x1_start) (1, 0))
    as Hin by (by vm_compute).
  assert (is_mine game_3x1_start (1, 0) = true ∨ count_at game_3x1_start (1, 0) ≠ 0)
    as Hcase by (right; by vm_compute).
  split_and!; [exact Hs|exact Hin|reflexivity|reflexivity|exact Hcase|].
  destruct (select_single_record game_3x1_start 1 0 Hs Hin eq_refl eq_refl Hcase)
    as (r & g' & Hsel & Hsq & _).
  exists r, g'. split; [exact Hsel|exact Hsq].
Defined.

(** X8.  In a game reached from a construction, a [select] that returns
    gives records of squares of the board, each with the number of mines
    among its neighbours as count, and no record but that of the selected
    square is on a mine: the region growing never exposes a mine. *)
Theorem select_records_safe (g : Game.t) (x y : Z) (r : MoveResult.t) (g' : Game.t) :
  reachable g →
  Game.select g x y = (Returns r, g') →
  ∀ s, s ∈ MoveResult.new_squares r →
       in_board (Game.width g) (Game.height g) (Square.pos s)
       ∧ Square.num_mines s = neighbor_mines g (Square.pos s)
       ∧ (Square.pos s ≠ (x, y) → is_mine g (Square.pos s) = false).
Proof.
  intros Hinv%reachable_inv Hsel s Hs.
  apply select_returns_inv in Hsel as (_ & _ & _ & squares & -> & Hpost);
    [|by destruct Hinv].
  simpl in Hs. apply elem_of_list_to_set in Hs.
  destruct (sp_fresh _ _ _ _ Hpost s Hs) as (Hb & _ & Hcount).
  split_and!; [done| |].
  - rewrite Hcount. by apply (inv_counts _ Hinv).
  - intros Hne. eapply select_post_safe; [apply (inv_counts _ Hinv)|done| |done].
    by apply list_elem_of_fmap_2.
Qed.

Lemma select_records_safe_witness :
  reachable game_3x3_start
  ∧ Game.select game_3x3_start 0 0
    = (Returns (MoveResult.mk VICTORY (list_to_set squares_3x3)), game_3x3_after)
  ∧ ∀ s, s ∈ MoveResult.new_squares (MoveResult.mk VICTORY (list_to_set squares_3x3)) →
         in_board (Game.width game_3x3_start) (Game.height game_3x3_start) (Square.pos s)
         ∧ Square.num_mines s = neighbor_mines game_3x3_start (Square.pos s)
         ∧ (Square.pos s ≠ (0, 0) → is_mine game_3x3_start (Square.pos s) = false).
Proof.
  split_and!; [exact reachable_3x3|exact select_3x3|].
  exact (select_records_safe game_3x3_start 0 0 _ _ reachable_3x3 select_3x3).
Defined.

(** X9.  After a [select] that returns, in a game with lists of the
    configured shape: a square of the board is exposed exactly when it was
    exposed before or is the square of a record returned; width, height,
    mines and counts are as before. *)
Theorem select_exposes_records (g : Game.t) (x y : Z) (r : MoveResult.t) (g' : Game.t) :
  well_shaped g →
  Game.select g x y = (Returns r, g') →
  (∀ c, in_board (Game.width g) (Game.height g) c →
        (is_exposed g' c = true
         ↔ is_exposed g c = true
           ∨ ∃ s, s ∈ MoveResult.new_squares r ∧ Square.pos s = c))
  ∧ Game.width g' = Game.width g ∧ Game.height g' = Game.height g
  ∧ Game.mines g' = Game.mines g ∧ Game.counts g' = Game.counts g.
Proof.
  intros Hshape Hsel.
  apply select_returns_inv in Hsel as (_ & _ & _ & squares & -> & Hpost); [|done].
  destruct (sp_layout _ _ _ _ Hpost) as (Hw & Hh & _ & _ & _ & Hc & Hm).
  split_and!; [|done..]. intros c Hc'.
  rewrite (sp_exposed _ _ _ _ Hpost) by done. rewrite orb_true_iff, bool_decide_eq_true.
  simpl. unfold positions. rewrite list_elem_of_fmap.
  split; (intros [?|(s & ? & ?)]; [by left|right; exists s]);
    rewrite ?elem_of_list_to_set in *; done.
Qed.

Lemma select_exposes_records_witness :
  well_shaped game_3x3_start
  ∧ Game.select game_3x3_start 0 0
    = (Returns (MoveResult.mk VICTORY (list_to_set squares_3x3)), game_3x3_after)
  ∧ Game.mines game_3x3_after = Game.mines game_3x3_start.
Proof.
  split_and!; [exact well_shaped_3x3|exact select_3x3|].
  apply (select_exposes_records game_3x3_start 0 0 _ _ well_shaped_3x3 select_3x3).
Defined.

Lemma step_keeps_layout (g : Game.t) (c : call) :
  game_inv g →
  Game.width (step g c) = Game.width g ∧ Game.height (step g c) = Game.height g
  ∧ Game.mines (step g c) = Game.mines g ∧ Game.counts (step g c) = Game.counts g
  ∧ ∀ c', in_board (Game.width g) (Game.height g) c' →
          is_exposed g c' = true → is_exposed (step g c) c' = true.
Proof.
  intros Hinv. destruct c as [x y|]; [|done]. simpl.
  destruct (select_cases g x y) as [[_ ->]|[(_ & _ & ->)|[(_ & _ & _ & ->)|
    (_ & _ & _ & squares & g' & -> & Hpost)]]]; [by destruct Hinv|done..|].
  simpl. destruct (sp_layout _ _ _ _ Hpost) as (Hw & Hh & _ & _ & _ & Hc & Hm).
  split_and!; [done..|]. intros c' Hc' Hexp.
  rewrite (sp_exposed _ _ _ _ Hpost) by done. by rewrite Hexp.
Qed.

(** X10.  In a game reached from a construction, whatever calls follow:
    width, height, the mines and the counts stay as they are, and a square
    of the board that is exposed stays exposed. *)
Theorem run_keeps_layout (g : Game.t) (cs : list call) :
  reachable g →
  Game.width (run g cs) = Game.width g ∧ Game.height (run g cs) = Game.height g
  ∧ Game.mines (run g cs) = Game.mines g ∧ Game.counts (run g cs) = Game.counts g
  ∧ ∀ c, in_board (Game.width g) (Game.height g) c →
         is_exposed g c = true → is_exposed (run g cs) c = true.
Proof.
  intros Hinv%reachable_inv. revert g Hinv.
  induction cs as [|c cs IH]; intros g Hinv; [done|].
  change (run g (c :: cs)) with (run (step g c) cs).
  destruct (step_keeps_layout g c Hinv) as (Hw & Hh & Hm & Hc & Hexp).
  destruct (IH (step g c)) as (Hw' & Hh' & Hm' & Hc' & Hexp');
    [by apply step_preserves_inv|].
  split_and!; [congruence..|].
  intros c' Hb He. apply Hexp'; [by rewrite Hw, Hh|]. by apply Hexp.
Qed.

Lemma run_keeps_layout_witness :
  reachable game_3x1_start
  ∧ Game.mines (run game_3x1_start [Select 1 0; Select 0 0]) = Game.mines game_3x1_start.
Proof.
  assert (reachable game_3x1_start) as Hr.
  { exists config_3x1, (Some mines_3x1), [], game_3x1_start, [].
    split_and!; [apply valid_setup_3x1|by vm_compute|done]. }
  split; [exact Hr|].
  apply (run_keeps_layout game_3x1_start [Select 1 0; Select 0 0] Hr).
Defined.

(** X12.  In a game reached from a construction every count of the board
    is between 0 and 8. *)
Theorem counts_range (g : Game.t) (c : Z * Z) :
  reachable g →
  in_board (Game.width g) (Game.height g) c →
  0 ≤ count_at g c ≤ 8.
Proof.
  intros Hinv%reachable_inv Hc. rewrite (inv_counts _ Hinv c Hc).
  unfold neighbor_mines.
  pose proof (length_filter
                (λ c', in_board (Game.width g) (Game.height g) c' ∧ is_mine g c' = true)
                (neighbors c)) as Hle.
  change (length (neighbors c)) with 8%nat in Hle. lia.
Qed.

Lemma counts_range_witness :
  reachable game_3x3_start
  ∧ in_board (Game.width game_3x3_start) (Game.height game_3x3_start) (1, 1)
  ∧ 0 ≤ count_at game_3x3_start (1, 1) ≤ 8.
Proof.
  assert (in_board (Game.width game_3x3_start) (Game.height game_3x3_start) (1, 1))
    as Hin by (by vm_compute).
  split_and!; [exact reachable_3x3|exact Hin|..];
    apply (counts_range game_3x3_start (1, 1) reachable_3x3 Hin).
Defined.

(** ** Construction: edge cases *)

Lemma init_counts_frame (g : Game.t) :
  Game._init_counts g = Game.set_counts g (Game.counts (Game._init_counts g)).
Proof.
  unfold Game._init_counts.
  apply (fold_left_invariant _ (λ g', g' = Game.set_counts g (Game.counts g'))).
  - intros g1 [x y] _ Hg1.
    apply (fold_left_invariant _ (λ g', g' = Game.set_counts g (Game.counts g'))); [|done].
    intros g2 [dx dy] _ Hg2. unfold Game._init_counts_cell.
    destruct ((dx =? 0) && (dy =? 0)); [done|].
    destruct (negb _); [|done]. rewrite Hg2 at 1. done.
  - by destruct g.
Qed.

Lemma place_mines_frame (draws : list (Z * Z)) (g g' : Game.t) :
  Game._place_mines draws g = Returns g' → g' = Game.set_mines g (Game.mines g').
Proof.
  unfold Game._place_mines.
  destruct (Game._place_mines_loop _ _ _) as [locations| |]; [|done..].
  simpl. intros [= <-].
  apply (fold_left_invariant _ (λ g', g' = Game.set_mines g (Game.mines g'))).
  - intros g1 c _ Hg1. rewrite Hg1 at 1. done.
  - by destruct g.
Qed.

(** X11.  A game as [Game(config, mines)] returns it, for any
    configuration: no move made, nothing counted exposed, no square
    exposed, no explosion, no quit; and its status is PLAYING, unless
    [num_mines] is [width * height]: then there is no square to expose and
    the status is VICTORY before the first move. *)
Theorem init_status (config : GameConfig.t) (mines : option (list (list bool)))
    (draws : list (Z * Z)) (g : Game.t) :
  Game.__init__ config mines draws = Returns g →
  Game.num_moves g = 0
  ∧ Game._num_exposed_squares g = 0
  ∧ (∀ c, is_exposed g c = false)
  ∧ Game._explosion g = false ∧ Game._quit g = false
  ∧ Game.status g
    = if decide (GameConfig.num_mines config
                 = GameConfig.width config * GameConfig.height config)
      then VICTORY else PLAYING.
Proof.
  unfold Game.__init__.
  set (g0 := Game.mk _ _ _ 0 0 false false _ _ _ []).
  assert (∀ m, let g := Game._init_counts (Game.set_mines g0 m) in
               Game.num_moves g = 0 ∧ Game._num_exposed_squares g = 0
               ∧ (∀ c, is_exposed g c = false)
               ∧ Game._explosion g = false ∧ Game._quit g = false
               ∧ Game.status g
                 = if decide (GameConfig.num_mines config
                              = GameConfig.width config * GameConfig.height config)
                   then VICTORY else PLAYING) as Hall.
  { intros m. cbv zeta. rewrite init_counts_frame.
    split_and!; [done..| |done|done|].
    - intros c. unfold is_exposed. simpl. apply grid_get_make_default.
    - match goal with |- Game.status ?G = _ => set (gm := G) end.
      assert (Game.game_over gm
              = Z.eqb 0 (GameConfig.width config * GameConfig.height config
                         - GameConfig.num_mines config)) as Hover by reflexivity.
      unfold Game.status. rewrite Hover.
      destruct (Z.eqb_spec 0 (GameConfig.width config * GameConfig.height config
                              - GameConfig.num_mines config));
        case_decide as Hn; simpl; first [done|lia]. }
  destruct mines as [[|col cols]|]; simpl.
  - destruct (Game._place_mines draws _) as [g1| |] eqn:Hplace; [|done..].
    simpl. intros [= <-]. apply place_mines_frame in Hplace. rewrite Hplace. apply Hall.
  - intros [= <-]. apply Hall.
  - destruct (Game._place_mines draws _) as [g1| |] eqn:Hplace; [|done..].
    simpl. intros [= <-]. apply place_mines_frame in Hplace. rewrite Hplace. apply Hall.
Qed.

Lemma init_status_witness :
  Game.__init__ (GameConfig.mk 1 1 1) (Some [[true]]) []
  = Returns (Game.mk 1 1 1 0 0 false false 0 [[false]] [[0]] [[true]])
  ∧ Game.status (Game.mk 1 1 1 0 0 false false 0 [[false]] [[0]] [[true]]) = VICTORY.
Proof.
  assert (Game.__init__ (GameConfig.mk 1 1 1) (Some [[true]]) []
          = Returns (Game.mk 1 1 1 0 0 false false 0 [[false]] [[0]] [[true]])) as Hinit
    by (vm_compute; reflexivity).
  split; [exact Hinit|].
  apply (init_status (GameConfig.mk 1 1 1) (Some [[true]]) [] _ Hinit).
Defined.

Lemma place_mines_loop_never (w h n : Z) (draws : list (Z * Z)) (locations : gset (Z * Z)) :
  0 ≤ w → 0 ≤ h → w * h < n →
  (∀ c, c ∈ draws → in_board w h c) →
  (∀ c, c ∈ locations → in_board w h c) →
  Game._place_mines_loop n draws locations = OutOfFuel.
Proof.
  intros Hw Hh Hn. revert locations.
  induction draws as [|[x y] draws IH]; intros locations Hdraws Hloc.
  all: assert ((Z.of_nat (size locations) <? n) = true) as Hlt.
  all: try (apply Z.ltb_lt;
            assert (locations ⊆ list_to_set (board w h)) as Hsub
              by (intros c Hc; by apply elem_of_list_to_set, elem_of_board, Hloc);
            apply subseteq_size in Hsub;
            rewrite size_list_to_set in Hsub by apply NoDup_board;
            pose proof (length_board w h Hw Hh); lia).
  - simpl. by rewrite Hlt.
  - simpl. rewrite Hlt. apply IH.
    + intros c Hc. apply Hdraws. by right.
    + intros c [->%elem_of_singleton|Hc]%elem_of_union; [apply Hdraws; left|by apply Hloc].
Qed.

(** X13.  On a board of positive width and height, with more mines asked
    for than the board has squares and no layout given, the loop of
    [_place_mines] never ends: whatever squares of the board are drawn, the
    construction does not return.  (With a width or a height of 0 the first
    [random.randint(0, -1)] raises instead, which is why both are positive
    here.) *)
Theorem init_too_many_mines (config : GameConfig.t) (draws : list (Z * Z)) :
  0 < GameConfig.width config → 0 < GameConfig.height config →
  GameConfig.width config * GameConfig.height config < GameConfig.num_mines config →
  (∀ c, c ∈ draws → in_board (GameConfig.width config) (GameConfig.height config) c) →
  Game.__init__ config None draws = OutOfFuel.
Proof.
  intros Hw Hh Hn Hdraws. unfold Game.__init__, Game._place_mines. simpl.
  rewrite (place_mines_loop_never (GameConfig.width config) (GameConfig.height config));
    [done|lia|lia|done|done|]. by intros c ?%not_elem_of_empty.
Qed.

Lemma init_too_many_mines_witness :
  0 < GameConfig.width (GameConfig.mk 1 1 2)
  ∧ 0 < GameConfig.height (GameConfig.mk 1 1 2)
  ∧ GameConfig.width (GameConfig.mk 1 1 2) * GameConfig.height (GameConfig.mk 1 1 2)
    < GameConfig.num_mines (GameConfig.mk 1 1 2)
  ∧ (∀ c, c ∈ [(0, 0); (0, 0)] →
          in_board (GameConfig.width (GameConfig.mk 1 1 2))
            (GameConfig.height (GameConfig.mk 1 1 2)) c)
  ∧ Game.__init__ (GameConfig.mk 1 1 2) None [(0, 0); (0, 0)] = OutOfFuel.
Proof.
  assert (∀ c, c ∈ [(0, 0); (0, 0)] →
               in_board (GameConfig.width (GameConfig.mk 1 1 2))
                 (GameConfig.height (GameConfig.mk 1 1 2)) c) as Hdraws.
  { intros c Hc. repeat (apply elem_of_cons in Hc as [->|Hc]); try by vm_compute.
    by apply not_elem_of_nil in Hc. }
  split_and!; [simpl; lia..|exact Hdraws|].
  apply (init_too_many_mines (GameConfig.mk 1 1 2) [(0, 0); (0, 0)]);
    [simpl; lia..|exact Hdraws].
Defined.
